(** * Fund composition dashboard: resolver, caches, enrichment, aggregation
      and the visibility scheduler.

    A shallow embedding of the TypeScript sources under [src/lib/fund],
    [src/app/api/mf] and the fund detail modal.  Numbers are exact
    rationals ([Q]); strings are ASCII strings; the outside world (clock,
    registry, providers) is a record of oracles, and every outbound call is
    logged in a trace so that "is never invoked" is a statement about that
    trace. *)

From Stdlib Require Import QArith.
From stdpp Require Import gmap strings list fin_maps.
From Stdlib Require Import Ascii String.

Local Open Scope string_scope.
Local Open Scope list_scope.

(** ** JavaScript values *)

Module Js.

(** [String.prototype.toLowerCase], on the ASCII range. *)
Definition lower_ascii (c : ascii) : ascii :=
  let n := nat_of_ascii c in
  if (65 <=? n)%nat && (n <=? 90)%nat then ascii_of_nat (n + 32) else c.

Fixpoint toLowerCase (s : string) : string :=
  match s with
  | EmptyString => EmptyString
  | String c s' => String (lower_ascii c) (toLowerCase s')
  end.

(** White space as [String.prototype.trim] sees it (ASCII range):
    TAB, LF, VT, FF, CR and SPACE. *)
Definition is_space (c : ascii) : bool :=
  let n := nat_of_ascii c in
  ((9 <=? n)%nat && (n <=? 13)%nat) || (n =? 32)%nat.

Fixpoint trimStart_list (l : list ascii) : list ascii :=
  match l with
  | c :: l' => if is_space c then trimStart_list l' else l
  | [] => []
  end.

Definition trim (s : string) : string :=
  string_of_list_ascii
    (rev (trimStart_list (rev (trimStart_list (list_ascii_of_string s))))).

(** [String.prototype.includes]. *)
Fixpoint includes (s kw : string) : bool :=
  String.prefix kw s ||
  match s with
  | EmptyString => false
  | String _ s' => includes s' kw
  end.

(** Truthiness of an optional string: [undefined] and [''] are falsy. *)
Definition truthy_str (o : option string) : bool :=
  match o with
  | Some s => negb (String.eqb s "")
  | None => false
  end.

(** Truthiness of an optional number: [undefined] and [0] are falsy. *)
Definition truthy_num (o : option Q) : bool :=
  match o with
  | Some q => negb (Qeq_bool q 0)
  | None => false
  end.

(** [a || b] on optional strings and numbers; [or_else] is the end of a
    chain whose last operand is a plain string. *)
Definition or_else (a : option string) (b : string) : string :=
  match a with
  | Some s => if String.eqb s "" then b else s
  | None => b
  end.

Definition or_str (a b : option string) : option string :=
  if truthy_str a then a else b.

Definition or_num (a b : option Q) : option Q :=
  if truthy_num a then a else b.

(** [Array.prototype.slice(0, n)]. *)
Definition slice0 {A} (n : nat) (l : list A) : list A := firstn n l.

End Js.

(** ** Data model ([types.ts]) *)

Record FundHolding := {
  h_name : string;
  h_symbol : option string;
  h_sector : option string;
  h_percentage : Q;
  h_value : option Q;
  h_pe : option Q;
  h_marketCap : option string;
}.

Record SectorAllocation := { sa_sector : string; sa_percentage : Q }.
Record AssetAllocation := { aa_type : string; aa_percentage : Q }.

Record FundPortfolio := {
  fundName : string;
  isin : string;
  schemeCode : option string;
  category : option string;
  fundHouse : option string;
  nav : option Q;
  navDate : option string;
  holdings : list FundHolding;
  sectorAllocation : list SectorAllocation;
  assetAllocation : list AssetAllocation;
  lastUpdated : string;
  source : string;
  error : option string;
}.

(** ** The outside world *)

(** One outbound call, as it appears in the trace. *)
Inductive Scraper := Groww | Tickertape | Moneycontrol | ValueResearch | ETMoney.

Inductive Call :=
| CallRegistry (isin : string)
| CallAdapter (s : Scraper) (isin name : string)
| CallScreener (name : string)
| CallNSE (name : string).

#[global] Instance Scraper_eq_dec : EqDecision Scraper.
Proof. solve_decision. Defined.

(** What a provider page yields once fetched and parsed: everything a
    scraper puts in its result except the [source] literal, which the
    scraper itself writes. *)
Record Scraped := {
  sc_fundName : option string;
  sc_isin : option string;
  sc_category : option string;
  sc_fundHouse : option string;
  sc_nav : option Q;
  sc_holdings : list FundHolding;
  sc_sectorAllocation : list SectorAllocation;
  sc_lastUpdated : string;
}.

(** The [Partial<FundPortfolio>] built by [fetchFromMFAPI]. *)
Record MFAPIData := {
  mf_fundName : option string;
  mf_schemeCode : string;
  mf_category : option string;
  mf_fundHouse : option string;
  mf_nav : option Q;
  mf_navDate : option string;
}.

(** What [fetchPEFromScreener] yields. *)
Record PEData := {
  pe_pe : option Q;
  pe_marketCap : option string;
  pe_symbol : option string;
}.

Record World := {
  (** the value of the [n]-th [Date.now()] read *)
  clock : nat -> Z;
  (** what the registry answers for an identifier, if anything *)
  mfapi_reply : string -> option MFAPIData;
  (** what a provider's pages yield for (identifier, name), if anything *)
  provider_reply : Scraper -> string -> string -> option Scraped;
  (** outcome of the primary ratio provider for a name *)
  screener_reply : string -> option PEData;
  (** outcome of the secondary, ticker-only provider for a name *)
  nse_reply : string -> option string;
  (** timestamp string produced by [new Date().toISOString()] *)
  iso_now : string;
}.

(** ** Timed cache ([cache.ts], [peCache.ts]) *)

Record CacheEntry := { ce_data : FundPortfolio; ce_timestamp : Z }.

Record PECacheEntry := {
  pce_pe : option Q;
  pce_marketCap : option string;
  pce_symbol : option string;
  pce_timestamp : Z;
}.

(** Server state shared by the request handlers: both caches, the number of
    clock reads so far, and the log of outbound calls. *)
Record Server := {
  portfolioCache : gmap string CacheEntry;
  peCache : gmap string PECacheEntry;
  ticks : nat;
  trace : list Call;
}.

(** A small state monad over [Server]. *)
Definition M (A : Type) : Type := Server -> A * Server.

Definition ret {A} (a : A) : M A := fun s => (a, s).

Definition bind {A B} (m : M A) (k : A -> M B) : M B :=
  fun s => let (a, s') := m s in k a s'.

Notation "'let*' x ':=' c1 'in' c2" := (bind c1 (fun x => c2))
  (at level 10, x name, c1 at level 100, c2 at level 200).
Notation "'exec' c1 'then' c2" := (bind c1 (fun _ => c2))
  (at level 10, c1 at level 100, c2 at level 200).

(** The four ways a handler changes the server state. *)
Definition tick (s : Server) : Server :=
  {| portfolioCache := portfolioCache s; peCache := peCache s;
     ticks := S (ticks s); trace := trace s |}.

Definition logged (cs : list Call) (s : Server) : Server :=
  {| portfolioCache := portfolioCache s; peCache := peCache s;
     ticks := ticks s; trace := trace s ++ cs |}.

Definition withPortfolioCache (c : gmap string CacheEntry) (s : Server) : Server :=
  {| portfolioCache := c; peCache := peCache s;
     ticks := ticks s; trace := trace s |}.

Definition withPeCache (c : gmap string PECacheEntry) (s : Server) : Server :=
  {| portfolioCache := portfolioCache s; peCache := c;
     ticks := ticks s; trace := trace s |}.

Section Effects.

Context (w : World).

(** [Date.now()]. *)
Definition dateNow : M Z :=
  fun s => (clock w (ticks s), tick s).

(** Record an outbound call. *)
Definition emit (c : Call) : M unit :=
  fun s => (tt, logged [c] s).

Definition getPortfolioCache : M (gmap string CacheEntry) :=
  fun s => (portfolioCache s, s).

Definition setPortfolioCache (c : gmap string CacheEntry) : M unit :=
  fun s => (tt, withPortfolioCache c s).

Definition getPeCache : M (gmap string PECacheEntry) :=
  fun s => (peCache s, s).

Definition setPeCache (c : gmap string PECacheEntry) : M unit :=
  fun s => (tt, withPeCache c s).

Definition CACHE_TTL : Z := 24 * 60 * 60 * 1000.
Definition PE_CACHE_TTL : Z := 24 * 60 * 60 * 1000.

(** [getCachedPortfolio]: the clock is read only when an entry exists. *)
Definition getCachedPortfolio (isin : string) : M (option FundPortfolio) :=
  let* cache := getPortfolioCache in
  match cache !! isin with
  | None => ret None
  | Some entry =>
      let* now := dateNow in
      if (now - ce_timestamp entry >? CACHE_TTL)%Z then
        exec setPortfolioCache (delete isin cache) then
        ret None
      else ret (Some (ce_data entry))
  end.

(** [cachePortfolio]. *)
Definition cachePortfolio (isin : string) (data : FundPortfolio) : M unit :=
  let* now := dateNow in
  let* cache := getPortfolioCache in
  setPortfolioCache (<[isin := {| ce_data := data; ce_timestamp := now |}]> cache).

(** [getCachedPE]. *)
Definition getCachedPE (stockName : string) : M (option PECacheEntry) :=
  let key := Js.trim (Js.toLowerCase stockName) in
  let* cache := getPeCache in
  match cache !! key with
  | None => ret None
  | Some entry =>
      let* now := dateNow in
      if (now - pce_timestamp entry >? PE_CACHE_TTL)%Z then
        exec setPeCache (delete key cache) then
        ret None
      else ret (Some entry)
  end.

(** [cachePE]. *)
Definition cachePE (stockName : string) (data : PEData) : M unit :=
  let key := Js.trim (Js.toLowerCase stockName) in
  let* now := dateNow in
  let* cache := getPeCache in
  setPeCache (<[key := {| pce_pe := pe_pe data; pce_marketCap := pe_marketCap data;
                          pce_symbol := pe_symbol data; pce_timestamp := now |}]> cache).

End Effects.

(** ** Source adapters ([scrapers/*.ts]) and the registry ([mfapi.ts]) *)

(** What an [await] of an adapter can do to the resolver's loop. *)
Inductive Outcome (A : Type) :=
| Returned (a : A)
| Threw.
Arguments Returned {A} a.
Arguments Threw {A}.

Section Adapters.

Context (w : World).

(** The [source] literal each scraper writes in its result. *)
Definition scraper_source (s : Scraper) : string :=
  match s with
  | Groww => "Groww"
  | Tickertape => "Tickertape"
  | Moneycontrol => "Moneycontrol"
  | ValueResearch => "Value Research"
  | ETMoney => "ET Money"
  end.

(** Rows a scraper keeps: positive weight, and for the two HTML scrapers a
    non-empty name that is not the totals row. *)
Definition positive_weight (h : FundHolding) : bool :=
  negb (Qle_bool (h_percentage h) 0).

Definition keeps_row (s : Scraper) (h : FundHolding) : bool :=
  match s with
  | Moneycontrol =>
      negb (String.eqb (h_name h) "") && positive_weight h
      && negb (Js.includes (Js.toLowerCase (h_name h)) "total")
  | ValueResearch =>
      negb (String.eqb (h_name h) "") && positive_weight h
      && negb (String.eqb (h_name h) "Total")
  | _ => positive_weight h
  end.

(** The object literal a scraper returns once it has at least one row. *)
Definition scraper_result (s : Scraper) (isin fundName : string)
    (d : Scraped) (rows : list FundHolding) : FundPortfolio :=
  {| fundName := Js.or_else (sc_fundName d) fundName;
     isin := match s with Groww => Js.or_else (sc_isin d) isin | _ => isin end;
     schemeCode := None;
     category := match s with Groww => sc_category d | _ => None end;
     fundHouse := match s with Groww => sc_fundHouse d | _ => None end;
     nav := match s with Groww => sc_nav d | _ => None end;
     navDate := None;
     holdings := rows;
     sectorAllocation :=
       match s with
       | Groww | Moneycontrol => sc_sectorAllocation d
       | _ => []
       end;
     assetAllocation := [];
     lastUpdated := iso_now w;
     source := scraper_source s;
     error := None |}.

(** [scrapeGroww], [scrapeTickertape], ...: one outbound interaction, any
    failure caught inside and turned into [null]. *)
Definition scrape (s : Scraper) (isin fundName : string)
    : M (Outcome (option FundPortfolio)) :=
  exec emit (CallAdapter s isin fundName) then
  match provider_reply w s isin fundName with
  | None => ret (Returned None)
  | Some d =>
      let rows := filter (fun h => keeps_row s h = true) (sc_holdings d) in
      if (0 <? List.length rows)%nat
      then ret (Returned (Some (scraper_result s isin fundName d rows)))
      else ret (Returned None)
  end.

(** [fetchFromMFAPI]. *)
Definition fetchFromMFAPI (isin : string) : M (option MFAPIData) :=
  exec emit (CallRegistry isin) then
  ret (mfapi_reply w isin).

(** ** Composition resolver ([fund/index.ts]) *)

Record Adapter := {
  name : string;
  fn : string -> string -> M (Outcome (option FundPortfolio));
}.

(** Scraper sources in priority order. *)
Definition SCRAPER_ORDER : list Scraper :=
  [Groww; Tickertape; Moneycontrol; ValueResearch; ETMoney].

Definition scraper_name (s : Scraper) : string :=
  match s with
  | Groww => "Groww"
  | Tickertape => "Tickertape"
  | Moneycontrol => "Moneycontrol"
  | ValueResearch => "ValueResearch"
  | ETMoney => "ETMoney"
  end.

Definition SCRAPERS : list Adapter :=
  map (fun s => {| name := scraper_name s; fn := scrape s |}) SCRAPER_ORDER.

(** The [for (const scraper of SCRAPERS)] loop with its [try]/[catch] and
    [break]. *)
Fixpoint tryScrapers (l : list Adapter) (isin fundName : string)
    : M (option FundPortfolio) :=
  match l with
  | [] => ret None
  | scraper :: rest =>
      let* result := fn scraper isin fundName in
      match result with
      | Returned (Some p) =>
          if (0 <? List.length (holdings p))%nat then ret (Some p)
          else tryScrapers rest isin fundName
      | Returned None => tryScrapers rest isin fundName
      | Threw => tryScrapers rest isin fundName
      end
  end.

Definition NO_DATA_SOURCE : string := "No data available".
Definition NO_DATA_ERROR : string := "Failed to fetch holdings from all sources".

Definition mf_field {A} (f : MFAPIData -> option A) (m : option MFAPIData)
    : option A :=
  match m with
  | Some d => f d
  | None => None
  end.

(** The [result = { ...portfolio, ... }] literal of the success branch. *)
Definition overlay (mfapiData : option MFAPIData) (portfolio : FundPortfolio)
    (fundName0 : string) : FundPortfolio :=
  {| fundName :=
       Js.or_else (mf_field mf_fundName mfapiData)
         (Js.or_else (Some (fundName portfolio)) fundName0);
     isin := isin portfolio;
     schemeCode := schemeCode portfolio;
     category := Js.or_str (mf_field mf_category mfapiData) (category portfolio);
     fundHouse := mf_field mf_fundHouse mfapiData;
     nav := Js.or_num (mf_field mf_nav mfapiData) (nav portfolio);
     navDate := mf_field mf_navDate mfapiData;
     holdings := holdings portfolio;
     sectorAllocation := sectorAllocation portfolio;
     assetAllocation := assetAllocation portfolio;
     lastUpdated := lastUpdated portfolio;
     source := source portfolio;
     error := error portfolio |}.

(** The literal of the "all scrapers failed" branch. *)
Definition noData (mfapiData : option MFAPIData) (isin0 fundName0 : string)
    : FundPortfolio :=
  {| fundName := Js.or_else (mf_field mf_fundName mfapiData) fundName0;
     isin := isin0;
     schemeCode := None;
     category := mf_field mf_category mfapiData;
     fundHouse := mf_field mf_fundHouse mfapiData;
     nav := mf_field mf_nav mfapiData;
     navDate := mf_field mf_navDate mfapiData;
     holdings := [];
     sectorAllocation := [];
     assetAllocation := [];
     lastUpdated := iso_now w;
     source := NO_DATA_SOURCE;
     error := Some NO_DATA_ERROR |}.

(** [fetchFundPortfolio]. *)
Definition fetchFundPortfolio (isin0 fundName0 : string) : M FundPortfolio :=
  let* cached := getCachedPortfolio w isin0 in
  match cached with
  | Some p => ret p
  | None =>
      let* mfapiData := fetchFromMFAPI isin0 in
      let* portfolio := tryScrapers SCRAPERS isin0 fundName0 in
      match portfolio with
      | Some p =>
          if (0 <? List.length (holdings p))%nat then
            let result := overlay mfapiData p fundName0 in
            exec cachePortfolio w isin0 result then
            ret result
          else ret (noData mfapiData isin0 fundName0)
      | None => ret (noData mfapiData isin0 fundName0)
      end
  end.

End Adapters.

(** ** Ratio enricher ([utils.ts], [peEnricher.ts]) *)

(** [mapM] for the state monad: the callbacks of an [Array.prototype.map]
    run in list order. *)
Fixpoint mapM {A B} (f : A -> M B) (l : list A) : M (list B) :=
  match l with
  | [] => ret []
  | a :: l' =>
      let* b := f a in
      let* bs := mapM f l' in
      ret (b :: bs)
  end.

Definition debtKeywords : list string :=
  ["government"; "g-sec"; "gsec"; "treasury"; "t-bill"; "ncd";
   "debenture"; "bond"; "cp"; "cd"; "certificate"; "deposit";
   "repo"; "cblo"; "%"; "sovereign"].

(** [isDebtInstrument]. *)
Definition isDebtInstrument (name0 : string) : bool :=
  let lowerName := Js.toLowerCase name0 in
  existsb (fun keyword => Js.includes lowerName keyword) debtKeywords.

Definition emptyPE : PEData :=
  {| pe_pe := None; pe_marketCap := None; pe_symbol := None |}.

Section Enricher.

Context (w : World).

(** [fetchPEFromScreener] and [searchNSESymbol], as the request handlers
    see them: a lookup by name in which every failure is caught and becomes
    [null].  The two module-private memo tables in front of the providers
    (one hour for ratios, 24 hours for tickers) are not modelled: a lookup
    is taken to yield the same answer for a name throughout a run, and
    every lookup is logged as a call, so the trace bounds the outbound
    requests from above. *)
Definition fetchPEFromScreener (companyName : string) : M (option PEData) :=
  exec emit (CallScreener companyName) then
  ret (screener_reply w companyName).

Definition searchNSESymbol (companyName : string) : M (option string) :=
  exec emit (CallNSE companyName) then
  ret (nse_reply w companyName).

(** [fetchStockPE]. *)
Definition fetchStockPE (stockName : string) : M PEData :=
  let* screenerData := fetchPEFromScreener stockName in
  if Js.truthy_num (match screenerData with Some d => pe_pe d | None => None end)
  then ret (match screenerData with Some d => d | None => emptyPE end)
  else
    let* symbol := searchNSESymbol stockName in
    if Js.truthy_str symbol
    then ret {| pe_pe := None; pe_marketCap := None; pe_symbol := symbol |}
    else ret emptyPE.

(** The callback of [batch.map] in [enrichHoldingsWithPE]. *)
Definition enrichOne (holding : FundHolding) : M FundHolding :=
  if isDebtInstrument (h_name holding) then ret holding
  else
    let* peData := fetchStockPE (h_name holding) in
    ret {| h_name := h_name holding;
           h_symbol := Js.or_str (pe_symbol peData) (h_symbol holding);
           h_sector := h_sector holding;
           h_percentage := h_percentage holding;
           h_value := h_value holding;
           h_pe := Js.or_num (pe_pe peData) (h_pe holding);
           h_marketCap := Js.or_str (pe_marketCap peData) (h_marketCap holding) |}.

Definition batchSize : nat := 5.

(** The [for (i = 0; i < holdings.length; i += batchSize)] loop; [fuel]
    bounds the number of chunks. *)
Fixpoint enrichLoop (fuel : nat) (rest enrichedHoldings : list FundHolding)
    : M (list FundHolding) :=
  match fuel, rest with
  | S fuel', _ :: _ =>
      let* batchResults := mapM enrichOne (firstn batchSize rest) in
      enrichLoop fuel' (skipn batchSize rest) (enrichedHoldings ++ batchResults)
  | _, _ => ret enrichedHoldings
  end.

(** [enrichHoldingsWithPE]. *)
Definition enrichHoldingsWithPE (hs : list FundHolding) : M (list FundHolding) :=
  enrichLoop (List.length hs) hs [].

(** ** Ratio batch endpoint ([api/mf/pe/batch/route.ts]) *)

Record PEResult := {
  r_name : string;
  r_pe : option Q;
  r_marketCap : option string;
  r_symbol : option string;
}.

Inductive BatchResponse :=
| BatchBadRequest
| BatchResults (results : list PEResult).

(** What one [batch.map] callback does before its first [await]: the
    cache lookup.  All callbacks reach this point before any of them
    resumes. *)
Definition batchLookup (stockName : string)
    : M (string * option PECacheEntry) :=
  let* cached := getCachedPE w stockName in
  ret (stockName, cached).

(** The rest of the callback. *)
Definition batchResolve (p : string * option PECacheEntry) : M PEResult :=
  let (stockName, cached) := p in
  match cached with
  | Some e =>
      ret {| r_name := stockName; r_pe := pce_pe e;
             r_marketCap := pce_marketCap e; r_symbol := pce_symbol e |}
  | None =>
      let* peData := fetchStockPE stockName in
      exec cachePE w stockName peData then
      ret {| r_name := stockName; r_pe := pe_pe peData;
             r_marketCap := pe_marketCap peData; r_symbol := pe_symbol peData |}
  end.

Definition BATCH_LIMIT : nat := 10.

(** [POST] of the batch route; [None] is a body without a [stocks] array. *)
Definition batchPOST (stocks : option (list string)) : M BatchResponse :=
  match stocks with
  | None => ret BatchBadRequest
  | Some stocks =>
      let batch := Js.slice0 BATCH_LIMIT stocks in
      let* lookups := mapM batchLookup batch in
      let* resolvedResults := mapM batchResolve lookups in
      ret (BatchResults ([] ++ resolvedResults))
  end.

End Enricher.

(** ** Aggregation engine (the route behind [POST /api/portfolio/top-holdings]) *)

(** A JavaScript [Map] with string keys: iteration follows insertion order,
    so it is an association list with at most one binding per key. *)
Module OMap.

Definition t (V : Type) : Type := list (string * V).

Fixpoint get {V} (k : string) (m : t V) : option V :=
  match m with
  | [] => None
  | (k', v) :: m' => if String.eqb k k' then Some v else get k m'
  end.

Definition has {V} (k : string) (m : t V) : bool :=
  match get k m with Some _ => true | None => false end.

(** Mutation of the object bound to [k] (the binding keeps its place). *)
Fixpoint update {V} (k : string) (f : V -> V) (m : t V) : t V :=
  match m with
  | [] => []
  | (k', v) :: m' =>
      if String.eqb k k' then (k', f v) :: m' else (k', v) :: update k f m'
  end.

(** [Map.prototype.set]: an existing key keeps its place, a new one goes
    last. *)
Fixpoint set {V} (k : string) (v : V) (m : t V) : t V :=
  match m with
  | [] => [(k, v)]
  | (k', v') :: m' =>
      if String.eqb k k' then (k', v) :: m' else (k', v') :: set k v m'
  end.

Definition values {V} (m : t V) : list V := map snd m.
Definition keys {V} (m : t V) : list string := map fst m.

End OMap.

Record MFInput := {
  tradingsymbol : string;
  fund : string;
  last_price : Q;
  quantity : Q;
}.

Record Consolidated := {
  c_tradingsymbol : string;
  c_fund : string;
  c_totalValue : Q;
}.

Record FundEntry := { f_name : string; f_percentage : Q; f_value : Q }.

Record AggregatedHolding := {
  a_name : string;
  a_symbol : option string;
  a_totalValue : Q;
  a_totalPercentage : Q;
  a_funds : list FundEntry;
  a_pe : option Q;
  a_marketCap : option string;
  a_sector : option string;
}.

Section Aggregation.

Context (w : World).

Local Open Scope Q_scope.

(** Body of the first loop: combine folios of the same fund. *)
Definition consolidateStep (st : OMap.t Consolidated * Q) (mf : MFInput)
    : OMap.t Consolidated * Q :=
  let (consolidatedFunds, totalPortfolioValue) := st in
  let value := last_price mf * quantity mf in
  let key := fund mf in
  (if OMap.has key consolidatedFunds then
     OMap.update key
       (fun c => {| c_tradingsymbol := c_tradingsymbol c; c_fund := c_fund c;
                    c_totalValue := c_totalValue c + value |})
       consolidatedFunds
   else
     OMap.set key
       {| c_tradingsymbol := tradingsymbol mf; c_fund := fund mf;
          c_totalValue := value |}
       consolidatedFunds,
   totalPortfolioValue + value).

Definition consolidate (mfHoldings : list MFInput) : OMap.t Consolidated * Q :=
  fold_left consolidateStep mfHoldings ([], 0).

(** [existing.funds.find(f => f.name === mf.fund)] followed by the update
    of the entry found, or the [push] of a new one. *)
Fixpoint addFundEntry (fundName0 : string) (percentage value : Q)
    (funds : list FundEntry) : list FundEntry :=
  match funds with
  | [] => [{| f_name := fundName0; f_percentage := percentage; f_value := value |}]
  | f :: rest =>
      if String.eqb (f_name f) fundName0 then
        {| f_name := f_name f;
           f_percentage := f_percentage f + percentage;
           f_value := f_value f + value |} :: rest
      else f :: addFundEntry fundName0 percentage value rest
  end.

(** [if (!existing.x && holding.x) existing.x = holding.x]. *)
Definition fillNum (existing new : option Q) : option Q :=
  if negb (Js.truthy_num existing) && Js.truthy_num new then new else existing.

Definition fillStr (existing new : option string) : option string :=
  if negb (Js.truthy_str existing) && Js.truthy_str new then new else existing.

Definition holdingKey (holding : FundHolding) : string :=
  Js.trim (Js.toLowerCase (h_name holding)).

(** Body of the inner loop over [portfolio.holdings]. *)
Definition mergeHolding (mf : Consolidated) (fundWeight : Q)
    (holdingsMap : OMap.t AggregatedHolding) (holding : FundHolding)
    : OMap.t AggregatedHolding :=
  let fundValue := c_totalValue mf in
  let holdingValueInFund := (h_percentage holding / 100) * fundValue in
  let holdingPercentageInPortfolio := (h_percentage holding / 100) * fundWeight in
  let key := holdingKey holding in
  if OMap.has key holdingsMap then
    OMap.update key
      (fun existing =>
         {| a_name := a_name existing;
            a_symbol := fillStr (a_symbol existing) (h_symbol holding);
            a_totalValue := a_totalValue existing + holdingValueInFund;
            a_totalPercentage :=
              a_totalPercentage existing + holdingPercentageInPortfolio;
            a_funds :=
              addFundEntry (c_fund mf) (h_percentage holding)
                holdingValueInFund (a_funds existing);
            a_pe := fillNum (a_pe existing) (h_pe holding);
            a_marketCap := fillStr (a_marketCap existing) (h_marketCap holding);
            a_sector := fillStr (a_sector existing) (h_sector holding) |})
      holdingsMap
  else
    OMap.set key
      {| a_name := h_name holding;
         a_symbol := h_symbol holding;
         a_totalValue := holdingValueInFund;
         a_totalPercentage := holdingPercentageInPortfolio;
         a_funds := [{| f_name := c_fund mf;
                        f_percentage := h_percentage holding;
                        f_value := holdingValueInFund |}];
         a_pe := h_pe holding;
         a_marketCap := h_marketCap holding;
         a_sector := h_sector holding |}
      holdingsMap.

Definition fundWeightOf (totalPortfolioValue : Q) (mf : Consolidated) : Q :=
  if Qlt_le_dec 0 totalPortfolioValue
  then (c_totalValue mf / totalPortfolioValue) * 100
  else 0.

(** What one fund adds to the map once its composition is known. *)
Definition mergeFund (totalPortfolioValue : Q) (mf : Consolidated)
    (portfolio : FundPortfolio) (holdingsMap : OMap.t AggregatedHolding)
    : OMap.t AggregatedHolding :=
  if (0 <? List.length (holdings portfolio))%nat then
    fold_left (mergeHolding mf (fundWeightOf totalPortfolioValue mf))
      (holdings portfolio) holdingsMap
  else holdingsMap.

(** The [for (const mf of uniqueFunds)] loop. *)
Fixpoint processFunds (totalPortfolioValue : Q) (uniqueFunds : list Consolidated)
    (holdingsMap : OMap.t AggregatedHolding) : M (OMap.t AggregatedHolding) :=
  match uniqueFunds with
  | [] => ret holdingsMap
  | mf :: rest =>
      let* portfolio := fetchFundPortfolio w (c_tradingsymbol mf) (c_fund mf) in
      processFunds totalPortfolioValue rest
        (mergeFund totalPortfolioValue mf portfolio holdingsMap)
  end.

(** [Array.prototype.sort((a, b) => b.totalPercentage - a.totalPercentage)]:
    a stable sort, largest weight first. *)
Fixpoint insertByWeight (x : AggregatedHolding) (l : list AggregatedHolding)
    : list AggregatedHolding :=
  match l with
  | [] => [x]
  | y :: l' =>
      if Qle_bool (a_totalPercentage y) (a_totalPercentage x)
      then x :: y :: l'
      else y :: insertByWeight x l'
  end.

Definition sortByWeight (l : list AggregatedHolding) : list AggregatedHolding :=
  fold_right insertByWeight [] l.

Record TopHoldings := {
  t_holdings : list AggregatedHolding;
  t_totalHoldings : nat;
  t_totalPortfolioValue : Q;
  t_totalFunds : nat;
}.

Inductive TopResponse :=
| TopUnauthorized
| TopBadRequest
| TopOk (body : TopHoldings).

(** [POST] of the top-holdings route. *)
Definition topHoldingsPOST (accessToken : option string)
    (mfHoldings : option (list MFInput)) : M TopResponse :=
  if negb (Js.truthy_str accessToken) then ret TopUnauthorized
  else
    match mfHoldings with
    | None => ret TopBadRequest
    | Some mfHoldings =>
        let (consolidatedFunds, totalPortfolioValue) := consolidate mfHoldings in
        let uniqueFunds := OMap.values consolidatedFunds in
        let* holdingsMap := processFunds totalPortfolioValue uniqueFunds [] in
        let allHoldings := sortByWeight (OMap.values holdingsMap) in
        ret (TopOk {| t_holdings := allHoldings;
                      t_totalHoldings := List.length allHoldings;
                      t_totalPortfolioValue := totalPortfolioValue;
                      t_totalFunds := List.length uniqueFunds |})
    end.

End Aggregation.

(** ** Visibility scheduler (the fund detail modal) *)

Module Scheduler.

(** What a callback closed over when it was created: the React state of
    the render that made it. *)
Record Snapshot := {
  snap_fundData : option (list FundHolding);
  snap_loading : gset nat;
  snap_enabled : bool;
}.

(** A batch call that has been issued and has not settled yet. *)
Record Request := {
  req_id : nat;
  req_indices : list nat;
  req_stocks : list string;
  req_snap : Snapshot;
  req_aborted : bool;
}.

(** The modal: React state, refs, and what the browser holds for it
    (armed timers, unsettled calls). *)
Record Client := {
  fundData : option (list FundHolding);
  isPEEnabled : bool;
  loadingIndices : gset nat;
  pendingIndices : list nat;
  fetchedIndices : gset nat;
  batchTimeout : option nat;
  isFetching : bool;
  abortController : option nat;
  timers : list (nat * Snapshot);
  nextId : nat;
  inflight : list Request;
  mounted : bool;
  persisted : option (list FundHolding);
}.

Definition init : Client :=
  {| fundData := None; isPEEnabled := false; loadingIndices := ∅;
     pendingIndices := []; fetchedIndices := ∅; batchTimeout := None;
     isFetching := false; abortController := None; timers := [];
     nextId := 0; inflight := []; mounted := true; persisted := None |}.

(** How a settled call ends. *)
Inductive Settlement :=
| ResponseOk (results : list PEResult)
| ResponseNotOk
| FetchAborted
| FetchFailed.

Inductive Event :=
| FundLoaded (hs : list FundHolding) (fromCache : bool)
| EnablePE
| Visible (index : nat) (closure : Snapshot)
| TimerFires (id : nat)
| Settles (id : nat) (how : Settlement)
| Unmount.

(** [Set.prototype.add] and [delete] on a set kept in insertion order. *)
Definition set_add (i : nat) (l : list nat) : list nat :=
  if decide (i ∈ l) then l else l ++ [i].

Definition set_delete (i : nat) (l : list nat) : list nat :=
  filter (fun j => j ≠ i) l.

Definition clearTimeout (id : nat) (ts : list (nat * Snapshot))
    : list (nat * Snapshot) :=
  filter (fun t => t.1 ≠ id) ts.

Definition needsRatio (hs : list FundHolding) (i : nat) : option string :=
  match hs !! i with
  | Some h => if Js.truthy_num (h_pe h) then None else Some (h_name h)
  | None => None
  end.

(** [processBatch] up to its [await fetch(...)]. *)
Definition processBatch (closure : Snapshot) (s : Client) : Client :=
  match snap_fundData closure with
  | None => s
  | Some hs =>
      if isFetching s then s
      else
        let indicesToFetch :=
          firstn 10
            (filter (fun i => (i ∉ fetchedIndices s) ∧ (i ∉ snap_loading closure))
               (pendingIndices s)) in
        match indicesToFetch with
        | [] => s
        | _ :: _ =>
            let stocks := omap (needsRatio hs) indicesToFetch in
            match stocks with
            | [] =>
                {| fundData := fundData s; isPEEnabled := isPEEnabled s;
                   loadingIndices := loadingIndices s;
                   pendingIndices := pendingIndices s;
                   fetchedIndices :=
                     fetchedIndices s ∪ list_to_set indicesToFetch;
                   batchTimeout := batchTimeout s; isFetching := isFetching s;
                   abortController := abortController s; timers := timers s;
                   nextId := nextId s; inflight := inflight s;
                   mounted := mounted s; persisted := persisted s |}
            | _ :: _ =>
                {| fundData := fundData s; isPEEnabled := isPEEnabled s;
                   loadingIndices :=
                     loadingIndices s ∪ list_to_set indicesToFetch;
                   pendingIndices :=
                     foldr set_delete (pendingIndices s) indicesToFetch;
                   fetchedIndices :=
                     fetchedIndices s ∪ list_to_set indicesToFetch;
                   batchTimeout := batchTimeout s; isFetching := true;
                   abortController := Some (nextId s); timers := timers s;
                   nextId := S (nextId s);
                   inflight :=
                     inflight s ++
                     [{| req_id := nextId s; req_indices := indicesToFetch;
                         req_stocks := stocks; req_snap := closure;
                         req_aborted := false |}];
                   mounted := mounted s; persisted := persisted s |}
            end
        end
  end.

(** The [setFundData(prev => ...)] updater: merge one result into the
    first holding of that name. *)
Fixpoint mergeResult (result : PEResult) (hs : list FundHolding)
    : list FundHolding :=
  match hs with
  | [] => []
  | h :: rest =>
      if String.eqb (h_name h) (r_name result) then
        {| h_name := h_name h;
           h_symbol := Js.or_str (r_symbol result) (h_symbol h);
           h_sector := h_sector h;
           h_percentage := h_percentage h;
           h_value := h_value h;
           h_pe := Js.or_num (r_pe result) (h_pe h);
           h_marketCap := Js.or_str (r_marketCap result) (h_marketCap h) |}
        :: rest
      else h :: mergeResult result rest
  end.

Definition mergeResults (results : list PEResult) (hs : list FundHolding)
    : list FundHolding :=
  fold_left (fun acc r => mergeResult r acc) results hs.

(** [processBatch] from the point where [await fetch(...)] settles: the
    rest of the [try], the [catch], and the [finally]. *)
Definition settle (r : Request) (how : Settlement) (s : Client) : Client :=
  let fundData' :=
    match how, fundData s with
    | ResponseOk results, Some hs => Some (mergeResults results hs)
    | _, d => d
    end in
  let persisted' :=
    match how, fundData s with
    | ResponseOk results, Some hs => Some (mergeResults results hs)
    | _, _ => persisted s
    end in
  let fetched' :=
    match how with
    | FetchFailed => fetchedIndices s ∖ list_to_set (req_indices r)
    | _ => fetchedIndices s
    end in
  let followUp := negb (bool_decide (pendingIndices s = [])) in
  {| fundData := fundData'; isPEEnabled := isPEEnabled s;
     loadingIndices := loadingIndices s ∖ list_to_set (req_indices r);
     pendingIndices := pendingIndices s;
     fetchedIndices := fetched';
     batchTimeout := batchTimeout s; isFetching := false;
     abortController := None;
     timers :=
       if followUp then timers s ++ [(nextId s, req_snap r)] else timers s;
     nextId := if followUp then S (nextId s) else nextId s;
     inflight := filter (fun q => req_id q ≠ req_id r) (inflight s);
     mounted := mounted s; persisted := persisted' |}.

(** [handleHoldingVisible]. *)
Definition handleHoldingVisible (index : nat) (closure : Snapshot) (s : Client)
    : Client :=
  if negb (snap_enabled closure) then s
  else if bool_decide (index ∈ fetchedIndices s) then s
  else if Js.truthy_num
            (match snap_fundData closure with
             | Some hs => match hs !! index with Some h => h_pe h | None => None end
             | None => None
             end) then s
  else
    let armed :=
      match batchTimeout s with
      | Some id => clearTimeout id (timers s)
      | None => timers s
      end in
    {| fundData := fundData s; isPEEnabled := isPEEnabled s;
       loadingIndices := loadingIndices s;
       pendingIndices := set_add index (pendingIndices s);
       fetchedIndices := fetchedIndices s;
       batchTimeout := Some (nextId s); isFetching := isFetching s;
       abortController := abortController s;
       timers := armed ++ [(nextId s, closure)];
       nextId := S (nextId s); inflight := inflight s;
       mounted := mounted s; persisted := persisted s |}.

(** [enablePELoading]. *)
Definition enablePELoading (s : Client) : Client :=
  {| fundData := fundData s; isPEEnabled := true;
     loadingIndices := loadingIndices s;
     pendingIndices := []; fetchedIndices := ∅;
     batchTimeout := batchTimeout s; isFetching := isFetching s;
     abortController := abortController s; timers := timers s;
     nextId := nextId s; inflight := inflight s;
     mounted := mounted s; persisted := persisted s |}.

Definition abort (id : nat) (r : Request) : Request :=
  if decide (req_id r = id) then
    {| req_id := req_id r; req_indices := req_indices r;
       req_stocks := req_stocks r; req_snap := req_snap r;
       req_aborted := true |}
  else r.

(** The cleanup of the unmount effect. *)
Definition unmount (s : Client) : Client :=
  {| fundData := fundData s; isPEEnabled := isPEEnabled s;
     loadingIndices := loadingIndices s;
     pendingIndices := []; fetchedIndices := fetchedIndices s;
     batchTimeout := batchTimeout s; isFetching := false;
     abortController := abortController s;
     timers :=
       match batchTimeout s with
       | Some id => clearTimeout id (timers s)
       | None => timers s
       end;
     nextId := nextId s;
     inflight :=
       match abortController s with
       | Some id => map (abort id) (inflight s)
       | None => inflight s
       end;
     mounted := false; persisted := persisted s |}.

(** The [fetchFundData] effect: enrichment is switched off, then the
    composition arrives, from the durable cache or from the server. *)
Definition fundLoaded (hs : list FundHolding) (fromCache : bool) (s : Client)
    : Client :=
  {| fundData := Some hs;
     isPEEnabled :=
       fromCache && existsb (fun h => Js.truthy_num (h_pe h)) hs;
     loadingIndices := loadingIndices s;
     pendingIndices := pendingIndices s; fetchedIndices := fetchedIndices s;
     batchTimeout := batchTimeout s; isFetching := isFetching s;
     abortController := abortController s; timers := timers s;
     nextId := nextId s; inflight := inflight s;
     mounted := mounted s;
     persisted := if fromCache then persisted s
                  else match hs with [] => persisted s | _ => Some hs end |}.

(** One turn of the event loop; [None] when the event cannot happen in
    this state (no such timer, no such call, view already gone). *)
Definition step (e : Event) (s : Client) : option Client :=
  match e with
  | FundLoaded hs fromCache =>
      if mounted s then Some (fundLoaded hs fromCache s) else None
  | EnablePE => if mounted s then Some (enablePELoading s) else None
  | Visible index closure =>
      if mounted s then Some (handleHoldingVisible index closure s) else None
  | TimerFires id =>
      match list_find (fun t => t.1 = id) (timers s) with
      | Some (_, (_, closure)) =>
          Some (processBatch closure
                  {| fundData := fundData s; isPEEnabled := isPEEnabled s;
                     loadingIndices := loadingIndices s;
                     pendingIndices := pendingIndices s;
                     fetchedIndices := fetchedIndices s;
                     batchTimeout := batchTimeout s;
                     isFetching := isFetching s;
                     abortController := abortController s;
                     timers := clearTimeout id (timers s);
                     nextId := nextId s; inflight := inflight s;
                     mounted := mounted s; persisted := persisted s |})
      | None => None
      end
  | Settles id how =>
      match list_find (fun r => req_id r = id) (inflight s) with
      | Some (_, r) =>
          match how with
          | FetchAborted => if req_aborted r then Some (settle r how s) else None
          | _ => Some (settle r how s)
          end
      | None => None
      end
  | Unmount => if mounted s then Some (unmount s) else None
  end.

(** Run a sequence of events from a state; a state is reachable when some
    sequence of events leads to it from the freshly mounted modal. *)
Fixpoint run (es : list Event) (s : Client) : option Client :=
  match es with
  | [] => Some s
  | e :: es' =>
      match step e s with
      | Some s' => run es' s'
      | None => None
      end
  end.

Definition reachable (s : Client) : Prop :=
  exists es, run es init = Some s.

(** What holds in every state the modal can reach. *)
Definition Inv (s : Client) : Prop :=
  (List.length (inflight s) <= 1)%nat /\
  (mounted s = true -> (isFetching s = true <-> inflight s ≠ [])) /\
  (mounted s = false -> pendingIndices s = [] /\ isFetching s = false).

End Scheduler.

(** * Specification-level vocabulary *)

Section ResolverVocabulary.

Context (w : World).

(** What an adapter answers for a request, independently of the server
    state. *)
Definition scrape_value (s : Scraper) (isin0 fundName0 : string)
    : option FundPortfolio :=
  match provider_reply w s isin0 fundName0 with
  | None => None
  | Some d =>
      let rows := filter (fun h => keeps_row s h = true) (sc_holdings d) in
      if (0 <? List.length rows)%nat
      then Some (scraper_result w s isin0 fundName0 d rows)
      else None
  end.

(** The adapter's result has at least one constituent. *)
Definition succeeds (isin0 fundName0 : string) (s : Scraper) : bool :=
  match scrape_value s isin0 fundName0 with
  | Some p => (0 <? List.length (holdings p))%nat
  | None => false
  end.

Definition adapterOf (s : Scraper) : Adapter :=
  {| name := scraper_name s; fn := scrape w s |}.

Definition adapterCall (isin0 fundName0 : string) (s : Scraper) : Call :=
  CallAdapter s isin0 fundName0.

(** The cache lookup at the head of a resolution finds nothing usable. *)
Definition misses (isin0 : string) (st : Server) : Prop :=
  (getCachedPortfolio w isin0 st).1 = None.

End ResolverVocabulary.

Section EnricherVocabulary.

Context (w : World).

(** What [fetchStockPE] yields for a name, and the calls it makes. *)
Definition primaryFound (stockName : string) : bool :=
  Js.truthy_num
    (match screener_reply w stockName with Some d => pe_pe d | None => None end).

Definition lookupPE (stockName : string) : PEData :=
  if primaryFound stockName
  then match screener_reply w stockName with Some d => d | None => emptyPE end
  else if Js.truthy_str (nse_reply w stockName)
       then {| pe_pe := None; pe_marketCap := None;
               pe_symbol := nse_reply w stockName |}
       else emptyPE.

Definition peCalls (stockName : string) : list Call :=
  CallScreener stockName ::
  (if primaryFound stockName then [] else [CallNSE stockName]).

Definition peKey (stockName : string) : string :=
  Js.trim (Js.toLowerCase stockName).

(** The entry of the batch response for a name, given what its cache
    lookup found. *)
Definition resultOf (p : string * option PECacheEntry) : PEResult :=
  match p.2 with
  | Some e =>
      {| r_name := p.1; r_pe := pce_pe e; r_marketCap := pce_marketCap e;
         r_symbol := pce_symbol e |}
  | None =>
      {| r_name := p.1; r_pe := pe_pe (lookupPE p.1);
         r_marketCap := pe_marketCap (lookupPE p.1);
         r_symbol := pe_symbol (lookupPE p.1) |}
  end.

Definition callsOf (p : string * option PECacheEntry) : list Call :=
  match p.2 with
  | Some _ => []
  | None => peCalls p.1
  end.

(** A call to one of the two ratio providers about [n]. *)
Definition ratioCallFor (n : string) (c : Call) : Prop :=
  c = CallScreener n \/ c = CallNSE n.

(** What the bulk path returns for one holding, and the calls it makes. *)
Definition enrichPure (holding : FundHolding) : FundHolding :=
  if isDebtInstrument (h_name holding) then holding
  else
    let peData := lookupPE (h_name holding) in
    {| h_name := h_name holding;
       h_symbol := Js.or_str (pe_symbol peData) (h_symbol holding);
       h_sector := h_sector holding;
       h_percentage := h_percentage holding;
       h_value := h_value holding;
       h_pe := Js.or_num (pe_pe peData) (h_pe holding);
       h_marketCap := Js.or_str (pe_marketCap peData) (h_marketCap holding) |}.

Definition enrichCalls (holding : FundHolding) : list Call :=
  if isDebtInstrument (h_name holding) then [] else peCalls (h_name holding).

End EnricherVocabulary.

Section AggregationVocabulary.

Local Open Scope Q_scope.

Definition sumQ (l : list Q) : Q := fold_right Qplus 0 l.

(** One pass through the body of the inner loop: a constituent, the fund
    it sits in, and that fund's weight in the portfolio. *)
Record Contribution := {
  ct_fund : Consolidated;
  ct_weight : Q;
  ct_holding : FundHolding;
}.

Definition ct_key (c : Contribution) : string := holdingKey (ct_holding c).
Definition ct_fundName (c : Contribution) : string := c_fund (ct_fund c).
Definition ct_pct (c : Contribution) : Q := h_percentage (ct_holding c).

(** The constituent's absolute value and its portfolio-wide weight. *)
Definition ct_value (c : Contribution) : Q :=
  (h_percentage (ct_holding c) / 100) * c_totalValue (ct_fund c).
Definition ct_share (c : Contribution) : Q :=
  (h_percentage (ct_holding c) / 100) * ct_weight c.

Definition mergeContribution (m : OMap.t AggregatedHolding) (c : Contribution)
    : OMap.t AggregatedHolding :=
  mergeHolding (ct_fund c) (ct_weight c) m (ct_holding c).

Definition contributionsOfFund (total : Q) (r : Consolidated * FundPortfolio)
    : list Contribution :=
  map (fun h => {| ct_fund := r.1; ct_weight := fundWeightOf total r.1;
                   ct_holding := h |}) (holdings r.2).

(** All passes of the nested loops, in the order they happen. *)
Definition contributionsOf (total : Q)
    (rs : list (Consolidated * FundPortfolio)) : list Contribution :=
  flat_map (contributionsOfFund total) rs.

(** The compositions the outer loop obtains, fund by fund. *)
Definition resolveAll (w : World) (funds : list Consolidated)
    : M (list (Consolidated * FundPortfolio)) :=
  mapM (fun mf =>
          let* portfolio := fetchFundPortfolio w (c_tradingsymbol mf) (c_fund mf) in
          ret (mf, portfolio)) funds.

(** The deduplication key of a returned record, the record returned for a
    key, and its portfolio-wide weight. *)
Definition recKey (a : AggregatedHolding) : string :=
  Js.trim (Js.toLowerCase (a_name a)).

Definition returned (k : string) (l : list AggregatedHolding)
    : option AggregatedHolding :=
  List.find (fun a => String.eqb (recKey a) k) l.

Definition returnedWeight (k : string) (l : list AggregatedHolding) : Q :=
  match returned k l with
  | Some a => a_totalPercentage a
  | None => 0
  end.

(** The per-holding contribution entry of a record for a fund name. *)
Definition fundEntry (n : string) (fs : list FundEntry) : option FundEntry :=
  List.find (fun e => String.eqb (f_name e) n) fs.

(** The value of an input holding, and the first input holding of a fund
    name. *)
Definition mfValue (mf : MFInput) : Q := last_price mf * quantity mf.

Definition firstOfName (n : string) (l : list MFInput) : option MFInput :=
  List.find (fun mf => String.eqb (fund mf) n) l.

(** The identifier an outbound call of the resolver is about. *)
Definition callIdentifier (c : Call) : option string :=
  match c with
  | CallRegistry i => Some i
  | CallAdapter _ i _ => Some i
  | _ => None
  end.

(** A record is right for the contributions [csk] that share its key. *)
Definition RecordOk (csk : list Contribution) (a : AggregatedHolding) : Prop :=
  a_totalValue a == sumQ (map ct_value csk) /\
  a_totalPercentage a == sumQ (map ct_share csk) /\
  NoDup (map f_name (a_funds a)) /\
  (forall n, n ∈ map f_name (a_funds a) <-> n ∈ map ct_fundName csk) /\
  (forall n e, fundEntry n (a_funds a) = Some e ->
     f_percentage e ==
       sumQ (map ct_pct (filter (fun c => ct_fundName c = n) csk)) /\
     f_value e ==
       sumQ (map ct_value (filter (fun c => ct_fundName c = n) csk))).

(** The map is right for the contributions [cs] merged so far. *)
Definition MapOk (cs : list Contribution) (m : OMap.t AggregatedHolding) : Prop :=
  NoDup (OMap.keys m) /\
  (forall k a, OMap.get k m = Some a ->
     recKey a = k /\ RecordOk (filter (fun c => ct_key c = k) cs) a) /\
  (forall k, OMap.get k m = None -> filter (fun c => ct_key c = k) cs = []).

Definition freshRecord (c : Contribution) : AggregatedHolding :=
  {| a_name := h_name (ct_holding c);
     a_symbol := h_symbol (ct_holding c);
     a_totalValue := ct_value c;
     a_totalPercentage := ct_share c;
     a_funds := [{| f_name := ct_fundName c; f_percentage := ct_pct c;
                    f_value := ct_value c |}];
     a_pe := h_pe (ct_holding c);
     a_marketCap := h_marketCap (ct_holding c);
     a_sector := h_sector (ct_holding c) |}.

Definition addedRecord (c : Contribution) (existing : AggregatedHolding)
    : AggregatedHolding :=
  {| a_name := a_name existing;
     a_symbol := fillStr (a_symbol existing) (h_symbol (ct_holding c));
     a_totalValue := a_totalValue existing + ct_value c;
     a_totalPercentage := a_totalPercentage existing + ct_share c;
     a_funds := addFundEntry (ct_fundName c) (ct_pct c) (ct_value c)
                  (a_funds existing);
     a_pe := fillNum (a_pe existing) (h_pe (ct_holding c));
     a_marketCap := fillStr (a_marketCap existing) (h_marketCap (ct_holding c));
     a_sector := fillStr (a_sector existing) (h_sector (ct_holding c)) |}.

(** The consolidated map is right for the input holdings [l] seen so far. *)
Definition ConsOk (l : list MFInput) (st : OMap.t Consolidated * Q) : Prop :=
  NoDup (OMap.keys st.1) /\
  st.2 == sumQ (map mfValue l) /\
  (forall n, OMap.get n st.1 = None -> firstOfName n l = None) /\
  (forall n c, OMap.get n st.1 = Some c ->
     c_fund c = n /\
     (exists mf, firstOfName n l = Some mf /\
                 c_tradingsymbol c = tradingsymbol mf) /\
     c_totalValue c == sumQ (map mfValue (filter (fun mf => fund mf = n) l))).

Definition about (i : string) (c : Call) : Prop := callIdentifier c = Some i.

End AggregationVocabulary.

(** * Sample worlds, states and requests *)

Definition quietWorld : World :=
  {| clock := fun n => Z.of_nat n;
     mfapi_reply := fun _ => None;
     provider_reply := fun _ _ _ => None;
     screener_reply := fun _ => None;
     nse_reply := fun _ => None;
     iso_now := "2024-01-01T00:00:00.000Z" |}.

Definition coldServer : Server :=
  {| portfolioCache := ∅; peCache := ∅; ticks := 0; trace := [] |}.

Definition row (n : string) (pct : Q) : FundHolding :=
  {| h_name := n; h_symbol := None; h_sector := None; h_percentage := pct;
     h_value := None; h_pe := None; h_marketCap := None |}.

Definition page (n : string) (rows : list FundHolding) : Scraped :=
  {| sc_fundName := Some n; sc_isin := None; sc_category := Some "Large Cap";
     sc_fundHouse := Some "Axis AMC"; sc_nav := Some (45 # 1);
     sc_holdings := rows; sc_sectorAllocation := [];
     sc_lastUpdated := "" |}.

(** Only the second provider in the order knows the fund. *)
Definition tickertapeOnly : World :=
  {| clock := clock quietWorld;
     mfapi_reply := mfapi_reply quietWorld;
     provider_reply := fun s _ _ =>
       match s with
       | Tickertape => Some (page "Axis Bluechip" [row "Acme Ltd" (40 # 1); row "Beta Ltd" (60 # 1)])
       | _ => None
       end;
     screener_reply := screener_reply quietWorld;
     nse_reply := nse_reply quietWorld;
     iso_now := iso_now quietWorld |}.

(** The registry and the first provider both know the fund, under different
    names, categories and NAVs. *)
Definition registryAndGroww : World :=
  {| clock := clock quietWorld;
     mfapi_reply := fun _ =>
       Some {| mf_fundName := Some "Axis Bluechip Fund - Direct Plan - Growth";
               mf_schemeCode := "120465";
               mf_category := Some "Equity Scheme - Large Cap Fund";
               mf_fundHouse := Some "Axis Mutual Fund";
               mf_nav := Some (46 # 1);
               mf_navDate := Some "01-01-2024" |};
     provider_reply := fun s _ _ =>
       match s with
       | Groww => Some (page "Axis Bluechip" [row "Acme Ltd" (100 # 1)])
       | _ => None
       end;
     screener_reply := screener_reply quietWorld;
     nse_reply := nse_reply quietWorld;
     iso_now := iso_now quietWorld |}.

(** A server whose cache holds an entry for [INF001] written at time 0, seen
    by a clock that has since run past the TTL. *)
Definition staleEntry : FundPortfolio :=
  {| fundName := "Old"; isin := "INF001"; schemeCode := None; category := None;
     fundHouse := None; nav := None; navDate := None;
     holdings := [row "Acme Ltd" (100 # 1)];
     sectorAllocation := []; assetAllocation := [];
     lastUpdated := ""; source := "Groww"; error := None |}.

Definition staleServer : Server :=
  {| portfolioCache := {[ "INF001" := {| ce_data := staleEntry; ce_timestamp := 0 |} ]};
     peCache := ∅; ticks := 0; trace := [] |}.

Definition lateWorld : World :=
  {| clock := fun _ => (CACHE_TTL + 1)%Z;
     mfapi_reply := mfapi_reply quietWorld;
     provider_reply := provider_reply quietWorld;
     screener_reply := screener_reply quietWorld;
     nse_reply := nse_reply quietWorld;
     iso_now := iso_now quietWorld |}.

(** A ratio provider that knows a company for any search text. *)
Definition eagerScreener : World :=
  {| clock := clock quietWorld;
     mfapi_reply := mfapi_reply quietWorld;
     provider_reply := provider_reply quietWorld;
     screener_reply := fun _ =>
       Some {| pe_pe := Some (12 # 1); pe_marketCap := Some "500 Cr";
               pe_symbol := Some "GOI" |};
     nse_reply := nse_reply quietWorld;
     iso_now := iso_now quietWorld |}.

(** Two funds that both hold Acme, spelled differently. *)
Definition acmeWorld : World :=
  {| clock := clock quietWorld;
     mfapi_reply := mfapi_reply quietWorld;
     provider_reply := fun s _ n =>
       match s with
       | Groww =>
           if String.eqb n "Fund A"
           then Some (page n [row " Acme Ltd" (40 # 1); row "Beta Ltd" (60 # 1)])
           else if String.eqb n "Fund B"
           then Some (page n [row "ACME LTD " (50 # 1); row "Gamma Ltd" (50 # 1)])
           else None
       | _ => None
       end;
     screener_reply := screener_reply quietWorld;
     nse_reply := nse_reply quietWorld;
     iso_now := iso_now quietWorld |}.

Definition folio (ts n : string) (price qty : Q) : MFInput :=
  {| tradingsymbol := ts; fund := n; last_price := price; quantity := qty |}.

Definition acmeRequest : list MFInput :=
  [folio "INF00A" "Fund A" (100 # 1) (1000 # 1);
   folio "INF00B" "Fund B" (100 # 1) (3000 # 1)].

(** A single fund whose listed constituents cover 90% of it. *)
Definition partialWorld : World :=
  {| clock := clock quietWorld;
     mfapi_reply := mfapi_reply quietWorld;
     provider_reply := fun s _ n =>
       match s with
       | Groww =>
           if String.eqb n "Fund A"
           then Some (page n [row "Acme Ltd" (40 # 1); row "Beta Ltd" (50 # 1)])
           else None
       | _ => None
       end;
     screener_reply := screener_reply quietWorld;
     nse_reply := nse_reply quietWorld;
     iso_now := iso_now quietWorld |}.

(** Two folios of one fund held under different identifiers, and a second
    fund. *)
Definition twoFolios : list MFInput :=
  [folio "INF00A" "Fund A" (100 # 1) (600 # 1);
   folio "INF00B" "Fund B" (100 # 1) (3000 # 1);
   folio "INF0A2" "Fund A" (100 # 1) (400 # 1)].

Module SchedulerSamples.

Import Scheduler.

Definition sixRows : list FundHolding :=
  [row "Acme Ltd" (30 # 1); row "Beta Ltd" (20 # 1); row "Gamma Ltd" (15 # 1);
   row "Delta Ltd" (15 # 1); row "Epsilon Ltd" (10 # 1); row "Zeta Ltd" (10 # 1)].

(** The closure of a render in which the composition is loaded, enrichment
    is enabled and nothing is loading. *)
Definition rendered : Snapshot :=
  {| snap_fundData := Some sixRows; snap_loading := ∅; snap_enabled := true |}.

(** Five rows become visible in a burst and the debounce timer fires. *)
Definition burst : list Event :=
  [FundLoaded sixRows false; EnablePE;
   Visible 0 rendered; Visible 1 rendered; Visible 2 rendered;
   Visible 3 rendered; Visible 4 rendered;
   TimerFires 4].

(** A sixth row becomes visible while the call is out, and its debounce
    timer fires before the call settles. *)
Definition sixthRow : list Event := [Visible 5 rendered; TimerFires 6].

(** The call settles and the follow-up timer fires. *)
Definition followUp : list Event := [Settles 5 (ResponseOk []); TimerFires 7].

Definition calls (o : option Client) : option (list (list nat * list string)) :=
  (fun s => map (fun r => (req_indices r, req_stocks r)) (inflight s)) <$> o.

Definition afterSixth : Client :=
  default init (run (burst ++ sixthRow) init).

End SchedulerSamples.

(** * Further vocabulary *)

(** Every composition the cache holds has at least one constituent. *)
Definition CachePopulated (st : Server) : Prop :=
  forall k e, portfolioCache st !! k = Some e -> holdings (ce_data e) ≠ [].

(** The same server with the cache binding of one identifier removed. *)
Definition withoutEntry (isin0 : string) (st : Server) : Server :=
  withPortfolioCache (delete isin0 (portfolioCache st)) st.

(** No two readings of the clock are further apart than the ratio-cache
    TTL: nothing written during the run expires during the run. *)
Definition steadyClock (w : World) : Prop :=
  forall i j, (clock w j - clock w i <= PE_CACHE_TTL)%Z.

(** No entry of the ratio cache expires at any reading of the clock. *)
Definition PeFresh (w : World) (st : Server) : Prop :=
  forall k e, peCache st !! k = Some e ->
    forall i, (clock w i - pce_timestamp e <= PE_CACHE_TTL)%Z.

(** Two names the ratio cache does not tell apart, and a provider that
    knows nothing. *)
Definition acmeData : PEData :=
  {| pe_pe := Some (22 # 1); pe_marketCap := Some "1200 Cr";
     pe_symbol := Some "ACME" |}.

(** The first value of a list that JavaScript counts as true, if any. *)
Definition firstTruthyNum (l : list (option Q)) : option (option Q) :=
  List.find Js.truthy_num l.

Definition firstTruthyStr (l : list (option string)) : option (option string) :=
  List.find Js.truthy_str l.

(** A list of records in which no record has a larger portfolio-wide
    weight than a record before it. *)
Fixpoint descending (l : list AggregatedHolding) : Prop :=
  match l with
  | [] => True
  | a :: l' =>
      Forall (fun b => (a_totalPercentage b <= a_totalPercentage a)%Q) l' /\
      descending l'
  end.

(** A request whose holdings are all priced at zero. *)
Definition worthlessRequest : list MFInput :=
  [folio "INF00A" "Fund A" 0 (1000 # 1); folio "INF00B" "Fund B" 0 (3000 # 1)].



(** ** The scheduler's bookkeeping *)

Module SchedulerVocabulary.

Import Scheduler.

(** The rows some outstanding call is about. *)
Definition outstanding (s : Client) : gset nat :=
  ⋃ map (fun r => list_to_set (req_indices r)) (inflight s).

(** What the loading state and the abort handle keep track of. *)
Definition Tracked (s : Client) : Prop :=
  loadingIndices s = outstanding s /\
  (mounted s = true -> abortController s = req_id <$> head (inflight s)).

(** The debounce handle refers to a timer that is armed. *)
Definition DebounceArmed (s : Client) : Prop :=
  exists id, batchTimeout s = Some id /\ id ∈ map fst (timers s).

Definition isVisible (e : Event) : bool :=
  match e with Visible _ _ => true | _ => false end.

(** An event that neither resets the tracking sets nor reports a network
    failure. *)
Definition keepsFetched (e : Event) : bool :=
  match e with
  | EnablePE => false
  | Settles _ FetchFailed => false
  | _ => true
  end.


End SchedulerVocabulary.

Module SchedulerCases.

Import Scheduler SchedulerSamples.

(** The modal once the composition has arrived and enrichment is on. *)
Definition enabled : Client :=
  default init (run [FundLoaded sixRows false; EnablePE] init).

Definition fiveRows : list Event :=
  [Visible 0 rendered; Visible 1 rendered; Visible 2 rendered;
   Visible 3 rendered; Visible 4 rendered].

(** Five rows are queued and the debounce timer has not fired yet. *)
Definition queued : Client := default init (run fiveRows enabled).

(** The call that goes out for them, and a response to it. *)
Definition firstCall : Request :=
  {| req_id := 5; req_indices := [0; 1; 2; 3; 4]%nat;
     req_stocks := ["Acme Ltd"; "Beta Ltd"; "Gamma Ltd"; "Delta Ltd";
                    "Epsilon Ltd"];
     req_snap := rendered; req_aborted := false |}.


End SchedulerCases.

(** ** Search queries ([utils.ts]) *)

Module Query.

(** The characters of a string, last first, and back. *)
Definition backwards (s : string) : list ascii := rev (list_ascii_of_string s).

Definition forwards (l : list ascii) : string := string_of_list_ascii (rev l).

(** [word], in either case, at the head of [l]; [word] is in lower case. *)
Fixpoint dropWord (word l : list ascii) : option (list ascii) :=
  match word with
  | [] => Some l
  | w :: word' =>
      match l with
      | c :: l' =>
          if Ascii.eqb (Js.lower_ascii c) w then dropWord word' l' else None
      | [] => None
      end
  end.

(** One alternative of a pattern [/\s+word$/i], on a string read last
    first: the word ends the string and follows white space; the match
    begins where that run of white space begins, and is replaced by
    nothing. *)
Definition cutTail (word : string) (l : list ascii) : option (list ascii) :=
  match dropWord (backwards word) l with
  | Some (c :: rest) =>
      if Js.is_space c then Some (Js.trimStart_list rest) else None
  | _ => None
  end.

(** [s.replace(/\s+word\.?$/i, '')] is [replaceTail [word.; word]] and
    [s.replace(/\s+word$/i, '')] is [replaceTail [word]]: the first
    alternative that matches is cut, and a string without a match is
    returned as it is. *)
Fixpoint replaceTail (words : list string) (l : list ascii) : list ascii :=
  match words with
  | [] => l
  | word :: more =>
      match cutTail word l with
      | Some l' => l'
      | None => replaceTail more l
      end
  end.

End Query.

(** [cleanCompanyName]. *)
Definition cleanCompanyName (name : string) : string :=
  Js.trim
    (Query.forwards
       (Query.replaceTail ["pvt."; "pvt"]
          (Query.replaceTail ["private"]
             (Query.replaceTail ["limited"]
                (Query.replaceTail ["ltd."; "ltd"] (Query.backwards name)))))).

(** The endings [cleanCompanyName] looks for. *)
Definition companySuffixes : list string :=
  ["ltd"; "ltd."; "limited"; "private"; "pvt"; "pvt."].

(** ** Fund classification ([utils.ts]) *)

Inductive FundType := Debt | Equity | Hybrid.

Definition debtFundWords : list string :=
  ["debt"; "bond"; "liquid"; "credit"; "gilt"; "overnight"; "money market";
   "short term"; "duration"].

Definition hybridFundWords : list string :=
  ["hybrid"; "balanced"; "advantage"; "arbitrage"].

(** [getFundType]; each chain of [lowerName.includes(..) || ..] is an
    [existsb] over its words. *)
Definition getFundType (fundName : string) : FundType :=
  let lowerName := Js.toLowerCase fundName in
  if existsb (fun word => Js.includes lowerName word) debtFundWords then Debt
  else if existsb (fun word => Js.includes lowerName word) hybridFundWords
       then Hybrid
       else Equity.

(** * The claims of the specification that fail as worded *)

(** The claim as the specification words it: after a resolution in which
    every adapter failed, the cache binding of the identifier is what it
    was before the call. *)
Definition negative_result_leaves_entry (w : World) (st : Server)
    (isin0 fundName0 : string) : Prop :=
  misses w isin0 st ->
  Forall (fun a => succeeds w isin0 fundName0 a = false) SCRAPER_ORDER ->
  let out := fetchFundPortfolio w isin0 fundName0 st in
  portfolioCache out.2 !! isin0 = portfolioCache st !! isin0.

(** The claim as the specification words it: where the winning adapter and
    the registry both supply a field, the composition carries the adapter's
    value. *)
Definition overlay_prefers_provider (w : World) (st : Server)
    (isin0 fundName0 : string) : Prop :=
  forall pre s post p m,
    misses w isin0 st ->
    SCRAPER_ORDER = pre ++ s :: post ->
    Forall (fun a => succeeds w isin0 fundName0 a = false) pre ->
    scrape_value w s isin0 fundName0 = Some p ->
    mfapi_reply w isin0 = Some m ->
    let out := fetchFundPortfolio w isin0 fundName0 st in
    (Js.truthy_str (mf_fundName m) = true -> fundName p ≠ "" ->
     fundName out.1 = fundName p) /\
    (Js.truthy_str (mf_category m) = true -> Js.truthy_str (category p) = true ->
     category out.1 = category p) /\
    (Js.truthy_num (mf_nav m) = true -> Js.truthy_num (nav p) = true ->
     nav out.1 = nav p) /\
    (Js.truthy_str (mf_fundHouse m) = true -> Js.truthy_str (fundHouse p) = true ->
     fundHouse out.1 = fundHouse p).

(** The claim as the specification words it: the returned weights of one
    holding's constituents add up to the holding's own weight. *)
Definition weights_add_up_to_holding_weight (w : World) (st : Server)
    (tok : option string) (mfHoldings : list MFInput) : Prop :=
  forall rs1 mf p rs2,
    let funds := OMap.values (consolidate mfHoldings).1 in
    let total := (consolidate mfHoldings).2 in
    (resolveAll w funds st).1 = rs1 ++ (mf, p) :: rs2 ->
    NoDup (map holdingKey (holdings p)) ->
    (forall r h h', r ∈ rs1 ++ rs2 -> h' ∈ holdings r.2 -> h ∈ holdings p ->
       holdingKey h' ≠ holdingKey h) ->
    exists body,
      (topHoldingsPOST w tok (Some mfHoldings) st).1 = TopOk body /\
      (sumQ (map (fun h => returnedWeight (holdingKey h) (t_holdings body))
               (holdings p)) == fundWeightOf total mf)%Q.

(** * Properties *)

(** ** State bookkeeping *)

Lemma logged_nil st : logged [] st = st.
Proof. destruct st; unfold logged; simpl. by rewrite app_nil_r. Qed.

Lemma logged_logged a b st : logged b (logged a st) = logged (a ++ b) st.
Proof. unfold logged; simpl. by rewrite app_assoc. Qed.

Lemma bind_run {A B} (m : M A) (k : A -> M B) st :
  bind m k st = k (m st).1 (m st).2.
Proof. unfold bind. by destruct (m st). Qed.

Lemma mapM_cons_run {A B} (f : A -> M B) a l st :
  mapM f (a :: l) st =
    ((f a st).1 :: (mapM f l (f a st).2).1, (mapM f l (f a st).2).2).
Proof. cbn [mapM]. rewrite !bind_run. reflexivity. Qed.

Lemma filter_none {A} (P : A -> Prop) `{!forall x, Decision (P x)} (l : list A) :
  (forall x, x ∈ l -> ~ P x) -> filter P l = [].
Proof.
  induction l as [|a l IH]; intros Hall; [done|].
  rewrite filter_cons_False by (apply Hall; by left).
  apply IH. intros x Hx. apply Hall. by right.
Qed.

(** ** Timed cache *)

Section CacheFacts.

Context (w : World).

Lemma getCachedPortfolio_absent isin0 st :
  portfolioCache st !! isin0 = None ->
  getCachedPortfolio w isin0 st = (None, st).
Proof.
  intros H. unfold getCachedPortfolio, getPortfolioCache, bind, ret.
  by rewrite H.
Qed.

Lemma getCachedPortfolio_fresh isin0 st e :
  portfolioCache st !! isin0 = Some e ->
  (clock w (ticks st) - ce_timestamp e <= CACHE_TTL)%Z ->
  getCachedPortfolio w isin0 st = (Some (ce_data e), tick st).
Proof.
  intros H Hle. unfold getCachedPortfolio, getPortfolioCache, bind, ret, dateNow.
  rewrite H. destruct (Z.gtb_spec (clock w (ticks st) - ce_timestamp e) CACHE_TTL);
    [lia | done].
Qed.

Lemma getCachedPortfolio_expired isin0 st e :
  portfolioCache st !! isin0 = Some e ->
  (clock w (ticks st) - ce_timestamp e > CACHE_TTL)%Z ->
  getCachedPortfolio w isin0 st =
    (None, withPortfolioCache (delete isin0 (portfolioCache st)) (tick st)).
Proof.
  intros H Hgt. unfold getCachedPortfolio, getPortfolioCache, bind, ret, dateNow,
    setPortfolioCache.
  rewrite H. destruct (Z.gtb_spec (clock w (ticks st) - ce_timestamp e) CACHE_TTL);
    [done | lia].
Qed.

(** A lookup never writes: it leaves the cache alone or evicts the key. *)
Lemma getCachedPortfolio_state isin0 st :
  let st' := (getCachedPortfolio w isin0 st).2 in
  trace st' = trace st /\ peCache st' = peCache st /\
  (portfolioCache st' = portfolioCache st \/
   (portfolioCache st' = delete isin0 (portfolioCache st) /\
    (getCachedPortfolio w isin0 st).1 = None)).
Proof.
  destruct (portfolioCache st !! isin0) as [e|] eqn:H.
  - destruct (Z_le_gt_dec (clock w (ticks st) - ce_timestamp e) CACHE_TTL).
    + rewrite (getCachedPortfolio_fresh _ _ _ H) by done. simpl. auto.
    + rewrite (getCachedPortfolio_expired _ _ _ H) by lia. simpl. auto.
  - rewrite (getCachedPortfolio_absent _ _ H). simpl. auto.
Qed.

Lemma cachePortfolio_run isin0 p st :
  cachePortfolio w isin0 p st =
    (tt, withPortfolioCache
           (<[isin0 := {| ce_data := p; ce_timestamp := clock w (ticks st) |}]>
              (portfolioCache st)) (tick st)).
Proof. reflexivity. Qed.

End CacheFacts.

(** ** Resolver *)

Section ResolverFacts.

Context (w : World).

Lemma scrape_run s isin0 fundName0 st :
  scrape w s isin0 fundName0 st =
    (Returned (scrape_value w s isin0 fundName0),
     logged [CallAdapter s isin0 fundName0] st).
Proof.
  unfold scrape, scrape_value, bind, emit, ret. simpl.
  destruct (provider_reply w s isin0 fundName0); [|done].
  by destruct (0 <? _)%nat.
Qed.

(** A scraper never returns an empty composition. *)
Lemma scrape_value_populated s isin0 fundName0 p :
  scrape_value w s isin0 fundName0 = Some p ->
  succeeds w isin0 fundName0 s = true.
Proof.
  intros H. unfold succeeds. rewrite H.
  unfold scrape_value in H.
  destruct (provider_reply w s isin0 fundName0); [|done].
  destruct (0 <? _)%nat eqn:E; [|done].
  by inversion H; subst.
Qed.

Lemma scrape_value_source s isin0 fundName0 p :
  scrape_value w s isin0 fundName0 = Some p ->
  source p = scraper_source s.
Proof.
  unfold scrape_value.
  destruct (provider_reply w s isin0 fundName0); [|done].
  destruct (0 <? _)%nat; [|done].
  by intros [= <-].
Qed.

(** The loop over a list of scrapers none of which succeeds. *)
Lemma tryScrapers_all_fail l isin0 fundName0 st :
  Forall (fun a => succeeds w isin0 fundName0 a = false) l ->
  tryScrapers (map (adapterOf w) l) isin0 fundName0 st =
    (None, logged (map (adapterCall isin0 fundName0) l) st).
Proof.
  intros H. revert st. induction H as [|a l Ha _ IH]; intros st; simpl.
  - by rewrite logged_nil.
  - rewrite bind_run, scrape_run. simpl.
    unfold succeeds in Ha.
    destruct (scrape_value w a isin0 fundName0) as [p|].
    + rewrite Ha, IH, logged_logged. done.
    + rewrite IH, logged_logged. done.
Qed.

(** The loop stops at the first scraper that succeeds. *)
Lemma tryScrapers_first_success pre s post isin0 fundName0 st :
  Forall (fun a => succeeds w isin0 fundName0 a = false) pre ->
  succeeds w isin0 fundName0 s = true ->
  tryScrapers (map (adapterOf w) (pre ++ s :: post)) isin0 fundName0 st =
    (scrape_value w s isin0 fundName0,
     logged (map (adapterCall isin0 fundName0) (pre ++ [s])) st).
Proof.
  intros H Hs. revert st. induction H as [|a l Ha _ IH]; intros st; simpl.
  - rewrite bind_run, scrape_run. simpl.
    unfold succeeds in Hs.
    destruct (scrape_value w s isin0 fundName0) as [p|]; [|done].
    by rewrite Hs.
  - rewrite bind_run, scrape_run. simpl.
    unfold succeeds in Ha.
    destruct (scrape_value w a isin0 fundName0) as [p|].
    + rewrite Ha, IH, logged_logged. done.
    + rewrite IH, logged_logged. done.
Qed.

(** The whole resolver on a miss, when some scraper succeeds. *)
Lemma fetchFundPortfolio_success pre s post p isin0 fundName0 st :
  misses w isin0 st ->
  SCRAPER_ORDER = pre ++ s :: post ->
  Forall (fun a => succeeds w isin0 fundName0 a = false) pre ->
  scrape_value w s isin0 fundName0 = Some p ->
  let st0 := (getCachedPortfolio w isin0 st).2 in
  let result := overlay (mfapi_reply w isin0) p fundName0 in
  fetchFundPortfolio w isin0 fundName0 st =
    (result,
     withPortfolioCache
       (<[isin0 := {| ce_data := result; ce_timestamp := clock w (ticks st0) |}]>
          (portfolioCache st0))
       (tick (logged (CallRegistry isin0 ::
                      map (adapterCall isin0 fundName0) (pre ++ [s])) st0))).
Proof.
  intros Hmiss Hord Hpre Hs. simpl.
  pose proof (scrape_value_populated _ _ _ _ Hs) as Hsucc.
  unfold fetchFundPortfolio. rewrite bind_run.
  unfold misses in Hmiss. rewrite Hmiss.
  set (st0 := (getCachedPortfolio w isin0 st).2).
  rewrite bind_run.
  change (fetchFromMFAPI w isin0 st0)
    with (mfapi_reply w isin0, logged [CallRegistry isin0] st0).
  cbn [fst snd]. rewrite bind_run.
  change (SCRAPERS w) with (map (adapterOf w) SCRAPER_ORDER). rewrite Hord.
  rewrite (tryScrapers_first_success pre s post) by done.
  cbn [fst snd]. rewrite Hs.
  unfold succeeds in Hsucc. rewrite Hs in Hsucc. rewrite Hsucc.
  rewrite bind_run, cachePortfolio_run, logged_logged. reflexivity.
Qed.

(** The whole resolver on a miss, when no scraper succeeds. *)
Lemma fetchFundPortfolio_failure isin0 fundName0 st :
  misses w isin0 st ->
  Forall (fun a => succeeds w isin0 fundName0 a = false) SCRAPER_ORDER ->
  let st0 := (getCachedPortfolio w isin0 st).2 in
  fetchFundPortfolio w isin0 fundName0 st =
    (noData w (mfapi_reply w isin0) isin0 fundName0,
     logged (CallRegistry isin0 ::
             map (adapterCall isin0 fundName0) SCRAPER_ORDER) st0).
Proof.
  intros Hmiss Hall. simpl.
  unfold fetchFundPortfolio. rewrite bind_run.
  unfold misses in Hmiss. rewrite Hmiss.
  set (st0 := (getCachedPortfolio w isin0 st).2).
  rewrite bind_run.
  change (fetchFromMFAPI w isin0 st0)
    with (mfapi_reply w isin0, logged [CallRegistry isin0] st0).
  cbn [fst snd]. rewrite bind_run.
  change (SCRAPERS w) with (map (adapterOf w) SCRAPER_ORDER).
  rewrite tryScrapers_all_fail by done.
  cbn [fst snd]. rewrite logged_logged. reflexivity.
Qed.

(** The resolver on a hit. *)
Lemma fetchFundPortfolio_hit isin0 fundName0 st p :
  (getCachedPortfolio w isin0 st).1 = Some p ->
  fetchFundPortfolio w isin0 fundName0 st =
    (p, (getCachedPortfolio w isin0 st).2).
Proof.
  intros H. unfold fetchFundPortfolio. rewrite bind_run, H. done.
Qed.

End ResolverFacts.

(** ** C1: first success wins *)

Lemma SCRAPER_ORDER_NoDup : NoDup SCRAPER_ORDER.
Proof. by apply (bool_decide_unpack _). Qed.

(** C1.  On a cache miss the resolver calls the registry and then the
    adapters in the declared order; if [s] is the first adapter whose result
    has at least one constituent then the composition returned carries the
    source label of [s], the adapters called are exactly those up to and
    including [s], in order, and no adapter placed after [s] is called. *)
Theorem resolver_first_success_wins (w : World) (st : Server)
    (isin0 fundName0 : string) (pre post : list Scraper) (s : Scraper) :
  misses w isin0 st ->
  SCRAPER_ORDER = pre ++ s :: post ->
  Forall (fun a => succeeds w isin0 fundName0 a = false) pre ->
  succeeds w isin0 fundName0 s = true ->
  let out := fetchFundPortfolio w isin0 fundName0 st in
  let new := CallRegistry isin0 :: map (adapterCall isin0 fundName0) (pre ++ [s]) in
  source out.1 = scraper_source s /\
  (0 < List.length (holdings out.1))%nat /\
  trace out.2 = trace st ++ new /\
  (forall a i n, a ∈ post -> CallAdapter a i n ∉ new).
Proof.
  intros Hmiss Hord Hpre Hs out new.
  assert (exists p, scrape_value w s isin0 fundName0 = Some p) as [p Hp].
  { unfold succeeds in Hs. destruct (scrape_value w s isin0 fundName0); eauto.
    discriminate. }
  subst out. rewrite (fetchFundPortfolio_success w pre s post p) by done.
  cbn [fst snd overlay source holdings withPortfolioCache tick logged trace].
  split; [by apply scrape_value_source in Hp|].
  split.
  { unfold succeeds in Hs. rewrite Hp in Hs. by apply Nat.ltb_lt in Hs. }
  split.
  { destruct (getCachedPortfolio_state w isin0 st) as [-> _]. done. }
  intros a i n Ha Hin.
  pose proof SCRAPER_ORDER_NoDup as Hnd. rewrite Hord in Hnd.
  apply NoDup_app in Hnd as (_ & Hdisj & Hnd2).
  apply NoDup_cons in Hnd2 as [Hs_post _].
  subst new. apply elem_of_cons in Hin as [Hin|Hin]; [done|].
  apply list_elem_of_fmap in Hin as (b & Hb & Hin).
  unfold adapterCall in Hb. injection Hb as -> _ _.
  apply elem_of_app in Hin as [Hin|Hin].
  - apply (Hdisj b Hin). by right.
  - apply list_elem_of_singleton in Hin as ->. done.
Qed.

Lemma resolver_first_success_wins_witness :
  let out := fetchFundPortfolio tickertapeOnly "INF001" "Axis Bluechip" coldServer in
  source out.1 = "Tickertape" /\
  (0 < List.length (holdings out.1))%nat /\
  trace out.2 =
    [CallRegistry "INF001";
     CallAdapter Groww "INF001" "Axis Bluechip";
     CallAdapter Tickertape "INF001" "Axis Bluechip"] /\
  (forall a i n, a ∈ [Moneycontrol; ValueResearch; ETMoney] ->
     CallAdapter a i n ∉
       [CallRegistry "INF001";
        CallAdapter Groww "INF001" "Axis Bluechip";
        CallAdapter Tickertape "INF001" "Axis Bluechip"]).
Proof.
  apply (resolver_first_success_wins tickertapeOnly coldServer "INF001"
           "Axis Bluechip" [Groww] [Moneycontrol; ValueResearch; ETMoney]
           Tickertape).
  - reflexivity.
  - reflexivity.
  - repeat constructor.
  - reflexivity.
Defined.

(** ** C2: the negative result *)

(** With an expired entry in the cache the failed call evicts it: the
    binding before the call is the stale entry, the binding after it is
    none. *)
Lemma negative_result_evicts_stale_entry :
  ~ negative_result_leaves_entry lateWorld staleServer "INF001" "Old".
Proof.
  unfold negative_result_leaves_entry. intros H.
  assert (misses lateWorld "INF001" staleServer) as Hm by reflexivity.
  assert (Forall (fun a => succeeds lateWorld "INF001" "Old" a = false)
            SCRAPER_ORDER) as Hf by (repeat constructor).
  specialize (H Hm Hf). vm_compute in H. discriminate.
Qed.

(** C2 (amended).  When the lookup misses and every adapter fails or
    returns no constituent, the resolver returns the empty composition with
    the fixed error text and the sentinel source label, calls every adapter
    once, and writes nothing to the cache: the cache is the one the initial
    lookup left, it has no binding for the identifier, every other binding
    is untouched, and it is the cache before the call whenever that cache
    had no binding for the identifier. *)
Theorem resolver_all_fail_returns_empty (w : World) (st : Server)
    (isin0 fundName0 : string) :
  misses w isin0 st ->
  Forall (fun a => succeeds w isin0 fundName0 a = false) SCRAPER_ORDER ->
  let out := fetchFundPortfolio w isin0 fundName0 st in
  holdings out.1 = [] /\
  sectorAllocation out.1 = [] /\
  assetAllocation out.1 = [] /\
  error out.1 = Some NO_DATA_ERROR /\
  source out.1 = NO_DATA_SOURCE /\
  portfolioCache out.2 = portfolioCache (getCachedPortfolio w isin0 st).2 /\
  portfolioCache out.2 !! isin0 = None /\
  (forall k, k ≠ isin0 -> portfolioCache out.2 !! k = portfolioCache st !! k) /\
  (portfolioCache st !! isin0 = None -> portfolioCache out.2 = portfolioCache st).
Proof.
  intros Hmiss Hall out. subst out.
  rewrite (fetchFundPortfolio_failure w) by done.
  cbn [fst snd noData holdings sectorAllocation assetAllocation error source
       logged portfolioCache].
  repeat (split; [reflexivity|]).
  unfold misses in Hmiss.
  destruct (portfolioCache st !! isin0) as [e|] eqn:He.
  - destruct (Z_le_gt_dec (clock w (ticks st) - ce_timestamp e) CACHE_TTL) as [Hle|Hgt].
    + rewrite (getCachedPortfolio_fresh w _ _ _ He Hle) in Hmiss. discriminate.
    + rewrite (getCachedPortfolio_expired w _ _ _ He) by lia. simpl.
      split; [apply lookup_delete_eq|].
      split; [|done].
      intros k Hk. by rewrite lookup_delete_ne.
  - rewrite (getCachedPortfolio_absent w _ _ He). simpl. done.
Qed.

Lemma resolver_all_fail_returns_empty_witness :
  let out := fetchFundPortfolio lateWorld "INF001" "Old" staleServer in
  holdings out.1 = [] /\
  sectorAllocation out.1 = [] /\
  assetAllocation out.1 = [] /\
  error out.1 = Some NO_DATA_ERROR /\
  source out.1 = NO_DATA_SOURCE /\
  portfolioCache out.2 = portfolioCache (getCachedPortfolio lateWorld "INF001" staleServer).2 /\
  portfolioCache out.2 !! "INF001" = None /\
  (forall k, k ≠ "INF001" -> portfolioCache out.2 !! k = portfolioCache staleServer !! k) /\
  (portfolioCache staleServer !! "INF001" = None ->
   portfolioCache out.2 = portfolioCache staleServer).
Proof.
  apply (resolver_all_fail_returns_empty lateWorld staleServer "INF001" "Old").
  - reflexivity.
  - repeat constructor.
Defined.

(** ** C3: the timed cache and the second resolution *)

Section SecondResolution.

Context (w : World).

(** What the cache does with an entry written at time [t]. *)
Lemma cache_entry_semantics st isin0 p t :
  portfolioCache st !! isin0 = Some {| ce_data := p; ce_timestamp := t |} ->
  let elapsed := (clock w (ticks st) - t)%Z in
  let got := getCachedPortfolio w isin0 st in
  ((elapsed <= CACHE_TTL)%Z -> got = (Some p, tick st)) /\
  ((elapsed > CACHE_TTL)%Z ->
   got = (None, withPortfolioCache (delete isin0 (portfolioCache st)) (tick st))).
Proof.
  intros H elapsed got. split; intros Ht.
  - subst got. by rewrite (getCachedPortfolio_fresh w _ _ _ H).
  - subst got. by rewrite (getCachedPortfolio_expired w _ _ _ H).
Qed.

End SecondResolution.

(** C3.  An entry put at time [t] is returned by a later get exactly when
    the time elapsed since the put is at most the 24-hour TTL; a get on an
    expired entry returns nothing, as a get on a missing key does, and
    deletes the entry; and inside the TTL a resolution of that identifier
    returns the cached composition as it is, makes no call to the registry
    or to any adapter, and leaves the cache as it was. *)
Theorem timed_cache_ttl (w : World) (st : Server) (isin0 fundName0 : string)
    (p : FundPortfolio) (t : Z) :
  portfolioCache st !! isin0 = Some {| ce_data := p; ce_timestamp := t |} ->
  let elapsed := (clock w (ticks st) - t)%Z in
  let got := getCachedPortfolio w isin0 st in
  let out := fetchFundPortfolio w isin0 fundName0 st in
  CACHE_TTL = (24 * 60 * 60 * 1000)%Z /\
  (forall st' q,
     portfolioCache (cachePortfolio w isin0 q st').2 !! isin0 =
       Some {| ce_data := q; ce_timestamp := clock w (ticks st') |}) /\
  (got.1 = Some p <-> (elapsed <= CACHE_TTL)%Z) /\
  ((elapsed > CACHE_TTL)%Z ->
     got.1 = None /\
     portfolioCache got.2 = delete isin0 (portfolioCache st) /\
     portfolioCache got.2 !! isin0 = None /\
     getCachedPortfolio w isin0 got.2 = (None, got.2)) /\
  ((elapsed <= CACHE_TTL)%Z ->
     out.1 = p /\
     trace out.2 = trace st /\
     portfolioCache out.2 = portfolioCache st) /\
  (forall st0 pre s post,
     misses w isin0 st0 ->
     SCRAPER_ORDER = pre ++ s :: post ->
     Forall (fun a => succeeds w isin0 fundName0 a = false) pre ->
     succeeds w isin0 fundName0 s = true ->
     let first := fetchFundPortfolio w isin0 fundName0 st0 in
     let second := fetchFundPortfolio w isin0 fundName0 first.2 in
     let put_time := clock w (ticks (getCachedPortfolio w isin0 st0).2) in
     (clock w (ticks first.2) - put_time <= CACHE_TTL)%Z ->
     second.1 = first.1 /\
     trace second.2 = trace first.2 /\
     portfolioCache second.2 = portfolioCache first.2).
Proof.
  intros H elapsed got out.
  destruct (cache_entry_semantics w st isin0 p t H) as [Hfresh Hexp].
  split; [reflexivity|].
  split.
  { intros st' q. rewrite cachePortfolio_run. simpl. apply lookup_insert_eq. }
  split.
  { split.
    - intros Hg. destruct (Z_le_gt_dec elapsed CACHE_TTL) as [|Hgt]; [done|].
      subst got. rewrite (Hexp Hgt) in Hg. discriminate.
    - intros Hle. subst got. by rewrite (Hfresh Hle). }
  split.
  { intros Hgt. subst got. rewrite (Hexp Hgt). simpl.
    repeat split; [apply lookup_delete_eq|].
    apply getCachedPortfolio_absent. simpl. apply lookup_delete_eq. }
  split.
  - intros Hle. subst out.
    rewrite (fetchFundPortfolio_hit w isin0 fundName0 st p)
      by (by rewrite (Hfresh Hle)).
    rewrite (Hfresh Hle). done.
  - intros st0 pre s post Hmiss Hord Hpre Hs first second put_time Hle.
    assert (exists r, scrape_value w s isin0 fundName0 = Some r) as [r Hr].
    { unfold succeeds in Hs. destruct (scrape_value w s isin0 fundName0); eauto.
      discriminate. }
    pose proof (fetchFundPortfolio_success w pre s post r isin0 fundName0 st0
                  Hmiss Hord Hpre Hr) as Hfirst.
    cbv zeta in Hfirst. subst second first. rewrite Hfirst in Hle |- *.
    cbn [fst snd] in Hle |- *.
    match goal with
    | |- context [fetchFundPortfolio w isin0 fundName0 ?s1] => set (st1 := s1) in *
    end.
    assert (getCachedPortfolio w isin0 st1 =
              (Some (overlay (mfapi_reply w isin0) r fundName0), tick st1)) as Hget.
    { eapply (getCachedPortfolio_fresh w isin0 st1
                {| ce_data := _; ce_timestamp := _ |}).
      - subst st1. simpl. apply lookup_insert_eq.
      - exact Hle. }
    rewrite (fetchFundPortfolio_hit w isin0 fundName0 st1 _ (f_equal fst Hget)).
    rewrite Hget. done.
Qed.

Lemma timed_cache_ttl_witness :
  portfolioCache staleServer !! "INF001" =
    Some {| ce_data := staleEntry; ce_timestamp := 0 |} /\
  (getCachedPortfolio quietWorld "INF001" staleServer).1 = Some staleEntry /\
  (fetchFundPortfolio quietWorld "INF001" "Old" staleServer).1 = staleEntry /\
  trace (fetchFundPortfolio quietWorld "INF001" "Old" staleServer).2 = [].
Proof.
  pose proof (timed_cache_ttl quietWorld staleServer "INF001" "Old" staleEntry 0
                eq_refl) as (_ & _ & Hiff & _ & Hhit & _).
  assert (clock quietWorld (ticks staleServer) - 0 <= CACHE_TTL)%Z as Hle
    by (vm_compute; discriminate).
  split; [reflexivity|].
  split; [exact (proj2 Hiff Hle)|].
  destruct (Hhit Hle) as (H1 & H2 & _). split; [exact H1 | exact H2].
Defined.

(** ** C4: the overlay of registry metadata *)

(** Registry and first adapter disagree on the name of the fund; the
    composition carries the registry's. *)
Lemma overlay_prefers_registry_counterexample :
  ~ overlay_prefers_provider registryAndGroww coldServer "INF001" "Axis".
Proof.
  intros H.
  destruct (H [] Groww [Tickertape; Moneycontrol; ValueResearch; ETMoney]
              _ _ eq_refl eq_refl (Forall_nil_2 _) eq_refl eq_refl)
    as (Hname & _).
  specialize (Hname eq_refl). vm_compute in Hname.
  specialize (Hname ltac:(discriminate)). discriminate.
Qed.

(** C4 (amended).  In the overlay the registry comes first: fund name,
    category and NAV carry the registry's value whenever the registry
    supplies one, and the winning adapter's value only when the registry
    left the field unset; the fund house carries the registry's value
    whenever the registry answered. *)
Theorem overlay_prefers_registry (w : World) (st : Server)
    (isin0 fundName0 : string) (pre post : list Scraper) (s : Scraper)
    (p : FundPortfolio) :
  misses w isin0 st ->
  SCRAPER_ORDER = pre ++ s :: post ->
  Forall (fun a => succeeds w isin0 fundName0 a = false) pre ->
  scrape_value w s isin0 fundName0 = Some p ->
  let out := fetchFundPortfolio w isin0 fundName0 st in
  let reg := mfapi_reply w isin0 in
  (Js.truthy_str (mf_field mf_fundName reg) = true ->
   Some (fundName out.1) = mf_field mf_fundName reg) /\
  (Js.truthy_str (mf_field mf_fundName reg) = false ->
   fundName out.1 = Js.or_else (Some (fundName p)) fundName0) /\
  (Js.truthy_str (mf_field mf_category reg) = true ->
   category out.1 = mf_field mf_category reg) /\
  (Js.truthy_str (mf_field mf_category reg) = false ->
   category out.1 = category p) /\
  (Js.truthy_num (mf_field mf_nav reg) = true ->
   nav out.1 = mf_field mf_nav reg) /\
  (Js.truthy_num (mf_field mf_nav reg) = false ->
   nav out.1 = nav p) /\
  (forall m, reg = Some m -> fundHouse out.1 = mf_fundHouse m) /\
  holdings out.1 = holdings p /\
  source out.1 = source p.
Proof.
  intros Hmiss Hord Hpre Hp out reg. subst out.
  rewrite (fetchFundPortfolio_success w pre s post p) by done.
  cbn [fst overlay fundName category nav fundHouse holdings source].
  fold reg.
  repeat split.
  - unfold Js.truthy_str, Js.or_else.
    destruct (mf_field mf_fundName reg) as [n|]; [|discriminate].
    destruct (String.eqb n ""); [discriminate|done].
  - unfold Js.truthy_str. intros H.
    destruct (mf_field mf_fundName reg) as [n|]; [|done].
    simpl. destruct (String.eqb n ""); [done|discriminate].
  - unfold Js.or_str. by intros ->.
  - unfold Js.or_str. by intros ->.
  - unfold Js.or_num. by intros ->.
  - unfold Js.or_num. by intros ->.
  - by intros m ->.
Qed.

Lemma overlay_prefers_registry_witness :
  let out := fetchFundPortfolio registryAndGroww "INF001" "Axis" coldServer in
  fundName out.1 = "Axis Bluechip Fund - Direct Plan - Growth" /\
  category out.1 = Some "Equity Scheme - Large Cap Fund" /\
  nav out.1 = Some (46 # 1) /\
  fundHouse out.1 = Some "Axis Mutual Fund".
Proof.
  destruct (overlay_prefers_registry registryAndGroww coldServer "INF001" "Axis"
              [] [Tickertape; Moneycontrol; ValueResearch; ETMoney] Groww
              _ eq_refl eq_refl (Forall_nil_2 _) eq_refl)
    as (Hn & _ & Hc & _ & Hv & _ & Hh & _).
  cbv zeta. split; [|split; [|split]].
  - exact (inj Some _ _ (Hn eq_refl)).
  - exact (Hc eq_refl).
  - exact (Hv eq_refl).
  - exact (Hh _ eq_refl).
Defined.

(** ** C5: the ratio batch endpoint *)

Section BatchFacts.

Context (w : World).

Lemma fetchStockPE_run n st :
  fetchStockPE w n st = (lookupPE w n, logged (peCalls w n) st).
Proof.
  assert (fetchPEFromScreener w n st =
            (screener_reply w n, logged [CallScreener n] st)) as Hs
    by reflexivity.
  assert (forall st', searchNSESymbol w n st' =
            (nse_reply w n, logged [CallNSE n] st')) as Hn
    by reflexivity.
  unfold fetchStockPE, lookupPE, peCalls, primaryFound.
  rewrite bind_run, Hs. cbn [fst snd].
  destruct (Js.truthy_num _) eqn:E.
  - reflexivity.
  - rewrite bind_run, Hn. cbn [fst snd].
    destruct (Js.truthy_str (nse_reply w n));
      unfold ret; by rewrite logged_logged.
Qed.

(** A ratio-cache lookup logs nothing, never adds an entry, and a hit is
    an entry of the cache it was given. *)
Lemma getCachedPE_run n st :
  let out := getCachedPE w n st in
  trace out.2 = trace st /\
  peCache out.2 ⊆ peCache st /\
  (forall e, out.1 = Some e -> peCache st !! peKey n = Some e).
Proof.
  unfold getCachedPE. fold (peKey n). rewrite bind_run.
  cbn [getPeCache fst snd].
  destruct (peCache st !! peKey n) as [e|] eqn:He.
  - rewrite bind_run. cbn [dateNow fst snd].
    destruct (_ >? _)%Z.
    + rewrite bind_run. cbn [setPeCache ret fst snd withPeCache tick trace peCache].
      split; [done|]. split; [apply delete_subseteq|]. discriminate.
    + cbn [ret fst snd tick trace peCache]. split; [done|]. split; [done|].
      by intros e' [= ->].
  - cbn [ret fst snd]. split; [done|]. split; [done|]. discriminate.
Qed.

Lemma mapM_batchLookup names st :
  let out := mapM (batchLookup w) names st in
  map fst out.1 = names /\
  trace out.2 = trace st /\
  peCache out.2 ⊆ peCache st /\
  Forall (fun p => forall e, p.2 = Some e -> peCache st !! peKey p.1 = Some e) out.1.
Proof.
  assert (forall n st', batchLookup w n st' =
            ((n, (getCachedPE w n st').1), (getCachedPE w n st').2)) as Hrun.
  { intros n st'. unfold batchLookup. rewrite bind_run. reflexivity. }
  revert st. induction names as [|n names IH]; intros st.
  - cbn [mapM ret fst snd map]. auto.
  - rewrite mapM_cons_run, Hrun. cbn [fst snd].
    destruct (getCachedPE_run n st) as (Ht & Hsub & Hhit).
    set (st1 := (getCachedPE w n st).2) in *.
    destruct (IH st1) as (Hn & Ht' & Hsub' & Hall).
    cbn [map fst]. rewrite Hn, Ht', Ht.
    split; [done|]. split; [done|].
    split; [by etrans|].
    constructor; [exact Hhit|].
    eapply Forall_impl; [exact Hall|].
    intros p Hp e He. eapply lookup_weaken; [|exact Hsub]. by apply Hp.
Qed.

Lemma batchResolve_run p st :
  let out := batchResolve w p st in
  out.1 = resultOf w p /\ trace out.2 = trace st ++ callsOf w p.
Proof.
  destruct p as [n [e|]]; cbn [batchResolve].
  - cbn [ret fst snd resultOf callsOf]. by rewrite app_nil_r.
  - rewrite bind_run, fetchStockPE_run. cbn [fst snd]. rewrite bind_run.
    cbn [ret fst snd]. split; [done|].
    unfold cachePE. rewrite !bind_run. reflexivity.
Qed.

Lemma mapM_batchResolve lookups st :
  let out := mapM (batchResolve w) lookups st in
  out.1 = map (resultOf w) lookups /\
  trace out.2 = trace st ++ List.concat (map (callsOf w) lookups).
Proof.
  revert st. induction lookups as [|p lookups IH]; intros st.
  - cbn [mapM ret fst snd map List.concat]. by rewrite app_nil_r.
  - rewrite mapM_cons_run. destruct (batchResolve_run p st) as (Hr & Ht).
    cbn [fst snd].
    destruct (IH (batchResolve w p st).2) as (Hrs & Hts).
    rewrite Hr, Hrs, Hts, Ht. cbn [map List.concat]. by rewrite app_assoc.
Qed.

Lemma peCalls_for n c : c ∈ peCalls w n -> ratioCallFor n c.
Proof.
  unfold peCalls, ratioCallFor. intros H.
  apply elem_of_cons in H as [->|H]; [by left|].
  destruct (primaryFound w n); [by apply not_elem_of_nil in H|].
  apply list_elem_of_singleton in H as ->. by right.
Qed.

End BatchFacts.

(** C5.  A POST with a names array always answers with a results array (it
    never fails as a whole); only the first 10 names are processed: the
    results carry exactly those names, one entry each and in order, and
    every provider call made is about one of them; an entry either repeats
    a cache entry for that name or carries what the lookup found, so a name
    with no cache entry whose lookup found nothing has ratio,
    capitalization band and ticker all absent, and so has any name for
    which the cache lookup of the request came back empty (no entry, or one
    that had expired) and the lookup found nothing. *)
Theorem ratio_batch_capped (w : World) (st : Server) (names : list string) :
  let out := batchPOST w (Some names) st in
  exists rs new,
    out.1 = BatchResults rs /\
    map r_name rs = firstn 10 names /\
    List.length rs = Nat.min 10 (List.length names) /\
    trace out.2 = trace st ++ new /\
    (forall c, c ∈ new -> exists n, n ∈ firstn 10 names /\ ratioCallFor n c) /\
    (forall i r, rs !! i = Some r ->
       exists n, names !! i = Some n /\ (i < 10)%nat /\ r_name r = n /\
         ((r_pe r = pe_pe (lookupPE w n) /\
           r_marketCap r = pe_marketCap (lookupPE w n) /\
           r_symbol r = pe_symbol (lookupPE w n)) \/
          (exists e, peCache st !! peKey n = Some e /\
             r_pe r = pce_pe e /\ r_marketCap r = pce_marketCap e /\
             r_symbol r = pce_symbol e)) /\
         (peCache st !! peKey n = None -> lookupPE w n = emptyPE ->
          r_pe r = None /\ r_marketCap r = None /\ r_symbol r = None) /\
         ((mapM (batchLookup w) (firstn 10 names) st).1 !! i = Some (n, None) ->
          lookupPE w n = emptyPE ->
          r_pe r = None /\ r_marketCap r = None /\ r_symbol r = None)).
Proof.
  intros out. subst out. cbn [batchPOST]. unfold Js.slice0, BATCH_LIMIT.
  rewrite bind_run.
  destruct (mapM_batchLookup w (firstn 10 names) st) as (Hn & Ht & _ & Hall).
  set (lk := mapM (batchLookup w) (firstn 10 names) st) in *.
  rewrite bind_run.
  destruct (mapM_batchResolve w lk.1 lk.2) as (Hr & Htr).
  cbn [ret fst snd app].
  exists (map (resultOf w) lk.1), (List.concat (map (callsOf w) lk.1)).
  rewrite Hr, Htr, Ht.
  assert (map r_name (map (resultOf w) lk.1) = firstn 10 names) as Hnames.
  { rewrite map_map. etrans; [|exact Hn]. apply map_ext.
    intros [n [e|]]; reflexivity. }
  split; [done|]. split; [done|].
  split.
  { rewrite <- (length_map r_name), Hnames, length_firstn. done. }
  split; [done|].
  split.
  - intros c Hc. apply list_elem_of_In, in_concat in Hc as (l & Hl & Hc).
    apply in_map_iff in Hl as (p & <- & Hp).
    apply list_elem_of_In in Hp, Hc.
    exists p.1. split.
    + rewrite <- Hn. apply list_elem_of_fmap. eauto.
    + unfold callsOf in Hc. destruct p.2; [by apply not_elem_of_nil in Hc|].
      by apply peCalls_for in Hc.
  - intros i r Hi.
    apply list_lookup_fmap_Some in Hi as (p & -> & Hp).
    assert (firstn 10 names !! i = Some p.1) as Hi.
    { rewrite <- Hn. change (map fst lk.1) with (fst <$> lk.1).
      by rewrite list_lookup_fmap, Hp. }
    apply lookup_take_Some in Hi as [Hi Hlt].
    exists p.1. split; [done|]. split; [done|].
    rewrite Forall_forall in Hall.
    assert (p ∈ lk.1) as Hin by (by eapply list_elem_of_lookup_2).
    specialize (Hall p Hin).
    unfold resultOf. destruct p as [n [e|]]; cbn [fst snd] in *.
    + cbn [r_name r_pe r_marketCap r_symbol]. split; [done|].
      specialize (Hall e eq_refl).
      split; [right; eauto|].
      split.
      * intros Hnone. rewrite Hnone in Hall. discriminate.
      * intros Hmiss. fold lk in Hmiss. rewrite Hp in Hmiss. discriminate.
    + cbn [r_name r_pe r_marketCap r_symbol]. split; [done|].
      split; [left; done|].
      split; [intros _ ->; done|intros _ ->; done].
Qed.

(** ** C8: the fixed-income heuristic on the two enrichment paths *)

Section BulkEnrichment.

Context (w : World).

Lemma enrichOne_run h st :
  enrichOne w h st = (enrichPure w h, logged (enrichCalls w h) st).
Proof.
  unfold enrichOne, enrichPure, enrichCalls.
  destruct (isDebtInstrument (h_name h)).
  - unfold ret. by rewrite logged_nil.
  - rewrite bind_run, fetchStockPE_run. reflexivity.
Qed.

Lemma mapM_enrichOne hs st :
  mapM (enrichOne w) hs st =
    (map (enrichPure w) hs, logged (List.concat (map (enrichCalls w) hs)) st).
Proof.
  revert st. induction hs as [|h hs IH]; intros st.
  - cbn [mapM ret map List.concat]. by rewrite logged_nil.
  - rewrite mapM_cons_run, enrichOne_run. cbn [fst snd].
    rewrite IH. cbn [fst snd map List.concat]. by rewrite logged_logged.
Qed.

(** The chunked loop, given fuel for at least one chunk per holding, is a
    plain map over the holdings. *)
Lemma enrichLoop_run fuel rest acc st :
  (List.length rest <= fuel)%nat ->
  enrichLoop w fuel rest acc st =
    (acc ++ map (enrichPure w) rest,
     logged (List.concat (map (enrichCalls w) rest)) st).
Proof.
  revert rest acc st. induction fuel as [|fuel IH]; intros rest acc st Hlen.
  - destruct rest; [|simpl in Hlen; lia].
    cbn [enrichLoop ret map List.concat]. by rewrite app_nil_r, logged_nil.
  - destruct rest as [|h rest].
    { cbn [enrichLoop ret map List.concat]. by rewrite app_nil_r, logged_nil. }
    cbn [enrichLoop]. rewrite bind_run, mapM_enrichOne. cbn [fst snd].
    rewrite IH.
    + rewrite logged_logged, <- app_assoc, <- map_app, <- concat_app, <- map_app.
      by rewrite (firstn_skipn batchSize (h :: rest)).
    + rewrite length_skipn. simpl in *. unfold batchSize. lia.
Qed.

(** X8.  On the bulk path a holding whose name matches the heuristic comes
    back as it went in, at its own position, and no provider is asked about
    a name that matches the heuristic. *)
Lemma bulk_enrichment_skips_fixed_income hs st :
  let out := enrichHoldingsWithPE w hs st in
  List.length out.1 = List.length hs /\
  (forall i h, hs !! i = Some h -> isDebtInstrument (h_name h) = true ->
     out.1 !! i = Some h) /\
  exists new, trace out.2 = trace st ++ new /\
    forall c n, c ∈ new -> ratioCallFor n c -> isDebtInstrument n = false.
Proof.
  unfold enrichHoldingsWithPE. rewrite enrichLoop_run by done.
  cbn [fst snd app logged trace]. split; [by rewrite length_map|].
  split.
  - intros i h Hi Hd. change (map (enrichPure w) hs) with (enrichPure w <$> hs).
    rewrite list_lookup_fmap, Hi. simpl. unfold enrichPure. by rewrite Hd.
  - eexists; split; [reflexivity|].
    intros c n Hc Hn. apply list_elem_of_In, in_concat in Hc as (l & Hl & Hc).
    apply in_map_iff in Hl as (h & <- & _).
    unfold enrichCalls in Hc.
    destruct (isDebtInstrument (h_name h)) eqn:Hd; [done|].
    apply list_elem_of_In, peCalls_for in Hc.
    destruct Hn as [Hn|Hn]; destruct Hc as [Hc|Hc]; congruence.
Qed.

End BulkEnrichment.

(** C8.  The batch endpoint has no fixed-income guard: the name
    "7.26% GOI 2033" matches the heuristic, yet the endpoint asks the
    primary provider about it and returns the ratio the provider gave. *)
Theorem batch_endpoint_sends_fixed_income :
  let out := batchPOST eagerScreener (Some ["7.26% GOI 2033"]) coldServer in
  isDebtInstrument "7.26% GOI 2033" = true /\
  trace out.2 = [CallScreener "7.26% GOI 2033"] /\
  out.1 = BatchResults
            [{| r_name := "7.26% GOI 2033"; r_pe := Some (12 # 1);
                r_marketCap := Some "500 Cr"; r_symbol := Some "GOI" |}].
Proof. vm_compute. repeat split. Qed.

(** ** Insertion-ordered maps *)

Module OMapFacts.

Import OMap.

Section Facts.

Context {V : Type}.
Implicit Types (m : t V) (k : string) (v : V).

Lemma get_update k k' (f : V -> V) m :
  get k' (update k f m) =
    if String.eqb k' k then f <$> get k' m else get k' m.
Proof.
  induction m as [|[k0 v0] m IH]; simpl.
  - by destruct (String.eqb k' k).
  - destruct (String.eqb_spec k k0) as [->|Hk]; simpl.
    + destruct (String.eqb_spec k' k0) as [->|Hk']; simpl; [done|].
      done.
    + destruct (String.eqb_spec k' k0) as [->|Hk']; simpl.
      * destruct (String.eqb_spec k0 k); [congruence|done].
      * exact IH.
Qed.

Lemma get_set k k' v m :
  get k' (set k v m) = if String.eqb k' k then Some v else get k' m.
Proof.
  induction m as [|[k0 v0] m IH]; simpl.
  - done.
  - destruct (String.eqb_spec k k0) as [->|Hk]; simpl.
    + by destruct (String.eqb_spec k' k0).
    + destruct (String.eqb_spec k' k0) as [->|Hk']; simpl.
      * destruct (String.eqb_spec k0 k); [congruence|done].
      * exact IH.
Qed.

Lemma keys_update k (f : V -> V) m : keys (update k f m) = keys m.
Proof.
  induction m as [|[k0 v0] m IH]; simpl; [done|].
  destruct (String.eqb k k0); simpl; [done|]. by f_equal.
Qed.

Lemma get_None_keys k m : get k m = None <-> k ∉ keys m.
Proof.
  induction m as [|[k0 v0] m IH]; simpl.
  - split; [intros _; apply not_elem_of_nil|done].
  - rewrite not_elem_of_cons.
    destruct (String.eqb_spec k k0) as [->|Hk].
    + split; [done|]. intros [? _]. done.
    + rewrite IH. split; [by intros H; split|by intros [_ H]].
Qed.

Lemma keys_set_new k v m : get k m = None -> keys (set k v m) = keys m ++ [k].
Proof.
  induction m as [|[k0 v0] m IH]; simpl; [done|].
  destruct (String.eqb_spec k k0) as [->|Hk]; [done|].
  intros H. simpl. f_equal. by apply IH.
Qed.

(** With one binding per key, [get] finds exactly the bindings. *)
Lemma get_Some_elem k v m :
  NoDup (keys m) -> (get k m = Some v <-> (k, v) ∈ m).
Proof.
  induction m as [|[k0 v0] m IH]; simpl; intros Hnd.
  - split; [done|]. intros H. by apply not_elem_of_nil in H.
  - apply NoDup_cons in Hnd as [Hk0 Hnd]. rewrite elem_of_cons.
    destruct (String.eqb_spec k k0) as [->|Hk].
    + split.
      * intros [= ->]. by left.
      * intros [[= ->]|Hin]; [done|].
        exfalso. apply Hk0. unfold keys.
        apply list_elem_of_fmap. by exists (k0, v).
    + rewrite (IH Hnd). split; [by right|].
      intros [[= -> ->]|Hin]; [done|done].
Qed.

End Facts.

End OMapFacts.

(** ** Aggregation: sums and contribution entries *)

Section SumFacts.

Local Open Scope Q_scope.

Lemma sumQ_app l1 l2 : sumQ (l1 ++ l2) == sumQ l1 + sumQ l2.
Proof.
  induction l1 as [|x l1 IH]; simpl.
  - ring.
  - rewrite IH. ring.
Qed.

Lemma sumQ_snoc l x : sumQ (l ++ [x]) == sumQ l + x.
Proof. rewrite sumQ_app. simpl. ring. Qed.

Lemma sumQ_ext {A} (f g : A -> Q) l :
  (forall x, x ∈ l -> f x == g x) -> sumQ (map f l) == sumQ (map g l).
Proof.
  induction l as [|x l IH]; simpl; intros H; [reflexivity|].
  rewrite (H x) by (by left). rewrite IH; [reflexivity|].
  intros y Hy. apply H. by right.
Qed.

End SumFacts.

Section FundEntryFacts.

Local Open Scope Q_scope.

Lemma fundEntry_None n fs : fundEntry n fs = None <-> n ∉ map f_name fs.
Proof.
  unfold fundEntry. induction fs as [|f fs IH]; simpl.
  - split; [intros _; apply not_elem_of_nil|done].
  - rewrite not_elem_of_cons.
    destruct (String.eqb_spec (f_name f) n) as [<-|Hn].
    + split; [done|]. by intros [? _].
    + rewrite IH. split; [by intros H; split|by intros [_ H]].
Qed.

Lemma addFundEntry_names n p v fs :
  map f_name (addFundEntry n p v fs) =
    if decide (n ∈ map f_name fs) then map f_name fs else map f_name fs ++ [n].
Proof.
  induction fs as [|f fs IH]; cbn [addFundEntry map].
  - destruct (decide (n ∈ [])) as [H|_]; [by apply not_elem_of_nil in H|done].
  - destruct (String.eqb_spec (f_name f) n) as [<-|Hn]; cbn [map f_name].
    + destruct (decide (f_name f ∈ f_name f :: map f_name fs)) as [_|H];
        [done|]. exfalso. apply H. by left.
    + rewrite IH.
      destruct (decide (n ∈ map f_name fs)) as [Hin|Hin];
        destruct (decide (n ∈ f_name f :: map f_name fs)) as [Hin'|Hin'];
        try done.
      * exfalso. apply Hin'. by right.
      * apply elem_of_cons in Hin' as [->|Hin']; done.
Qed.

Lemma fundEntry_add n' n p v fs :
  fundEntry n' (addFundEntry n p v fs) =
    if String.eqb n' n then
      Some (match fundEntry n fs with
            | Some e => {| f_name := f_name e; f_percentage := f_percentage e + p;
                           f_value := f_value e + v |}
            | None => {| f_name := n; f_percentage := p; f_value := v |}
            end)
    else fundEntry n' fs.
Proof.
  unfold fundEntry. induction fs as [|f fs IH]; simpl.
  - destruct (String.eqb_spec n n') as [->|Hn].
    + by rewrite String.eqb_refl.
    + destruct (String.eqb_spec n' n); [congruence|done].
  - destruct (String.eqb_spec (f_name f) n) as [Hf|Hf]; simpl.
    + destruct (String.eqb_spec (f_name f) n') as [Hf'|Hf'].
      * subst n n'. by rewrite String.eqb_refl.
      * subst n. destruct (String.eqb_spec n' (f_name f)); [congruence|done].
    + destruct (String.eqb_spec (f_name f) n') as [Hf'|Hf'].
      * subst n'. destruct (String.eqb_spec (f_name f) n); [congruence|done].
      * exact IH.
Qed.

End FundEntryFacts.

(** ** Aggregation: what the map holds after a run of the loops *)

Section MergeInvariant.

Local Open Scope Q_scope.

Lemma mergeContribution_get k m c :
  OMap.get k (mergeContribution m c) =
    if String.eqb k (ct_key c) then
      Some (match OMap.get (ct_key c) m with
            | Some existing => addedRecord c existing
            | None => freshRecord c
            end)
    else OMap.get k m.
Proof.
  unfold mergeContribution, mergeHolding. fold (ct_key c).
  unfold OMap.has.
  destruct (OMap.get (ct_key c) m) as [a|] eqn:Hget.
  - rewrite OMapFacts.get_update.
    destruct (String.eqb_spec k (ct_key c)) as [->|]; [|done].
    by rewrite Hget.
  - by rewrite OMapFacts.get_set.
Qed.

Lemma mergeContribution_keys m c :
  OMap.keys (mergeContribution m c) =
    if decide (ct_key c ∈ OMap.keys m) then OMap.keys m
    else OMap.keys m ++ [ct_key c].
Proof.
  unfold mergeContribution, mergeHolding. fold (ct_key c).
  unfold OMap.has.
  destruct (OMap.get (ct_key c) m) as [a|] eqn:Hget.
  - rewrite OMapFacts.keys_update. rewrite decide_True; [done|].
    destruct (decide (ct_key c ∈ OMap.keys m)) as [|Hn]; [done|].
    apply OMapFacts.get_None_keys in Hn. congruence.
  - rewrite OMapFacts.keys_set_new by done.
    rewrite decide_False; [done|]. by apply OMapFacts.get_None_keys.
Qed.

Lemma recordOk_fresh c : RecordOk [c] (freshRecord c).
Proof.
  unfold RecordOk, freshRecord; cbn [a_totalValue a_totalPercentage a_funds map sumQ
    fold_right f_name].
  split; [ring|]. split; [ring|].
  split; [apply NoDup_singleton|].
  split; [done|].
  intros n e. unfold fundEntry. cbn [List.find f_name].
  destruct (String.eqb_spec (ct_fundName c) n) as [<-|Hn]; [|done].
  intros [= <-]. cbn [f_percentage f_value].
  rewrite filter_cons_True by done. rewrite filter_nil.
  cbn [map sumQ fold_right]. split; ring.
Qed.

Lemma recordOk_added csk a c :
  RecordOk csk a -> RecordOk (csk ++ [c]) (addedRecord c a).
Proof.
  intros (Hv & Hp & Hnd & Hin & Hent).
  unfold RecordOk, addedRecord;
    cbn [a_totalValue a_totalPercentage a_funds].
  rewrite !map_app. cbn [map].
  split; [rewrite sumQ_snoc, Hv; reflexivity|].
  split; [rewrite sumQ_snoc, Hp; reflexivity|].
  rewrite addFundEntry_names.
  split.
  { destruct (decide _) as [|Hnew]; [done|].
    apply NoDup_app. split; [done|]. split; [|apply NoDup_singleton].
    intros x Hx Hx'. apply list_elem_of_singleton in Hx' as ->. done. }
  split.
  { intros n. rewrite elem_of_app, list_elem_of_singleton, <- Hin.
    destruct (decide _) as [Hold|Hnew].
    - split; [by left|]. intros [? | ->]; done.
    - by rewrite elem_of_app, list_elem_of_singleton. }
  intros n e. rewrite fundEntry_add, filter_app.
  destruct (String.eqb_spec n (ct_fundName c)) as [->|Hn].
  - rewrite (filter_cons_True _ c) by done. rewrite filter_nil.
    rewrite !map_app. cbn [map]. rewrite !sumQ_snoc.
    destruct (fundEntry (ct_fundName c) (a_funds a)) as [e0|] eqn:He0.
    + destruct (Hent _ _ He0) as [H1 H2].
      intros [= <-]. cbn [f_percentage f_value]. rewrite H1, H2. split; reflexivity.
    + apply fundEntry_None in He0. rewrite Hin in He0.
      assert (filter (fun c0 => ct_fundName c0 = ct_fundName c) csk = []) as ->.
      { apply filter_none. intros x Hx Hfx.
        apply He0. apply list_elem_of_fmap. by exists x. }
      intros [= <-]. cbn [f_percentage f_value map sumQ fold_right]. split; ring.
  - rewrite (filter_cons_False _ c) by congruence. rewrite filter_nil, app_nil_r.
    apply Hent.
Qed.

Lemma mapOk_step cs m c :
  MapOk cs m -> MapOk (cs ++ [c]) (mergeContribution m c).
Proof.
  intros (Hnd & Hrec & Hnone).
  split.
  { rewrite mergeContribution_keys. destruct (decide _) as [|Hnew]; [done|].
    apply NoDup_app. split; [done|]. split; [|apply NoDup_singleton].
    intros x Hx Hx'. apply list_elem_of_singleton in Hx' as ->. done. }
  split.
  - intros k a. rewrite mergeContribution_get, filter_app.
    destruct (String.eqb_spec k (ct_key c)) as [->|Hk].
    + rewrite (filter_cons_True _ c) by done. rewrite filter_nil.
      destruct (OMap.get (ct_key c) m) as [a0|] eqn:Hget.
      * intros [= <-]. destruct (Hrec _ _ Hget) as [Hk0 Hok].
        split; [exact Hk0|]. by apply recordOk_added.
      * intros [= <-]. rewrite (Hnone _ Hget). cbn [app].
        split; [reflexivity|]. apply recordOk_fresh.
    + rewrite (filter_cons_False _ c) by congruence.
      rewrite filter_nil, app_nil_r. apply Hrec.
  - intros k. rewrite mergeContribution_get, filter_app.
    destruct (String.eqb_spec k (ct_key c)) as [->|Hk]; [done|].
    rewrite (filter_cons_False _ c) by congruence.
    rewrite filter_nil, app_nil_r. apply Hnone.
Qed.

Lemma mapOk_fold cs :
  MapOk cs (fold_left mergeContribution cs []).
Proof.
  induction cs as [|c cs IH] using rev_ind.
  - split; [apply NoDup_nil_2|]. split; [done|done].
  - rewrite fold_left_app. cbn [fold_left]. by apply mapOk_step.
Qed.

End MergeInvariant.

(** ** Aggregation: the loops as one fold, the sort, the response *)

Section AggregationRun.

Context (w : World).

Local Open Scope Q_scope.

Lemma mergeFund_fold total mf p m :
  mergeFund total mf p m =
    fold_left mergeContribution (contributionsOfFund total (mf, p)) m.
Proof.
  unfold mergeFund, contributionsOfFund. cbn [fst snd].
  assert (forall hs m0,
            fold_left (mergeHolding mf (fundWeightOf total mf)) hs m0 =
            fold_left mergeContribution
              (map (fun h => {| ct_fund := mf; ct_weight := fundWeightOf total mf;
                                ct_holding := h |}) hs) m0) as Hfold.
  { induction hs as [|h hs IH]; intros m0; [done|]. cbn [map fold_left].
    rewrite IH. reflexivity. }
  destruct (holdings p) as [|h hs] eqn:Hh; [done|].
  cbn [List.length Nat.ltb Nat.leb]. apply Hfold.
Qed.

Lemma resolveAll_cons mf funds st :
  resolveAll w (mf :: funds) st =
    let r := fetchFundPortfolio w (c_tradingsymbol mf) (c_fund mf) st in
    ((mf, r.1) :: (resolveAll w funds r.2).1, (resolveAll w funds r.2).2).
Proof. unfold resolveAll. rewrite mapM_cons_run, bind_run. reflexivity. Qed.

Lemma processFunds_run total funds m st :
  processFunds w total funds m st =
    (fold_left mergeContribution
       (contributionsOf total (resolveAll w funds st).1) m,
     (resolveAll w funds st).2).
Proof.
  revert m st. induction funds as [|mf funds IH]; intros m st.
  - reflexivity.
  - cbn [processFunds]. rewrite bind_run, IH, resolveAll_cons.
    cbn [fst snd].
    unfold contributionsOf. cbn [flat_map]. rewrite fold_left_app.
    by rewrite mergeFund_fold.
Qed.

Lemma resolveAll_funds funds st : map fst (resolveAll w funds st).1 = funds.
Proof.
  revert st. induction funds as [|mf funds IH]; intros st; [done|].
  rewrite resolveAll_cons. cbn [fst snd map]. f_equal. apply IH.
Qed.

Lemma insertByWeight_perm x l : insertByWeight x l ≡ₚ x :: l.
Proof.
  induction l as [|y l IH]; cbn [insertByWeight]; [done|].
  destruct (Qle_bool _ _); [done|].
  rewrite IH. apply perm_swap.
Qed.

Lemma sortByWeight_perm l : sortByWeight l ≡ₚ l.
Proof.
  induction l as [|x l IH]; cbn [sortByWeight fold_right]; [done|].
  fold (sortByWeight l). rewrite insertByWeight_perm. by constructor.
Qed.

(** Among records with distinct keys, the one returned for a key is the
    one that has it. *)
Lemma returned_unique k a l :
  NoDup (map recKey l) -> a ∈ l -> recKey a = k -> returned k l = Some a.
Proof.
  unfold returned. induction l as [|b l IH]; cbn [map List.find]; intros Hnd Hin Hk.
  - by apply not_elem_of_nil in Hin.
  - apply NoDup_cons in Hnd as [Hb Hnd].
    apply elem_of_cons in Hin as [->|Hin].
    + by rewrite (proj2 (String.eqb_eq _ _) Hk).
    + destruct (String.eqb_spec (recKey b) k) as [Hbk|_]; [|by apply IH].
      exfalso. apply Hb. rewrite Hbk, <- Hk.
      apply list_elem_of_fmap. by exists a.
Qed.

Lemma returned_Some k a l : returned k l = Some a -> a ∈ l /\ recKey a = k.
Proof.
  unfold returned. intros H. apply find_some in H as [Hin Hk].
  split; [by apply list_elem_of_In|by apply String.eqb_eq].
Qed.

Lemma returned_perm k l l' :
  NoDup (map recKey l) -> l ≡ₚ l' -> returned k l' = returned k l.
Proof.
  intros Hnd Hp.
  assert (NoDup (map recKey l')) as Hnd'.
  { assert (map recKey l ≡ₚ map recKey l') as Hm by (by apply Permutation_map).
    by rewrite <- Hm. }
  destruct (returned k l) as [a|] eqn:Hl.
  - apply returned_Some in Hl as [Hin Hk].
    apply returned_unique; [done| |done]. by rewrite <- Hp.
  - destruct (returned k l') as [a|] eqn:Hl'; [|done].
    apply returned_Some in Hl' as [Hin Hk]. rewrite <- Hp in Hin.
    by rewrite (returned_unique k a l Hnd Hin Hk) in Hl.
Qed.

(** The record the response carries for a key is the map's. *)
Lemma returned_sorted_values cs m k :
  MapOk cs m ->
  returned k (sortByWeight (OMap.values m)) = OMap.get k m.
Proof.
  intros (Hnd & Hrec & _).
  assert (map recKey (OMap.values m) = OMap.keys m) as Hkeys.
  { unfold OMap.values, OMap.keys. rewrite map_map. apply map_ext_in.
    intros [k0 a0] Hin. cbn [fst snd].
    apply (Hrec k0 a0). apply OMapFacts.get_Some_elem; [done|].
    by apply list_elem_of_In. }
  rewrite (returned_perm k (OMap.values m)).
  2:{ by rewrite Hkeys. }
  2:{ symmetry. apply sortByWeight_perm. }
  destruct (OMap.get k m) as [a|] eqn:Hget.
  - apply returned_unique.
    + by rewrite Hkeys.
    + apply OMapFacts.get_Some_elem in Hget; [|done].
      unfold OMap.values. apply list_elem_of_fmap. by exists (k, a).
    + by apply (Hrec k a).
  - destruct (returned k (OMap.values m)) as [a|] eqn:Hr; [|done].
    apply returned_Some in Hr as [Hin Hk].
    apply OMapFacts.get_None_keys in Hget. exfalso. apply Hget.
    rewrite <- Hkeys, <- Hk. apply list_elem_of_fmap. by exists a.
Qed.

(** The response of an authenticated request with a holdings array. *)
Lemma topHoldingsPOST_run tok mfHoldings st :
  Js.truthy_str tok = true ->
  let funds := OMap.values (consolidate mfHoldings).1 in
  let total := (consolidate mfHoldings).2 in
  let rs := resolveAll w funds st in
  let m := fold_left mergeContribution (contributionsOf total rs.1) [] in
  topHoldingsPOST w tok (Some mfHoldings) st =
    (TopOk {| t_holdings := sortByWeight (OMap.values m);
              t_totalHoldings := List.length (sortByWeight (OMap.values m));
              t_totalPortfolioValue := total;
              t_totalFunds := List.length funds |},
     rs.2).
Proof.
  intros Htok. cbv zeta. unfold topHoldingsPOST. rewrite Htok. cbn [negb].
  destruct (consolidate mfHoldings) as [cf total] eqn:Hc. cbn [fst snd].
  rewrite bind_run, processFunds_run. reflexivity.
Qed.

End AggregationRun.

(** ** C7: merging by lower-cased, trimmed name *)

Lemma fundEntry_unique (e : FundEntry) (fs : list FundEntry) :
  NoDup (map f_name fs) -> e ∈ fs -> fundEntry (f_name e) fs = Some e.
Proof.
  unfold fundEntry. induction fs as [|f fs IH]; cbn [map List.find]; intros Hnd Hin.
  - by apply not_elem_of_nil in Hin.
  - apply NoDup_cons in Hnd as [Hf Hnd].
    apply elem_of_cons in Hin as [->|Hin].
    + by rewrite String.eqb_refl.
    + destruct (String.eqb_spec (f_name f) (f_name e)) as [Hfe|_]; [|by apply IH].
      exfalso. apply Hf. rewrite Hfe. apply list_elem_of_fmap. by exists e.
Qed.

(** C7.  For a deduplication key [k] (a lower-cased, trimmed name) that
    some constituent of some resolved composition has, the response carries
    exactly one record with that key; its value and its portfolio-wide
    weight are the sums over all constituents with that key, whatever
    holding they come from; its contribution list has one entry per holding
    that contributed, and each entry carries the sums over that holding's
    constituents with the key (a second contribution of a holding is added
    to its entry). *)
Theorem aggregation_merges_by_key (w : World) (st : Server) (tok : option string)
    (mfHoldings : list MFInput) (k : string) :
  Js.truthy_str tok = true ->
  let funds := OMap.values (consolidate mfHoldings).1 in
  let total := (consolidate mfHoldings).2 in
  let cs := contributionsOf total (resolveAll w funds st).1 in
  let csk := filter (fun c => ct_key c = k) cs in
  csk ≠ [] ->
  exists body a,
    (topHoldingsPOST w tok (Some mfHoldings) st).1 = TopOk body /\
    a ∈ t_holdings body /\
    recKey a = k /\
    (forall a', a' ∈ t_holdings body -> recKey a' = k -> a' = a) /\
    (a_totalValue a == sumQ (map ct_value csk))%Q /\
    (a_totalPercentage a == sumQ (map ct_share csk))%Q /\
    NoDup (map f_name (a_funds a)) /\
    (forall n, n ∈ map f_name (a_funds a) <-> n ∈ map ct_fundName csk) /\
    (forall e, e ∈ a_funds a ->
       (f_percentage e ==
          sumQ (map ct_pct (filter (fun c => ct_fundName c = f_name e) csk)))%Q /\
       (f_value e ==
          sumQ (map ct_value (filter (fun c => ct_fundName c = f_name e) csk)))%Q).
Proof.
  intros Htok funds total cs csk Hne.
  rewrite (topHoldingsPOST_run w tok mfHoldings st Htok). cbn [fst].
  fold funds total cs.
  set (m := fold_left mergeContribution cs []).
  pose proof (mapOk_fold cs) as Hok. fold m in Hok.
  pose proof (returned_sorted_values cs m k Hok) as Hret.
  destruct Hok as (Hnd & Hrec & Hnone).
  destruct (OMap.get k m) as [a|] eqn:Hget.
  2:{ exfalso. apply Hne. by apply Hnone. }
  destruct (Hrec k a Hget) as (Hk & Hv & Hp & Hfnd & Hfin & Hfent).
  eexists _, a. split; [reflexivity|]. cbn [t_holdings].
  destruct (returned_Some _ _ _ Hret) as [Hin _].
  split; [done|]. split; [done|].
  split.
  { intros a' Hin' Hk'.
    assert (returned k (sortByWeight (OMap.values m)) = Some a') as Hret'.
    { apply returned_unique; [|done|done].
      assert (map recKey (sortByWeight (OMap.values m)) ≡ₚ
              map recKey (OMap.values m)) as Hm
        by (apply Permutation_map, sortByWeight_perm).
      rewrite Hm.
      assert (map recKey (OMap.values m) = OMap.keys m) as ->; [|done].
      unfold OMap.values, OMap.keys. rewrite map_map. apply map_ext_in.
      intros [k0 a0] Hin0. cbn [fst snd].
      apply (Hrec k0 a0). apply OMapFacts.get_Some_elem; [done|].
      by apply list_elem_of_In. }
    congruence. }
  split; [done|]. split; [done|]. split; [done|]. split; [done|].
  intros e He. apply Hfent. by apply fundEntry_unique.
Qed.

Lemma aggregation_merges_by_key_witness :
  exists body a,
    (topHoldingsPOST acmeWorld (Some "token") (Some acmeRequest) coldServer).1 =
      TopOk body /\
    a ∈ t_holdings body /\
    recKey a = "acme ltd" /\
    NoDup (map f_name (a_funds a)) /\
    (forall n, n ∈ map f_name (a_funds a) <-> n ∈ ["Fund A"; "Fund B"]).
Proof.
  destruct (aggregation_merges_by_key acmeWorld coldServer (Some "token")
              acmeRequest "acme ltd" eq_refl)
    as (body & a & Hb & Hin & Hk & _ & _ & _ & Hnd & Hn & _).
  { vm_compute. discriminate. }
  exists body, a. split; [exact Hb|]. split; [exact Hin|]. split; [exact Hk|].
  split; [exact Hnd|]. exact Hn.
Defined.


(** ** C6: weight conservation *)

Section Conservation.

Local Open Scope Q_scope.

Lemma contributions_without_key total rs k :
  (forall r h, r ∈ rs -> h ∈ holdings r.2 -> holdingKey h ≠ k) ->
  filter (fun c => ct_key c = k) (contributionsOf total rs) = [].
Proof.
  intros H. apply filter_none. intros c Hc Hk.
  apply list_elem_of_In, in_flat_map in Hc as (r & Hr & Hc).
  apply in_map_iff in Hc as (h & <- & Hh).
  apply (H r h); [by apply list_elem_of_In|by apply list_elem_of_In|done].
Qed.

Lemma contributions_of_fund_with_key total mf p h :
  NoDup (map holdingKey (holdings p)) ->
  h ∈ holdings p ->
  filter (fun c => ct_key c = holdingKey h) (contributionsOfFund total (mf, p)) =
    [{| ct_fund := mf; ct_weight := fundWeightOf total mf; ct_holding := h |}].
Proof.
  unfold contributionsOfFund. cbn [fst snd].
  induction (holdings p) as [|h0 hs IH]; cbn [map]; intros Hnd Hin.
  - by apply not_elem_of_nil in Hin.
  - apply NoDup_cons in Hnd as [Hh0 Hnd].
    apply elem_of_cons in Hin as [->|Hin].
    + rewrite filter_cons_True by done. f_equal.
      apply filter_none. intros c Hc Hk.
      apply list_elem_of_fmap in Hc as (h1 & -> & Hh1).
      apply Hh0. unfold ct_key in Hk. cbn [ct_holding] in Hk. rewrite <- Hk.
      apply list_elem_of_fmap. by exists h1.
    + rewrite filter_cons_False; [by apply IH|].
      unfold ct_key. cbn [ct_holding]. intros Hk. apply Hh0. rewrite Hk.
      apply list_elem_of_fmap. by exists h.
Qed.

Lemma sumQ_shares (c : Q) (hs : list FundHolding) :
  sumQ (map (fun h => (h_percentage h / 100) * c) hs) ==
    c * (sumQ (map h_percentage hs) / 100).
Proof.
  induction hs as [|h hs IH]; cbn [map sumQ fold_right].
  - field.
  - fold (sumQ (map (fun h => (h_percentage h / 100) * c) hs)).
    fold (sumQ (map h_percentage hs)). rewrite IH. field.
Qed.

End Conservation.

(** A holding worth 100,000 out of 400,000 (25%) whose constituents are
    listed at 40% and 50%: the returned weights are 10% and 12.5%, which add
    up to 22.5%. *)
Lemma weight_not_conserved_counterexample :
  ~ weights_add_up_to_holding_weight partialWorld coldServer (Some "token")
      acmeRequest.
Proof.
  intros H.
  destruct (H [] (Build_Consolidated "INF00A" "Fund A" ((100 # 1) * (1000 # 1)))
              (fetchFundPortfolio partialWorld "INF00A" "Fund A" coldServer).1
              [(Build_Consolidated "INF00B" "Fund B" ((100 # 1) * (3000 # 1)),
                (fetchFundPortfolio partialWorld "INF00B" "Fund B"
                   (fetchFundPortfolio partialWorld "INF00A" "Fund A" coldServer).2).1)])
    as (body & Hb & Hsum).
  - vm_compute. reflexivity.
  - vm_compute. apply (bool_decide_unpack _). vm_compute. reflexivity.
  - intros r h h' Hr Hh'. apply list_elem_of_singleton in Hr as ->.
    vm_compute in Hh'. by apply not_elem_of_nil in Hh'.
  - vm_compute in Hb. injection Hb as <-. vm_compute in Hsum. discriminate.
Qed.

(** C6 (amended).  Take a consolidated holding whose resolved composition
    has no two constituents with the same deduplication key, none of which
    occurs in the composition of another holding.  The returned
    portfolio-wide weights of its constituents add up, in exact rational
    arithmetic, to the holding's own portfolio weight scaled by the sum of
    its constituents' internal weights over 100; so they add up to the
    holding's weight when the internal weights sum to 100.  The holding's
    weight is its value over the total portfolio value, as a percentage. *)
Theorem aggregation_weight_conserving (w : World) (st : Server)
    (tok : option string) (mfHoldings : list MFInput)
    (rs1 rs2 : list (Consolidated * FundPortfolio)) (mf : Consolidated)
    (p : FundPortfolio) :
  Js.truthy_str tok = true ->
  let funds := OMap.values (consolidate mfHoldings).1 in
  let total := (consolidate mfHoldings).2 in
  (resolveAll w funds st).1 = rs1 ++ (mf, p) :: rs2 ->
  NoDup (map holdingKey (holdings p)) ->
  (forall r h h', r ∈ rs1 ++ rs2 -> h' ∈ holdings r.2 -> h ∈ holdings p ->
     holdingKey h' ≠ holdingKey h) ->
  exists body,
    (topHoldingsPOST w tok (Some mfHoldings) st).1 = TopOk body /\
    (forall h, h ∈ holdings p ->
       returnedWeight (holdingKey h) (t_holdings body) ==
         (h_percentage h / 100) * fundWeightOf total mf)%Q /\
    (sumQ (map (fun h => returnedWeight (holdingKey h) (t_holdings body))
             (holdings p)) ==
       fundWeightOf total mf * (sumQ (map h_percentage (holdings p)) / 100))%Q /\
    ((sumQ (map h_percentage (holdings p)) == 100)%Q ->
     (sumQ (map (fun h => returnedWeight (holdingKey h) (t_holdings body))
              (holdings p)) == fundWeightOf total mf)%Q) /\
    ((0 < total)%Q ->
     (fundWeightOf total mf == (c_totalValue mf / total) * 100)%Q).
Proof.
  intros Htok funds total Hrs Hnd Hdisj.
  rewrite (topHoldingsPOST_run w tok mfHoldings st Htok). cbn [fst].
  fold funds total. rewrite Hrs.
  set (cs := contributionsOf total (rs1 ++ (mf, p) :: rs2)).
  set (m := fold_left mergeContribution cs []).
  pose proof (mapOk_fold cs) as Hok. fold m in Hok.
  eexists. split; [reflexivity|]. cbn [t_holdings].
  assert (forall h, h ∈ holdings p ->
            returnedWeight (holdingKey h) (sortByWeight (OMap.values m)) ==
              (h_percentage h / 100) * fundWeightOf total mf)%Q as Hone.
  { intros h Hh. unfold returnedWeight.
    rewrite (returned_sorted_values cs m _ Hok).
    assert (filter (fun c => ct_key c = holdingKey h) cs =
              [{| ct_fund := mf; ct_weight := fundWeightOf total mf;
                  ct_holding := h |}]) as Hcsk.
    { subst cs. unfold contributionsOf.
      rewrite flat_map_app. cbn [flat_map]. rewrite !filter_app.
      fold (contributionsOf total rs1). fold (contributionsOf total rs2).
      rewrite (contributions_without_key total rs1).
      2:{ intros r h' Hr Hh'. apply (Hdisj r h h'); [|done|done].
          apply elem_of_app. by left. }
      rewrite (contributions_without_key total rs2).
      2:{ intros r h' Hr Hh'. apply (Hdisj r h h'); [|done|done].
          apply elem_of_app. by right. }
      rewrite (contributions_of_fund_with_key total mf p h Hnd Hh).
      reflexivity. }
    destruct Hok as (_ & Hrec & Hnone).
    destruct (OMap.get (holdingKey h) m) as [a|] eqn:Hget.
    - destruct (Hrec _ _ Hget) as (_ & _ & Hp & _). rewrite Hp, Hcsk.
      cbn [map sumQ fold_right]. unfold ct_share. cbn [ct_holding ct_weight].
      ring.
    - specialize (Hnone _ Hget). rewrite Hcsk in Hnone. discriminate. }
  assert (sumQ (map (fun h => returnedWeight (holdingKey h)
                                (sortByWeight (OMap.values m))) (holdings p)) ==
          fundWeightOf total mf * (sumQ (map h_percentage (holdings p)) / 100))%Q
    as Hsum.
  { rewrite <- sumQ_shares. by apply sumQ_ext. }
  split; [exact Hone|]. split; [exact Hsum|]. split.
  - intros H100. rewrite Hsum, H100. field.
  - intros Hpos. unfold fundWeightOf.
    destruct (Qlt_le_dec 0 total) as [_|Hle]; [reflexivity|].
    exfalso. by apply (Qlt_not_le _ _ Hpos).
Qed.

Lemma aggregation_weight_conserving_witness :
  exists body,
    (topHoldingsPOST acmeWorld (Some "token")
       (Some [folio "INF00A" "Fund A" (100 # 1) (1000 # 1);
              folio "INF00C" "Fund C" (100 # 1) (3000 # 1)]) coldServer).1 =
      TopOk body /\
    (returnedWeight "acme ltd" (t_holdings body) +
     (returnedWeight "beta ltd" (t_holdings body) + 0) == 25 # 1)%Q.
Proof.
  destruct (aggregation_weight_conserving acmeWorld coldServer (Some "token")
              [folio "INF00A" "Fund A" (100 # 1) (1000 # 1);
               folio "INF00C" "Fund C" (100 # 1) (3000 # 1)]
              []
              [(Build_Consolidated "INF00C" "Fund C" ((100 # 1) * (3000 # 1)),
                (fetchFundPortfolio acmeWorld "INF00C" "Fund C"
                   (fetchFundPortfolio acmeWorld "INF00A" "Fund A" coldServer).2).1)]
              (Build_Consolidated "INF00A" "Fund A" ((100 # 1) * (1000 # 1)))
              (fetchFundPortfolio acmeWorld "INF00A" "Fund A" coldServer).1
              eq_refl)
    as (body & Hb & _ & _ & Hsum & Hw).
  - vm_compute. reflexivity.
  - vm_compute. apply (bool_decide_unpack _). vm_compute. reflexivity.
  - intros r h h' Hr Hh'. apply list_elem_of_singleton in Hr as ->.
    vm_compute in Hh'. by apply not_elem_of_nil in Hh'.
  - exists body. split; [exact Hb|].
    assert (0 < 400000 # 1)%Q as Hpos by reflexivity.
    specialize (Hw Hpos). specialize (Hsum ltac:(vm_compute; reflexivity)).
    etrans; [exact Hsum|]. etrans; [exact Hw|]. vm_compute. reflexivity.
Defined.

(** The example of the specification: a holding worth 100,000 out of
    400,000 with constituents at 40% and 60% yields weights 10% and 15%. *)
Example weights_10_and_15 :
  match (topHoldingsPOST acmeWorld (Some "token")
           (Some [folio "INF00A" "Fund A" (100 # 1) (1000 # 1);
                  folio "INF00C" "Fund C" (100 # 1) (3000 # 1)]) coldServer).1 with
  | TopOk body =>
      (t_totalPortfolioValue body == 400000 # 1)%Q /\
      (returnedWeight "acme ltd" (t_holdings body) == 10 # 1)%Q /\
      (returnedWeight "beta ltd" (t_holdings body) == 15 # 1)%Q
  | _ => False
  end.
Proof. vm_compute. repeat split. Qed.

(** ** C10: consolidation of same-named holdings *)

Section Consolidation.

Local Open Scope Q_scope.

Lemma firstOfName_snoc n l mf :
  firstOfName n (l ++ [mf]) =
    match firstOfName n l with
    | Some x => Some x
    | None => if String.eqb (fund mf) n then Some mf else None
    end.
Proof.
  unfold firstOfName. induction l as [|x l IH]; cbn [app List.find]; [done|].
  by destruct (String.eqb (fund x) n).
Qed.

Lemma firstOfName_None n l : firstOfName n l = None <-> n ∉ map fund l.
Proof.
  unfold firstOfName. induction l as [|x l IH]; cbn [map List.find].
  - split; [intros _; apply not_elem_of_nil|done].
  - rewrite not_elem_of_cons.
    destruct (String.eqb_spec (fund x) n) as [<-|Hn].
    + split; [done|]. by intros [? _].
    + rewrite IH. split; [by intros H; split|by intros [_ H]].
Qed.

Lemma consOk_step l st mf :
  ConsOk l st -> ConsOk (l ++ [mf]) (consolidateStep st mf).
Proof.
  destruct st as [m total]. intros (Hnd & Htot & Hnone & Hsome).
  cbn [fst snd] in *.
  assert (total + mfValue mf == sumQ (map mfValue (l ++ [mf]))) as Htot'.
  { rewrite map_app. cbn [map]. rewrite sumQ_snoc, Htot. reflexivity. }
  unfold consolidateStep, OMap.has. fold (mfValue mf).
  destruct (OMap.get (fund mf) m) as [c0|] eqn:Hget; unfold ConsOk; cbn [fst snd].
  - split; [by rewrite OMapFacts.keys_update|]. split; [exact Htot'|].
    split.
    + intros n. rewrite OMapFacts.get_update, firstOfName_snoc.
      destruct (String.eqb_spec n (fund mf)) as [->|Hn].
      * by rewrite Hget.
      * intros Hg. rewrite (Hnone _ Hg).
        destruct (String.eqb_spec (fund mf) n); [congruence|done].
    + intros n c. rewrite OMapFacts.get_update, firstOfName_snoc, filter_app.
      destruct (String.eqb_spec n (fund mf)) as [->|Hn].
      * rewrite Hget. intros [= <-]. cbn [c_fund c_tradingsymbol c_totalValue].
        destruct (Hsome _ _ Hget) as (Hf & (x & Hx & Hts) & Hv).
        split; [exact Hf|]. split; [exists x; by rewrite Hx|].
        rewrite (filter_cons_True _ mf) by done. rewrite filter_nil.
        rewrite map_app. cbn [map]. rewrite sumQ_snoc, Hv. reflexivity.
      * intros Hg. destruct (Hsome _ _ Hg) as (Hf & (x & Hx & Hts) & Hv).
        split; [exact Hf|]. split; [exists x; by rewrite Hx|].
        rewrite (filter_cons_False _ mf) by congruence.
        by rewrite filter_nil, app_nil_r.
  - split.
    { rewrite OMapFacts.keys_set_new by done.
      apply NoDup_app. split; [done|]. split; [|apply NoDup_singleton].
      intros x Hx Hx'. apply list_elem_of_singleton in Hx' as ->.
      by apply OMapFacts.get_None_keys in Hget. }
    split; [exact Htot'|].
    split.
    + intros n. rewrite OMapFacts.get_set, firstOfName_snoc.
      destruct (String.eqb_spec n (fund mf)) as [->|Hn]; [done|].
      intros Hg. rewrite (Hnone _ Hg).
      destruct (String.eqb_spec (fund mf) n); [congruence|done].
    + intros n c. rewrite OMapFacts.get_set, firstOfName_snoc, filter_app.
      destruct (String.eqb_spec n (fund mf)) as [->|Hn].
      * intros [= <-]. cbn [c_fund c_tradingsymbol c_totalValue].
        split; [done|]. rewrite (Hnone _ Hget), String.eqb_refl.
        split; [by exists mf|].
        assert (filter (fun x => fund x = fund mf) l = []) as ->.
        { apply filter_none. intros x Hx Hfx.
          apply (proj1 (firstOfName_None _ _) (Hnone _ Hget)).
          rewrite <- Hfx. apply list_elem_of_fmap. by exists x. }
        rewrite (filter_cons_True _ mf) by done. rewrite filter_nil.
        cbn [app map sumQ fold_right]. ring.
      * intros Hg. destruct (Hsome _ _ Hg) as (Hf & (x & Hx & Hts) & Hv).
        split; [exact Hf|]. split; [exists x; by rewrite Hx|].
        rewrite (filter_cons_False _ mf) by congruence.
        by rewrite filter_nil, app_nil_r.
Qed.

Lemma consOk_consolidate l : ConsOk l (consolidate l).
Proof.
  unfold consolidate. induction l as [|mf l IH] using rev_ind.
  - split; [apply NoDup_nil_2|]. split; [reflexivity|]. split; [done|done].
  - rewrite fold_left_app. cbn [fold_left]. by apply consOk_step.
Qed.

End Consolidation.

Section ResolutionTrace.

Context (w : World).

Lemma tryScrapers_trace l isin0 fundName0 st :
  exists new,
    trace (tryScrapers (map (adapterOf w) l) isin0 fundName0 st).2 =
      trace st ++ new /\
    Forall (about isin0) new.
Proof.
  revert st. induction l as [|s l IH]; intros st; cbn [map tryScrapers].
  - exists []. by rewrite app_nil_r.
  - rewrite bind_run. cbn [adapterOf fn]. rewrite scrape_run. cbn [fst snd].
    destruct (IH (logged [CallAdapter s isin0 fundName0] st)) as (new & Ht & Hall).
    assert (Forall (about isin0) (CallAdapter s isin0 fundName0 :: new)) as Hall'
      by (by constructor).
    destruct (scrape_value w s isin0 fundName0) as [p|].
    + destruct (0 <? _)%nat.
      * exists [CallAdapter s isin0 fundName0]. split; [done|].
        by repeat constructor.
      * exists (CallAdapter s isin0 fundName0 :: new). split; [|done].
        rewrite Ht. cbn [logged trace]. by rewrite <- app_assoc.
    + exists (CallAdapter s isin0 fundName0 :: new). split; [|done].
      rewrite Ht. cbn [logged trace]. by rewrite <- app_assoc.
Qed.

(** Every call a resolution makes is about the identifier it was given. *)
Lemma fetchFundPortfolio_trace isin0 fundName0 st :
  exists new,
    trace (fetchFundPortfolio w isin0 fundName0 st).2 = trace st ++ new /\
    Forall (about isin0) new.
Proof.
  unfold fetchFundPortfolio. rewrite bind_run.
  destruct (getCachedPortfolio_state w isin0 st) as (Ht0 & _).
  set (st0 := (getCachedPortfolio w isin0 st).2) in *.
  destruct (getCachedPortfolio w isin0 st).1 as [p|].
  - exists []. cbn [ret snd]. by rewrite app_nil_r.
  - rewrite bind_run.
    change (fetchFromMFAPI w isin0 st0)
      with (mfapi_reply w isin0, logged [CallRegistry isin0] st0).
    cbn [fst snd]. rewrite bind_run.
    change (SCRAPERS w) with (map (adapterOf w) SCRAPER_ORDER).
    destruct (tryScrapers_trace SCRAPER_ORDER isin0 fundName0
                (logged [CallRegistry isin0] st0)) as (new & Ht & Hall).
    exists (CallRegistry isin0 :: new). split; [|by constructor].
    assert (forall x, trace x = trace (tryScrapers (map (adapterOf w) SCRAPER_ORDER)
               isin0 fundName0 (logged [CallRegistry isin0] st0)).2 ->
            trace x = trace st ++ CallRegistry isin0 :: new) as Hfin.
    { intros x ->. rewrite Ht. cbn [logged trace]. rewrite Ht0.
      by rewrite <- app_assoc. }
    destruct (tryScrapers _ _ _ _).1 as [p|]; [|by apply Hfin].
    destruct (0 <? _)%nat; [|by apply Hfin].
    rewrite bind_run, cachePortfolio_run. cbn [ret fst snd].
    by apply Hfin.
Qed.

Lemma resolveAll_trace funds st :
  exists new,
    trace (resolveAll w funds st).2 = trace st ++ new /\
    Forall (fun c => exists mf, mf ∈ funds /\ about (c_tradingsymbol mf) c) new.
Proof.
  revert st. induction funds as [|mf funds IH]; intros st.
  - exists []. cbn. by rewrite app_nil_r.
  - rewrite resolveAll_cons. cbn [snd].
    destruct (fetchFundPortfolio_trace (c_tradingsymbol mf) (c_fund mf) st)
      as (new1 & Ht1 & Hall1).
    destruct (IH (fetchFundPortfolio w (c_tradingsymbol mf) (c_fund mf) st).2)
      as (new2 & Ht2 & Hall2).
    exists (new1 ++ new2). split.
    + by rewrite Ht2, Ht1, <- app_assoc.
    + apply Forall_app. split.
      * eapply Forall_impl; [exact Hall1|]. intros c Hc. exists mf.
        split; [by left|done].
      * eapply Forall_impl; [exact Hall2|]. intros c (mf' & Hin & Hc).
        exists mf'. split; [by right|done].
Qed.

(** Each composition the aggregation uses was resolved under the
    identifier and the name of its consolidated fund. *)
Lemma resolveAll_results funds st :
  Forall (fun r => exists st',
            r.2 = (fetchFundPortfolio w (c_tradingsymbol r.1) (c_fund r.1) st').1)
    (resolveAll w funds st).1.
Proof.
  revert st. induction funds as [|mf funds IH]; intros st.
  - constructor.
  - rewrite resolveAll_cons. cbn [fst]. constructor; [|apply IH].
    cbn [fst snd]. by exists st.
Qed.

(** The server state in which each fund is resolved: the one the
    resolutions of the funds before it have left. *)
Lemma resolveAll_state funds st :
  (resolveAll w funds st).2 =
    fold_left
      (fun s mf => (fetchFundPortfolio w (c_tradingsymbol mf) (c_fund mf) s).2)
      funds st.
Proof.
  revert st. induction funds as [|mf funds IH]; intros st; [done|].
  rewrite resolveAll_cons. cbn [snd fold_left]. apply IH.
Qed.

Lemma resolveAll_lookup funds st i mf :
  funds !! i = Some mf ->
  (resolveAll w funds st).1 !! i =
    Some (mf,
          (fetchFundPortfolio w (c_tradingsymbol mf) (c_fund mf)
             (fold_left
                (fun s mf' =>
                   (fetchFundPortfolio w (c_tradingsymbol mf') (c_fund mf') s).2)
                (take i funds) st)).1).
Proof.
  revert st i. induction funds as [|mf0 funds IH]; intros st i Hi; [done|].
  rewrite resolveAll_cons. cbn [fst]. destruct i as [|i].
  - cbn in Hi. injection Hi as ->. done.
  - cbn in Hi. cbn [lookup list_lookup take fold_left]. by apply IH.
Qed.

End ResolutionTrace.

(** C10.  Input holdings that share a fund display name become one fund:
    there is one consolidated fund per distinct name; its identifier is the
    tradingsymbol of the first input holding of that name; its value is the
    sum of last_price × quantity over all input holdings of that name, and
    the reported total is that sum over all input holdings.  The request
    resolves exactly these funds, one after the other in order of first
    appearance, each under its consolidated identifier and name: the server
    is left in the state those resolutions lead to, every constituent of a
    composition so obtained is in the response with the fund among its
    contributors, every contributor of a returned record is such a fund,
    and every outbound call of the request is about the identifier of the
    first holding of some name. *)
Theorem aggregation_consolidates_by_name (w : World) (st : Server)
    (tok : option string) (mfHoldings : list MFInput) :
  Js.truthy_str tok = true ->
  let funds := (consolidate mfHoldings).1 in
  let out := topHoldingsPOST w tok (Some mfHoldings) st in
  let resolve := fun (s : Server) (c : Consolidated) =>
    fetchFundPortfolio w (c_tradingsymbol c) (c_fund c) s in
  let before := fun i : nat =>
    fold_left (fun s c => (resolve s c).2) (take i (OMap.values funds)) st in
  exists body new,
    out.1 = TopOk body /\
    (t_totalPortfolioValue body == sumQ (map mfValue mfHoldings))%Q /\
    t_totalFunds body = List.length (OMap.keys funds) /\
    NoDup (OMap.keys funds) /\
    (forall n, n ∈ OMap.keys funds <-> n ∈ map fund mfHoldings) /\
    (forall n c, OMap.get n funds = Some c ->
       c_fund c = n /\
       (exists mf, firstOfName n mfHoldings = Some mf /\
                   c_tradingsymbol c = tradingsymbol mf) /\
       (c_totalValue c ==
          sumQ (map mfValue (filter (fun mf => fund mf = n) mfHoldings)))%Q) /\
    out.2 = fold_left (fun s c => (resolve s c).2) (OMap.values funds) st /\
    (forall i c h, OMap.values funds !! i = Some c ->
       h ∈ holdings (resolve (before i) c).1 ->
       exists a, a ∈ t_holdings body /\ recKey a = holdingKey h /\
                 c_fund c ∈ map f_name (a_funds a)) /\
    (forall a n, a ∈ t_holdings body -> n ∈ map f_name (a_funds a) ->
       exists i c h, OMap.values funds !! i = Some c /\ c_fund c = n /\
                     h ∈ holdings (resolve (before i) c).1 /\
                     holdingKey h = recKey a) /\
    trace out.2 = trace st ++ new /\
    (forall c, c ∈ new ->
       exists n mf, firstOfName n mfHoldings = Some mf /\
                    callIdentifier c = Some (tradingsymbol mf)).
Proof.
  intros Htok funds out resolve before. subst out.
  rewrite (topHoldingsPOST_run w tok mfHoldings st Htok). cbn [fst snd].
  fold funds.
  destruct (consOk_consolidate mfHoldings) as (Hnd & Htot & Hnone & Hsome).
  fold funds in Hnd, Hnone, Hsome.
  destruct (resolveAll_trace w (OMap.values funds) st) as (new & Ht & Hall).
  set (total := (consolidate mfHoldings).2).
  set (rs := (resolveAll w (OMap.values funds) st).1).
  set (cs := contributionsOf total rs).
  pose proof (mapOk_fold cs) as (Hkeys & Hrec & Hmiss).
  set (m := fold_left mergeContribution cs []) in *.
  assert (forall k a, OMap.get k m = Some a -> a ∈ sortByWeight (OMap.values m))
    as Hret.
  { intros k a Hget. rewrite sortByWeight_perm. unfold OMap.values.
    apply list_elem_of_fmap. exists (k, a). split; [done|].
    by apply OMapFacts.get_Some_elem. }
  eexists _, new. split; [reflexivity|].
  cbn [t_totalPortfolioValue t_totalFunds t_holdings].
  split; [exact Htot|].
  split; [unfold OMap.values, OMap.keys; by rewrite !length_map|].
  split; [exact Hnd|].
  split.
  { intros n. destruct (OMap.get n funds) as [c|] eqn:Hget.
    - destruct (Hsome _ _ Hget) as (_ & (mf & Hmf & _) & _).
      split.
      + intros _. unfold firstOfName in Hmf. apply find_some in Hmf as [Hin Hn].
        apply String.eqb_eq in Hn. rewrite <- Hn.
        apply list_elem_of_fmap. exists mf. split; [done|by apply list_elem_of_In].
      + intros _. destruct (decide (n ∈ OMap.keys funds)) as [|Hn]; [done|].
        apply OMapFacts.get_None_keys in Hn. congruence.
    - split.
      + intros Hin. by apply OMapFacts.get_None_keys in Hget.
      + intros Hin. by apply Hnone, firstOfName_None in Hget. }
  split; [exact Hsome|].
  split; [apply resolveAll_state|].
  split.
  { intros i c h Hi Hh.
    pose proof (resolveAll_lookup w (OMap.values funds) st i c Hi) as Hr.
    fold rs in Hr.
    set (p := (resolve (before i) c).1) in *.
    set (ct := {| ct_fund := c; ct_weight := fundWeightOf total c;
                  ct_holding := h |}).
    assert (ct ∈ cs) as Hct.
    { apply list_elem_of_In, in_flat_map. exists (c, p). split.
      - apply list_elem_of_In. by eapply list_elem_of_lookup_2.
      - apply in_map_iff. exists h. split; [done|by apply list_elem_of_In]. }
    assert (ct ∈ filter (fun c' => ct_key c' = holdingKey h) cs) as Hctk
      by (by apply list_elem_of_filter).
    destruct (OMap.get (holdingKey h) m) as [a|] eqn:Hget.
    2:{ rewrite (Hmiss _ Hget) in Hctk. by apply not_elem_of_nil in Hctk. }
    destruct (Hrec _ _ Hget) as (Hk & _ & _ & _ & Hfunds & _).
    exists a. split; [by eapply Hret|]. split; [exact Hk|].
    apply Hfunds. apply list_elem_of_fmap. by exists ct. }
  split.
  { intros a n Ha Hn. rewrite sortByWeight_perm in Ha. unfold OMap.values in Ha.
    apply list_elem_of_fmap in Ha as ([k a'] & -> & Hin). cbn [snd] in *.
    apply OMapFacts.get_Some_elem in Hin; [|done].
    destruct (Hrec _ _ Hin) as (Hk & _ & _ & _ & Hfunds & _).
    apply Hfunds in Hn. apply list_elem_of_fmap in Hn as (ct & -> & Hct).
    apply list_elem_of_filter in Hct as [Hctk Hct].
    apply list_elem_of_In, in_flat_map in Hct as ([c p] & Hr & Hct).
    apply in_map_iff in Hct as (h & <- & Hh).
    apply list_elem_of_In, list_elem_of_lookup_1 in Hr as [i Hi].
    assert (OMap.values funds !! i = Some c) as Hc.
    { rewrite <- (resolveAll_funds w (OMap.values funds) st). fold rs.
      change (map fst rs) with (fst <$> rs). by rewrite list_lookup_fmap, Hi. }
    pose proof (resolveAll_lookup w (OMap.values funds) st i c Hc) as Hr.
    fold rs in Hr. rewrite Hi in Hr. injection Hr as Hp.
    exists i, c, h. split; [done|]. split; [done|].
    split; [|by rewrite Hk].
    rewrite Hp in Hh. by apply list_elem_of_In. }
  split; [exact Ht|].
  intros c Hc. rewrite Forall_forall in Hall.
  destruct (Hall c Hc) as (cf & Hcf & Habout).
  unfold OMap.values in Hcf. apply list_elem_of_fmap in Hcf as ([n cf'] & -> & Hin).
  cbn [snd] in Habout.
  apply OMapFacts.get_Some_elem in Hin; [|done].
  destruct (Hsome _ _ Hin) as (_ & (mf & Hmf & Hts) & _).
  exists n, mf. split; [done|]. unfold about in Habout. by rewrite <- Hts.
Qed.

Lemma aggregation_consolidates_by_name_witness :
  exists body new,
    (topHoldingsPOST acmeWorld (Some "token") (Some twoFolios) coldServer).1 =
      TopOk body /\
    (t_totalPortfolioValue body == 400000 # 1)%Q /\
    t_totalFunds body = 2%nat /\
    trace (topHoldingsPOST acmeWorld (Some "token") (Some twoFolios) coldServer).2 =
      [CallRegistry "INF00A"; CallAdapter Groww "INF00A" "Fund A";
       CallRegistry "INF00B"; CallAdapter Groww "INF00B" "Fund B"] /\
    trace (topHoldingsPOST acmeWorld (Some "token") (Some twoFolios) coldServer).2 =
      [] ++ new /\
    (forall c, c ∈ new ->
       exists n mf, firstOfName n twoFolios = Some mf /\
                    callIdentifier c = Some (tradingsymbol mf)).
Proof.
  destruct (aggregation_consolidates_by_name acmeWorld coldServer (Some "token")
              twoFolios eq_refl)
    as (body & new & Hb & Htot & Hn & _ & _ & _ & Hst & _ & _ & Ht & Hc).
  exists body, new. split; [exact Hb|].
  split; [etrans; [exact Htot|]; vm_compute; reflexivity|].
  split; [exact Hn|].
  split; [rewrite Hst; vm_compute; reflexivity|].
  split; [exact Ht|exact Hc].
Defined.

(** The later folio's identifier is never used: the calls of the request
    are about INF00A and INF00B only, and the two folios of Fund A count as
    one fund worth 100,000. *)
Example later_identifier_discarded :
  let out := topHoldingsPOST acmeWorld (Some "token") (Some twoFolios) coldServer in
  trace out.2 =
    [CallRegistry "INF00A"; CallAdapter Groww "INF00A" "Fund A";
     CallRegistry "INF00B"; CallAdapter Groww "INF00B" "Fund B"] /\
  OMap.keys (consolidate twoFolios).1 = ["Fund A"; "Fund B"] /\
  map c_tradingsymbol (OMap.values (consolidate twoFolios).1) = ["INF00A"; "INF00B"].
Proof. vm_compute. repeat split. Qed.

(** ** C9: the visibility scheduler is single-flight *)

Module SchedulerFacts.

Import Scheduler.

(** [processBatch] either issues nothing, or finds the flag down and
    issues one call for indices taken from the pending set. *)
Lemma processBatch_cases closure s :
  (inflight (processBatch closure s) = inflight s /\
   isFetching (processBatch closure s) = isFetching s /\
   pendingIndices (processBatch closure s) = pendingIndices s /\
   mounted (processBatch closure s) = mounted s /\
   timers (processBatch closure s) = timers s) \/
  (isFetching s = false /\
   pendingIndices s ≠ [] /\
   mounted (processBatch closure s) = mounted s /\
   isFetching (processBatch closure s) = true /\
   timers (processBatch closure s) = timers s /\
   exists r,
     inflight (processBatch closure s) = inflight s ++ [r] /\
     req_id r = nextId s /\
     req_indices r ≠ [] /\
     (List.length (req_indices r) <= 10)%nat /\
     (forall i, i ∈ req_indices r -> i ∈ pendingIndices s)).
Proof.
  unfold processBatch.
  destruct (snap_fundData closure) as [hs|]; [|left; done].
  destruct (isFetching s) eqn:Hf; [left; done|].
  destruct (take 10 (filter _ (pendingIndices s))) as [|i0 more] eqn:Hind;
    [left; done|].
  destruct (omap (needsRatio hs) (i0 :: more)) as [|n0 ns] eqn:Hst; [left; done|].
  right. cbn [inflight isFetching pendingIndices mounted timers].
  split; [done|].
  assert (forall i, i ∈ i0 :: more -> i ∈ pendingIndices s) as Hsub.
  { intros i Hi. rewrite <- Hind in Hi.
    apply subseteq_take in Hi.
    by apply list_elem_of_filter in Hi as [_ Hi]. }
  split.
  { intros Hnil. specialize (Hsub i0 ltac:(by left)). rewrite Hnil in Hsub.
    by apply not_elem_of_nil in Hsub. }
  split; [done|]. split; [done|]. split; [done|].
  eexists. split; [reflexivity|]. cbn [req_id req_indices].
  split; [done|]. split; [done|]. split; [|exact Hsub].
  rewrite <- Hind. rewrite length_take. lia.
Qed.

Lemma inv_init : Inv init.
Proof.
  split; [simpl; lia|]. split; [|done].
  intros _. cbn. split; [discriminate|done].
Qed.

Lemma inv_processBatch closure s : Inv s -> Inv (processBatch closure s).
Proof.
  intros (Hlen & Hflag & Hgone).
  destruct (processBatch_cases closure s)
    as [(Hi & Hf & Hp & Hm & _)|(Hf & Hp & Hm & Hf' & _ & r & Hi & _)].
  - unfold Inv. by rewrite Hi, Hf, Hp, Hm.
  - destruct (mounted s) eqn:Hmounted.
    2:{ destruct (Hgone eq_refl) as [Hnil _]. done. }
    assert (inflight s = []) as Hnone.
    { destruct (inflight s) as [|r0 rs] eqn:Hin; [done|].
      exfalso. destruct (Hflag eq_refl) as [_ Hback].
      rewrite Hback in Hf; [discriminate|done]. }
    unfold Inv. rewrite Hi, Hnone, Hm, Hf'. cbn.
    split; [lia|]. split; [|discriminate].
    intros _. split; [discriminate|done].
Qed.

Lemma inv_settle r how s :
  Inv s -> r ∈ inflight s -> Inv (settle r how s) /\ inflight (settle r how s) = [].
Proof.
  intros (Hlen & Hflag & Hgone) Hr.
  assert (inflight s = [r]) as Hone.
  { destruct (inflight s) as [|r0 [|r1 rs]]; cbn in Hlen.
    - by apply not_elem_of_nil in Hr.
    - by apply list_elem_of_singleton in Hr as ->.
    - lia. }
  assert (inflight (settle r how s) = []) as Hnil.
  { cbn [settle inflight]. rewrite Hone.
    rewrite filter_cons_False; [done|]. by intros H. }
  split; [|exact Hnil].
  unfold Inv. rewrite Hnil. cbn [settle isFetching mounted pendingIndices].
  split; [simpl; lia|]. split.
  - intros _. split; [discriminate|done].
  - intros Hm. destruct (Hgone Hm) as [Hp _]. done.
Qed.

Lemma inv_step e s s' : Inv s -> step e s = Some s' -> Inv s'.
Proof.
  intros HI Hstep. destruct e as [hs c| |i closure|id|id how|]; cbn [step] in Hstep.
  - destruct (mounted s) eqn:Hm; [|discriminate]. injection Hstep as <-.
    destruct HI as (Hlen & Hflag & _). unfold Inv.
    cbn [fundLoaded inflight mounted isFetching pendingIndices]. rewrite Hm.
    split; [done|]. split; [intros _; by apply Hflag|discriminate].
  - destruct (mounted s) eqn:Hm; [|discriminate]. injection Hstep as <-.
    destruct HI as (Hlen & Hflag & _). unfold Inv.
    cbn [enablePELoading inflight mounted isFetching pendingIndices]. rewrite Hm.
    split; [done|]. split; [intros _; by apply Hflag|discriminate].
  - destruct (mounted s) eqn:Hm; [|discriminate]. injection Hstep as <-.
    unfold handleHoldingVisible.
    destruct (negb _); [exact HI|].
    destruct (bool_decide _); [exact HI|].
    destruct (Js.truthy_num _); [exact HI|].
    destruct HI as (Hlen & Hflag & _). unfold Inv. cbn [inflight mounted isFetching pendingIndices]. rewrite Hm.
    split; [done|]. split; [intros _; by apply Hflag|discriminate].
  - destruct (list_find _ (timers s)) as [[? [? closure]]|]; [|discriminate].
    injection Hstep as <-. apply inv_processBatch. exact HI.
  - destruct (list_find _ (inflight s)) as [[n r]|] eqn:Hfind; [|discriminate].
    apply list_find_Some in Hfind as (Hr & _ & _).
    apply list_elem_of_lookup_2 in Hr.
    assert (s' = settle r how s) as ->.
    { destruct how; try (by injection Hstep).
      destruct (req_aborted r); [by injection Hstep|discriminate]. }
    by apply inv_settle.
  - destruct (mounted s) eqn:Hm; [|discriminate]. injection Hstep as <-.
    destruct HI as (Hlen & _ & _). unfold Inv.
    cbn [unmount inflight mounted isFetching pendingIndices].
    split.
    + destruct (abortController s); [by rewrite length_map|done].
    + split; [discriminate|done].
Qed.

Lemma inv_run es s s' : Inv s -> run es s = Some s' -> Inv s'.
Proof.
  revert s. induction es as [|e es IH]; intros s HI; cbn [run].
  - by intros [= <-].
  - destruct (step e s) as [s1|] eqn:Hstep; [|discriminate].
    apply IH. by eapply inv_step.
Qed.

End SchedulerFacts.

Module SchedulerTheorems.

Import Scheduler SchedulerFacts.

(** What one turn of the event loop can do to the set of outstanding
    calls: keep the same calls, settle the outstanding one, or (only a
    timer, only when nothing is outstanding) issue one. *)
Lemma step_inflight e s s' :
  Inv s -> step e s = Some s' ->
  map req_id (inflight s') = map req_id (inflight s) \/
  (inflight s' = [] /\ exists id how, e = Settles id how) \/
  (inflight s = [] /\ isFetching s = false /\ (exists id, e = TimerFires id) /\
   exists r, inflight s' = [r] /\ (List.length (req_indices r) <= 10)%nat /\
             forall i, i ∈ req_indices r -> i ∈ pendingIndices s).
Proof.
  intros HI Hstep. destruct e as [hs c| |i closure|id|id how|]; cbn [step] in Hstep.
  - destruct (mounted s); [|discriminate]. injection Hstep as <-. by left.
  - destruct (mounted s); [|discriminate]. injection Hstep as <-. by left.
  - destruct (mounted s); [|discriminate]. injection Hstep as <-. left.
    unfold handleHoldingVisible.
    destruct (negb _); [done|]. destruct (bool_decide _); [done|].
    by destruct (Js.truthy_num _).
  - destruct (list_find _ (timers s)) as [[? [? closure]]|]; [|discriminate].
    injection Hstep as <-.
    match goal with
    | |- context [processBatch closure ?s0] => set (s1 := s0)
    end.
    destruct (processBatch_cases closure s1)
      as [(Hi & _)|(Hf & Hp & _ & _ & _ & r & Hi & _ & _ & Hlen & Hsub)].
    + left. by rewrite Hi.
    + right. right. cbn [s1 isFetching pendingIndices inflight] in *.
      destruct HI as (_ & Hflag & Hgone).
      assert (inflight s = []) as Hnone.
      { destruct (mounted s) eqn:Hm.
        - destruct (inflight s) as [|r0 rs] eqn:Hin; [done|].
          destruct (Hflag eq_refl) as [_ Hback].
          rewrite Hback in Hf; [discriminate|done].
        - by destruct (Hgone eq_refl). }
      split; [done|]. split; [done|]. split; [by exists id|].
      exists r. rewrite Hi, Hnone. done.
  - destruct (list_find _ (inflight s)) as [[n r]|] eqn:Hfind; [|discriminate].
    apply list_find_Some in Hfind as (Hr & _ & _).
    apply list_elem_of_lookup_2 in Hr.
    assert (s' = settle r how s) as ->.
    { destruct how; try (by injection Hstep).
      destruct (req_aborted r); [by injection Hstep|discriminate]. }
    right. left. split; [by apply inv_settle|]. by exists id, how.
  - destruct (mounted s); [|discriminate]. injection Hstep as <-. left.
    cbn [unmount inflight]. destruct (abortController s) as [id|]; [|done].
    rewrite map_map. apply map_ext. intros r. unfold abort.
    by destruct (decide _).
Qed.

(** C9.  In every state the modal can reach at most one batch call is
    outstanding.  While a call is outstanding, a row that becomes visible
    changes nothing but the pending set (and the debounce timer), and no
    turn of the event loop issues a call; a call is issued only by a
    timer firing while nothing is outstanding, for at most 10 indices
    taken from the pending set; and when the outstanding call settles
    with the pending set non-empty, a follow-up timer is armed. *)
Theorem scheduler_single_flight (s : Client) :
  reachable s ->
  (List.length (inflight s) <= 1)%nat /\
  (forall i closure s',
     inflight s ≠ [] -> step (Visible i closure) s = Some s' ->
     inflight s' = inflight s /\ isFetching s' = isFetching s /\
     fetchedIndices s' = fetchedIndices s /\
     (pendingIndices s' = pendingIndices s \/
      pendingIndices s' = set_add i (pendingIndices s))) /\
  (forall e s',
     inflight s ≠ [] -> step e s = Some s' ->
     inflight s' = [] \/ map req_id (inflight s') = map req_id (inflight s)) /\
  (forall e s',
     step e s = Some s' ->
     (List.length (inflight s) < List.length (inflight s'))%nat ->
     inflight s = [] /\ isFetching s = false /\ (exists id, e = TimerFires id) /\
     exists r, inflight s' = [r] /\ (List.length (req_indices r) <= 10)%nat /\
               forall i, i ∈ req_indices r -> i ∈ pendingIndices s) /\
  (forall id how s',
     step (Settles id how) s = Some s' ->
     inflight s' = [] /\ isFetching s' = false /\
     pendingIndices s' = pendingIndices s /\
     (pendingIndices s ≠ [] -> exists closure, (nextId s, closure) ∈ timers s')).
Proof.
  intros [es Hrun]. pose proof (inv_run es init s inv_init Hrun) as HI.
  split; [apply HI|].
  split.
  { intros i closure s' _ Hstep. cbn [step] in Hstep.
    destruct (mounted s); [|discriminate]. injection Hstep as <-.
    unfold handleHoldingVisible.
    destruct (negb _); [auto|]. destruct (bool_decide _); [auto|].
    destruct (Js.truthy_num _); [auto|].
    cbn [inflight isFetching fetchedIndices pendingIndices]. auto. }
  split.
  { intros e s' Hne Hstep.
    destruct (step_inflight e s s' HI Hstep) as [H|[[H _]|[H _]]]; auto.
    done. }
  split.
  { intros e s' Hstep Hlt.
    destruct (step_inflight e s s' HI Hstep) as [H|[[H _]|H]].
    - apply (f_equal List.length) in H. rewrite !length_map in H. lia.
    - rewrite H in Hlt. simpl in Hlt. lia.
    - exact H. }
  intros id how s' Hstep. cbn [step] in Hstep.
  destruct (list_find _ (inflight s)) as [[n r]|] eqn:Hfind; [|discriminate].
  apply list_find_Some in Hfind as (Hr & _ & _).
  apply list_elem_of_lookup_2 in Hr.
  assert (s' = settle r how s) as ->.
  { destruct how; try (by injection Hstep).
    destruct (req_aborted r); [by injection Hstep|discriminate]. }
  split; [by apply inv_settle|].
  cbn [settle isFetching pendingIndices timers].
  split; [done|]. split; [done|].
  intros Hne. exists (req_snap r).
  rewrite bool_decide_eq_false_2 by done. cbn [negb].
  apply elem_of_app. right. by apply list_elem_of_singleton.
Qed.

End SchedulerTheorems.

Module SchedulerExamples.

Import Scheduler SchedulerSamples SchedulerTheorems.

(** The burst yields one call carrying all five rows; the sixth row waits
    in the pending set while that call is out, and goes out in a second
    call once the first has settled. *)
Example burst_then_sixth_row :
  calls (run burst init) =
    Some [([0; 1; 2; 3; 4]%nat,
           ["Acme Ltd"; "Beta Ltd"; "Gamma Ltd"; "Delta Ltd"; "Epsilon Ltd"])] /\
  calls (run (burst ++ sixthRow) init) = calls (run burst init) /\
  pendingIndices <$> run (burst ++ sixthRow) init = Some [5%nat] /\
  calls (run (burst ++ sixthRow ++ followUp) init) =
    Some [([5%nat], ["Zeta Ltd"])].
Proof. vm_compute. repeat split. Qed.

Lemma scheduler_single_flight_witness :
  run (burst ++ sixthRow) init = Some afterSixth /\
  (List.length (inflight afterSixth) <= 1)%nat.
Proof.
  assert (run (burst ++ sixthRow) init = Some afterSixth) as Hrun
    by (vm_compute; reflexivity).
  split; [exact Hrun|].
  exact (proj1 (scheduler_single_flight afterSixth
                  (ex_intro _ (burst ++ sixthRow) Hrun))).
Defined.

End SchedulerExamples.

(** * Further properties of the code *)

(** ** Resolver and composition cache *)

Section ResolverMore.

Context (w : World).

(** Either no scraper of a list succeeds, or there is a first one that
    does. *)
Lemma first_success_cases isin0 fundName0 (l : list Scraper) :
  Forall (fun a => succeeds w isin0 fundName0 a = false) l \/
  exists pre s post p,
    l = pre ++ s :: post /\
    Forall (fun a => succeeds w isin0 fundName0 a = false) pre /\
    scrape_value w s isin0 fundName0 = Some p.
Proof.
  induction l as [|a l IH].
  - left. constructor.
  - destruct (succeeds w isin0 fundName0 a) eqn:Ha.
    + right. unfold succeeds in Ha.
      destruct (scrape_value w a isin0 fundName0) as [p|] eqn:Hp; [|discriminate].
      exists [], a, l, p. split; [done|]. split; [constructor|done].
    + destruct IH as [IH|(pre & s & post & p & -> & Hpre & Hp)].
      * left. by constructor.
      * right. exists (a :: pre), s, post, p. split; [done|].
        split; [by constructor|done].
Qed.

(** The rows a scraper keeps all have a positive weight. *)
Lemma scrape_value_rows s isin0 fundName0 p :
  scrape_value w s isin0 fundName0 = Some p ->
  Forall (fun h => (0 < h_percentage h)%Q) (holdings p) /\ error p = None.
Proof.
  unfold scrape_value.
  destruct (provider_reply w s isin0 fundName0) as [d|]; [|done].
  destruct (0 <? _)%nat; [|done]. intros [= <-].
  cbn [scraper_result holdings error]. split; [|done].
  apply Forall_forall. intros h Hh. apply list_elem_of_filter in Hh as [Hk _].
  assert (positive_weight h = true) as Hpos.
  { unfold keeps_row in Hk. destruct s; try done;
      apply andb_prop in Hk as [Hk _]; by apply andb_prop in Hk as [_ Hk]. }
  unfold positive_weight in Hpos. apply negb_true_iff in Hpos.
  destruct (Qlt_le_dec 0 (h_percentage h)) as [|Hle]; [done|].
  apply Qle_bool_iff in Hle. congruence.
Qed.

(** What a resolution that misses the cache amounts to. *)
Lemma fetchFundPortfolio_miss_cases isin0 fundName0 st :
  misses w isin0 st ->
  let st0 := (getCachedPortfolio w isin0 st).2 in
  (exists pre s post p,
     SCRAPER_ORDER = pre ++ s :: post /\
     scrape_value w s isin0 fundName0 = Some p /\
     fetchFundPortfolio w isin0 fundName0 st =
       (overlay (mfapi_reply w isin0) p fundName0,
        withPortfolioCache
          (<[isin0 := {| ce_data := overlay (mfapi_reply w isin0) p fundName0;
                         ce_timestamp := clock w (ticks st0) |}]>
             (portfolioCache st0))
          (tick (logged (CallRegistry isin0 ::
                         map (adapterCall isin0 fundName0) (pre ++ [s])) st0)))) \/
  fetchFundPortfolio w isin0 fundName0 st =
    (noData w (mfapi_reply w isin0) isin0 fundName0,
     logged (CallRegistry isin0 ::
             map (adapterCall isin0 fundName0) SCRAPER_ORDER) st0).
Proof.
  intros Hmiss st0.
  destruct (first_success_cases isin0 fundName0 SCRAPER_ORDER)
    as [Hall|(pre & s & post & p & Hord & Hpre & Hp)].
  - right. by apply fetchFundPortfolio_failure.
  - left. exists pre, s, post, p. split; [done|]. split; [done|].
    by apply (fetchFundPortfolio_success w pre s post p).
Qed.

End ResolverMore.

(** X1.  If every composition in the cache has at least one constituent
    before a resolution, the same holds after it, and the resolution
    returns an empty composition only as the explicit no-data result, with
    the fixed error text and the sentinel source, and only after the cache
    lookup missed and the registry and then every adapter, in priority
    order, were called and no adapter came back with a constituent. *)
Theorem resolver_keeps_cache_populated (w : World) (st : Server)
    (isin0 fundName0 : string) :
  CachePopulated st ->
  let out := fetchFundPortfolio w isin0 fundName0 st in
  CachePopulated out.2 /\
  (holdings out.1 = [] ->
   error out.1 = Some NO_DATA_ERROR /\ source out.1 = NO_DATA_SOURCE /\
   misses w isin0 st /\
   trace out.2 =
     trace st ++ CallRegistry isin0 ::
       map (fun s => CallAdapter s isin0 fundName0) SCRAPER_ORDER /\
   (forall s st' p, s ∈ SCRAPER_ORDER ->
      (scrape w s isin0 fundName0 st').1 = Returned (Some p) ->
      holdings p = [])).
Proof.
  intros Hpop out. subst out.
  assert (CachePopulated (getCachedPortfolio w isin0 st).2) as Hpop0.
  { destruct (getCachedPortfolio_state w isin0 st) as (_ & _ & [Hc|[Hc _]]);
      intros k e; rewrite Hc; [apply Hpop|].
    intros Hk. apply lookup_delete_Some in Hk as [_ Hk]. by apply (Hpop k). }
  destruct (getCachedPortfolio w isin0 st).1 as [p|] eqn:Hget.
  - rewrite (fetchFundPortfolio_hit w isin0 fundName0 st p Hget). cbn [fst snd].
    split; [exact Hpop0|]. intros Hempty. exfalso.
    destruct (portfolioCache st !! isin0) as [e|] eqn:He.
    + destruct (Z_le_gt_dec (clock w (ticks st) - ce_timestamp e) CACHE_TTL).
      * rewrite (getCachedPortfolio_fresh w _ _ _ He) in Hget by done.
        injection Hget as <-. by apply (Hpop _ _ He).
      * rewrite (getCachedPortfolio_expired w _ _ _ He) in Hget by lia. done.
    + rewrite (getCachedPortfolio_absent w _ _ He) in Hget. done.
  - destruct (first_success_cases w isin0 fundName0 SCRAPER_ORDER)
      as [Hall|(pre & s & post & p & Hord & Hpre & Hp)].
    + rewrite (fetchFundPortfolio_failure w isin0 fundName0 st Hget Hall).
      cbn [fst snd]. split; [exact Hpop0|]. intros _.
      split; [done|]. split; [done|]. split; [done|]. split.
      * cbn [logged trace].
        by destruct (getCachedPortfolio_state w isin0 st) as (-> & _).
      * intros s st' p Hs Hret. rewrite scrape_run in Hret. cbn [fst] in Hret.
        injection Hret as Hp. rewrite Forall_forall in Hall.
        specialize (Hall s Hs). unfold succeeds in Hall. rewrite Hp in Hall.
        apply Nat.ltb_ge in Hall. destruct (holdings p); [done|].
        simpl in Hall. lia.
    + rewrite (fetchFundPortfolio_success w pre s post p isin0 fundName0 st)
        by done.
      cbn [fst snd].
      pose proof (scrape_value_populated w _ _ _ _ Hp) as Hs.
      unfold succeeds in Hs. rewrite Hp in Hs. apply Nat.ltb_lt in Hs.
      assert (holdings p ≠ []) as Hne by (intros E; rewrite E in Hs; simpl in Hs; lia).
      split.
      * intros k e. cbn [withPortfolioCache portfolioCache].
        intros Hk. apply lookup_insert_Some in Hk as [[_ <-]|[_ Hk]].
        -- exact Hne.
        -- by apply (Hpop0 k).
      * cbn [overlay holdings]. done.
Qed.

Lemma resolver_keeps_cache_populated_witness :
  CachePopulated
    (fetchFundPortfolio tickertapeOnly "INF001" "Axis Bluechip" coldServer).2 /\
  trace (fetchFundPortfolio quietWorld "INF001" "Axis Bluechip" coldServer).2 =
    [CallRegistry "INF001";
     CallAdapter Groww "INF001" "Axis Bluechip";
     CallAdapter Tickertape "INF001" "Axis Bluechip";
     CallAdapter Moneycontrol "INF001" "Axis Bluechip";
     CallAdapter ValueResearch "INF001" "Axis Bluechip";
     CallAdapter ETMoney "INF001" "Axis Bluechip"].
Proof.
  split.
  - apply (resolver_keeps_cache_populated tickertapeOnly coldServer "INF001"
             "Axis Bluechip").
    intros k e Hk. vm_compute in Hk. discriminate.
  - destruct (resolver_keeps_cache_populated quietWorld coldServer "INF001"
                "Axis Bluechip") as [_ Hempty].
    { intros k e Hk. vm_compute in Hk. discriminate. }
    destruct (Hempty eq_refl) as (_ & _ & _ & Ht & _). exact Ht.
Defined.

(** X2.  A resolution that finds an expired entry goes on exactly as one
    that finds no entry: same composition returned, same outbound calls
    (the registry first, then the first adapter, ...), and afterwards the
    same compositions cached under the same identifiers. *)
Theorem expired_entry_resolves_like_absent (w : World) (st : Server)
    (isin0 fundName0 : string) (e : CacheEntry) :
  portfolioCache st !! isin0 = Some e ->
  (clock w (ticks st) - ce_timestamp e > CACHE_TTL)%Z ->
  let stale := fetchFundPortfolio w isin0 fundName0 st in
  let absent := fetchFundPortfolio w isin0 fundName0 (withoutEntry isin0 st) in
  stale.1 = absent.1 /\
  trace stale.2 = trace absent.2 /\
  (exists new, trace stale.2 =
     trace st ++ CallRegistry isin0 :: CallAdapter Groww isin0 fundName0 :: new) /\
  (forall k, ce_data <$> portfolioCache stale.2 !! k =
             ce_data <$> portfolioCache absent.2 !! k).
Proof.
  intros He Hgt stale absent.
  assert (misses w isin0 st) as Hm1.
  { unfold misses. by rewrite (getCachedPortfolio_expired w _ _ _ He) by lia. }
  assert (portfolioCache (withoutEntry isin0 st) !! isin0 = None) as Hnone
    by apply lookup_delete_eq.
  assert (misses w isin0 (withoutEntry isin0 st)) as Hm2.
  { unfold misses. by rewrite (getCachedPortfolio_absent w _ _ Hnone). }
  subst stale absent.
  destruct (first_success_cases w isin0 fundName0 SCRAPER_ORDER)
    as [Hall|(pre & s & post & p & Hord & Hpre & Hp)].
  - rewrite !(fetchFundPortfolio_failure w) by done.
    rewrite (getCachedPortfolio_expired w _ _ _ He) by lia.
    rewrite (getCachedPortfolio_absent w _ _ Hnone). cbn.
    split; [done|]. split; [done|]. split; [by eexists|done].
  - rewrite !(fetchFundPortfolio_success w pre s post p) by done.
    rewrite (getCachedPortfolio_expired w _ _ _ He) by lia.
    rewrite (getCachedPortfolio_absent w _ _ Hnone).
    cbn [fst snd withPortfolioCache withoutEntry tick logged trace portfolioCache].
    split; [done|]. split; [done|]. split.
    + destruct pre as [|a pre].
      * cbn in Hord. injection Hord as <- _. cbn. by eexists.
      * cbn in Hord. injection Hord as <- _. cbn. by eexists.
    + intros k. destruct (decide (k = isin0)) as [->|Hk].
      * by rewrite !lookup_insert_eq.
      * by rewrite !lookup_insert_ne.
Qed.

Lemma expired_entry_resolves_like_absent_witness :
  (fetchFundPortfolio lateWorld "INF001" "Old" staleServer).1 =
  (fetchFundPortfolio lateWorld "INF001" "Old" (withoutEntry "INF001" staleServer)).1.
Proof.
  refine (proj1 (expired_entry_resolves_like_absent lateWorld staleServer
                   "INF001" "Old" {| ce_data := staleEntry; ce_timestamp := 0 |}
                   eq_refl _)).
  vm_compute. reflexivity.
Defined.

(** X3.  A composition obtained by a resolution that missed the cache has
    only constituents of positive weight: every adapter drops the rows
    whose weight is zero, negative or unreadable. *)
Theorem fresh_resolution_has_positive_weights (w : World) (st : Server)
    (isin0 fundName0 : string) :
  misses w isin0 st ->
  let out := fetchFundPortfolio w isin0 fundName0 st in
  Forall (fun h => (0 < h_percentage h)%Q) (holdings out.1).
Proof.
  intros Hmiss out. subst out.
  destruct (fetchFundPortfolio_miss_cases w isin0 fundName0 st Hmiss)
    as [(pre & s & post & p & _ & Hp & ->)| ->]; cbn [fst overlay noData holdings].
  - by apply (scrape_value_rows w s isin0 fundName0 p).
  - constructor.
Qed.

Lemma fresh_resolution_has_positive_weights_witness :
  Forall (fun h => (0 < h_percentage h)%Q)
    (holdings (fetchFundPortfolio tickertapeOnly "INF001" "Axis Bluechip"
                 coldServer).1).
Proof.
  apply (fresh_resolution_has_positive_weights tickertapeOnly coldServer
           "INF001" "Axis Bluechip").
  reflexivity.
Defined.

(** ** Ratio cache and batch endpoint *)

Section RatioCacheMore.

Context (w : World).

Lemma cachePE_run n data st :
  cachePE w n data st =
    (tt, withPeCache
           (<[peKey n := {| pce_pe := pe_pe data; pce_marketCap := pe_marketCap data;
                            pce_symbol := pe_symbol data;
                            pce_timestamp := clock w (ticks st) |}]> (peCache st))
           (tick st)).
Proof. reflexivity. Qed.

Lemma getCachedPE_absent n st :
  peCache st !! peKey n = None -> getCachedPE w n st = (None, st).
Proof.
  intros H. unfold getCachedPE. fold (peKey n). rewrite bind_run.
  cbn [getPeCache fst snd]. by rewrite H.
Qed.

Lemma getCachedPE_fresh n st e :
  peCache st !! peKey n = Some e ->
  (clock w (ticks st) - pce_timestamp e <= PE_CACHE_TTL)%Z ->
  getCachedPE w n st = (Some e, tick st).
Proof.
  intros H Hle. unfold getCachedPE. fold (peKey n). rewrite bind_run.
  cbn [getPeCache fst snd]. rewrite H, bind_run. cbn [dateNow fst snd].
  destruct (Z.gtb_spec (clock w (ticks st) - pce_timestamp e) PE_CACHE_TTL);
    [lia|done].
Qed.

Lemma getCachedPE_expired n st e :
  peCache st !! peKey n = Some e ->
  (clock w (ticks st) - pce_timestamp e > PE_CACHE_TTL)%Z ->
  getCachedPE w n st =
    (None, withPeCache (delete (peKey n) (peCache st)) (tick st)).
Proof.
  intros H Hgt. unfold getCachedPE. fold (peKey n). rewrite bind_run.
  cbn [getPeCache fst snd]. rewrite H, bind_run. cbn [dateNow fst snd].
  destruct (Z.gtb_spec (clock w (ticks st) - pce_timestamp e) PE_CACHE_TTL);
    [|lia].
  rewrite bind_run. reflexivity.
Qed.

(** A lookup leaves the ratio cache alone, or answers nothing and deletes
    the key it looked up. *)
Lemma getCachedPE_effect n st :
  peCache (getCachedPE w n st).2 = peCache st \/
  ((getCachedPE w n st).1 = None /\
   peCache (getCachedPE w n st).2 = delete (peKey n) (peCache st)).
Proof.
  destruct (peCache st !! peKey n) as [e|] eqn:He.
  - destruct (Z_le_gt_dec (clock w (ticks st) - pce_timestamp e) PE_CACHE_TTL).
    + rewrite (getCachedPE_fresh _ _ _ He) by done. by left.
    + rewrite (getCachedPE_expired _ _ _ He) by lia. by right.
  - rewrite (getCachedPE_absent _ _ He). by left.
Qed.

Lemma batchLookup_run n st :
  batchLookup w n st = ((n, (getCachedPE w n st).1), (getCachedPE w n st).2).
Proof. unfold batchLookup. rewrite bind_run. reflexivity. Qed.

(** A key bound before the lookups is still bound after them, unless the
    lookup of some name with that key answered nothing. *)
Lemma lookups_keep_or_miss names st k :
  is_Some (peCache st !! k) ->
  is_Some (peCache (mapM (batchLookup w) names st).2 !! k) \/
  exists n, (n, None) ∈ (mapM (batchLookup w) names st).1 /\ peKey n = k.
Proof.
  revert st. induction names as [|n names IH]; intros st Hk.
  - by left.
  - rewrite mapM_cons_run, batchLookup_run. cbn [fst snd].
    destruct (getCachedPE_effect n st) as [Hc|[Hnone Hc]].
    + destruct (IH (getCachedPE w n st).2) as [H|(m & Hm & Hkm)].
      * by rewrite Hc.
      * by left.
      * right. exists m. split; [by right|done].
    + destruct (decide (peKey n = k)) as [Hnk|Hnk].
      * right. exists n. rewrite Hnone. split; [by left|done].
      * destruct (IH (getCachedPE w n st).2) as [H|(m & Hm & Hkm)].
        -- rewrite Hc. by rewrite lookup_delete_ne.
        -- by left.
        -- right. exists m. split; [by right|done].
Qed.

(** After the lookups, the key of every name looked up is bound, or the
    lookup of some name with that key answered nothing. *)
Lemma lookups_cover names st n :
  n ∈ names ->
  is_Some (peCache (mapM (batchLookup w) names st).2 !! peKey n) \/
  exists m, (m, None) ∈ (mapM (batchLookup w) names st).1 /\ peKey m = peKey n.
Proof.
  revert st. induction names as [|n0 names IH]; intros st Hin.
  - by apply not_elem_of_nil in Hin.
  - rewrite mapM_cons_run, batchLookup_run. cbn [fst snd].
    apply elem_of_cons in Hin as [->|Hin].
    + destruct (getCachedPE w n0 st).1 as [e|] eqn:Hres.
      * destruct (getCachedPE_run w n0 st) as (_ & _ & Hhit).
        specialize (Hhit e Hres).
        destruct (getCachedPE_effect n0 st) as [Hc|[Hnone _]]; [|congruence].
        destruct (lookups_keep_or_miss names (getCachedPE w n0 st).2 (peKey n0))
          as [H|(m & Hm & Hkm)].
        -- by rewrite Hc, Hhit.
        -- by left.
        -- right. exists m. split; [by right|done].
      * right. exists n0. split; [by left|done].
    + destruct (IH (getCachedPE w n0 st).2 Hin) as [H|(m & Hm & Hkm)].
      * by left.
      * right. exists m. split; [by right|done].
Qed.

Lemma batchResolve_cache p st :
  peCache (batchResolve w p st).2 =
    match p.2 with
    | Some _ => peCache st
    | None =>
        <[peKey p.1 :=
            {| pce_pe := pe_pe (lookupPE w p.1);
               pce_marketCap := pe_marketCap (lookupPE w p.1);
               pce_symbol := pe_symbol (lookupPE w p.1);
               pce_timestamp := clock w (ticks st) |}]> (peCache st)
    end.
Proof.
  destruct p as [n [e|]]; cbn [batchResolve fst snd]; [done|].
  rewrite bind_run, fetchStockPE_run. cbn [fst snd].
  rewrite bind_run, cachePE_run. reflexivity.
Qed.

(** The second half of the callbacks binds the key of every name whose
    lookup answered nothing, and unbinds nothing. *)
Lemma resolves_bind lookups st k :
  is_Some (peCache st !! k) \/ (exists n, (n, None) ∈ lookups /\ peKey n = k) ->
  is_Some (peCache (mapM (batchResolve w) lookups st).2 !! k).
Proof.
  revert st. induction lookups as [|p lookups IH]; intros st H.
  - destruct H as [H|(n & Hn & _)]; [done|]. by apply not_elem_of_nil in Hn.
  - rewrite mapM_cons_run. cbn [snd]. apply IH.
    rewrite batchResolve_cache.
    destruct H as [H|(n & Hn & Hk)].
    + left. destruct p.2; [done|]. apply lookup_insert_is_Some'. by right.
    + apply elem_of_cons in Hn as [<-|Hn].
      * left. cbn [fst snd]. rewrite Hk. apply lookup_insert_is_Some'. by left.
      * right. by exists n.
Qed.

End RatioCacheMore.

(** X4.  What [cachePE] stores under a name, [getCachedPE] returns under
    any name with the same lower-cased, trimmed form, as long as the read
    comes at most 24 hours after the write; a later read returns nothing and
    deletes the entry.  Neither makes an outbound call. *)
Theorem pe_cache_round_trip (w : World) (st : Server) (n n' : string)
    (data : PEData) :
  Js.trim (Js.toLowerCase n') = Js.trim (Js.toLowerCase n) ->
  let st1 := (cachePE w n data st).2 in
  let elapsed := (clock w (ticks st1) - clock w (ticks st))%Z in
  let got := getCachedPE w n' st1 in
  trace got.2 = trace st /\
  ((elapsed <= PE_CACHE_TTL)%Z ->
     exists e, got.1 = Some e /\ pce_pe e = pe_pe data /\
       pce_marketCap e = pe_marketCap data /\ pce_symbol e = pe_symbol data /\
       peCache got.2 = peCache st1) /\
  ((elapsed > PE_CACHE_TTL)%Z ->
     got.1 = None /\ peCache got.2 !! Js.trim (Js.toLowerCase n) = None).
Proof.
  intros Hkey st1 elapsed got.
  fold (peKey n') in Hkey. fold (peKey n) in Hkey |- *.
  assert (peCache st1 !! peKey n' =
            Some {| pce_pe := pe_pe data; pce_marketCap := pe_marketCap data;
                    pce_symbol := pe_symbol data;
                    pce_timestamp := clock w (ticks st) |}) as Hentry.
  { subst st1. rewrite cachePE_run, Hkey. cbn. apply lookup_insert_eq. }
  split.
  { destruct (getCachedPE_run w n' st1) as (Ht & _). subst got. rewrite Ht.
    subst st1. by rewrite cachePE_run. }
  split.
  - intros Hle. subst got.
    rewrite (getCachedPE_fresh w n' st1 _ Hentry) by exact Hle.
    eexists. split; [reflexivity|]. done.
  - intros Hgt. subst got.
    rewrite (getCachedPE_expired w n' st1 _ Hentry) by exact Hgt.
    cbn. split; [done|]. rewrite <- Hkey. apply lookup_delete_eq.
Qed.

Lemma pe_cache_round_trip_witness :
  exists e,
    (getCachedPE quietWorld "ACME LTD "
       (cachePE quietWorld " Acme Ltd" acmeData coldServer).2).1 = Some e /\
    pce_pe e = Some (22 # 1).
Proof.
  destruct (pe_cache_round_trip quietWorld coldServer " Acme Ltd" "ACME LTD "
              acmeData eq_refl) as (_ & Hhit & _).
  destruct Hhit as (e & He & Hpe & _); [vm_compute; discriminate|].
  exists e. split; [exact He|exact Hpe].
Defined.

(** X5.  After a batch request every processed name has an entry in the
    ratio cache, whether it was answered from the cache, found by a
    provider, or not found at all: what the lookup obtained is cached even
    when it is nothing. *)
Theorem batch_caches_every_processed_name (w : World) (st : Server)
    (names : list string) (n : string) :
  n ∈ take 10 names ->
  is_Some (peCache (batchPOST w (Some names) st).2 !! Js.trim (Js.toLowerCase n)).
Proof.
  intros Hin. fold (peKey n). cbn [batchPOST].
  unfold Js.slice0, BATCH_LIMIT. rewrite !bind_run. cbn [ret snd].
  apply resolves_bind. by apply lookups_cover.
Qed.

Lemma batch_caches_every_processed_name_witness :
  is_Some (peCache (batchPOST quietWorld (Some ["Unknown Co"]) coldServer).2
             !! "unknown co").
Proof.
  apply (batch_caches_every_processed_name quietWorld coldServer
           ["Unknown Co"] "Unknown Co").
  by left.
Defined.

(** The response of a batch request names the first ten names, in order. *)
Lemma ratio_batch_names (w : World) (st : Server) (names : list string) :
  exists rs,
    (batchPOST w (Some names) st).1 = BatchResults rs /\
    map r_name rs = take 10 names.
Proof.
  cbn [batchPOST]. unfold Js.slice0, BATCH_LIMIT. rewrite !bind_run.
  cbn [ret fst app].
  destruct (mapM_batchLookup w (take 10 names) st) as (Hn & _).
  destruct (mapM_batchResolve w (mapM (batchLookup w) (take 10 names) st).1
              (mapM (batchLookup w) (take 10 names) st).2) as (Hr & _).
  eexists. split; [reflexivity|]. rewrite Hr, map_map.
  etrans; [|exact Hn]. apply map_ext. intros [n [e|]]; reflexivity.
Qed.

Section SteadyBatch.

Context (w : World).
Context (Hsteady : steadyClock w).

Lemma getCachedPE_steady n st :
  PeFresh w st ->
  (getCachedPE w n st).1 = peCache st !! peKey n /\
  peCache (getCachedPE w n st).2 = peCache st.
Proof.
  intros Hfresh. destruct (peCache st !! peKey n) as [e|] eqn:He.
  - rewrite (getCachedPE_fresh w _ _ _ He) by (by eapply Hfresh). done.
  - by rewrite (getCachedPE_absent w _ _ He).
Qed.

Lemma lookups_steady names st :
  PeFresh w st ->
  (mapM (batchLookup w) names st).1 =
    map (fun n => (n, peCache st !! peKey n)) names /\
  peCache (mapM (batchLookup w) names st).2 = peCache st.
Proof.
  revert st. induction names as [|n names IH]; intros st Hfresh; [done|].
  rewrite mapM_cons_run, batchLookup_run. cbn [fst snd map].
  destruct (getCachedPE_steady n st Hfresh) as [Hres Hc].
  assert (PeFresh w (getCachedPE w n st).2) as Hfresh'.
  { intros k e. rewrite Hc. apply Hfresh. }
  destruct (IH _ Hfresh') as [Hl Hc']. rewrite Hl, Hc', Hres, Hc. done.
Qed.

Lemma resolves_steady lookups st :
  PeFresh w st -> PeFresh w (mapM (batchResolve w) lookups st).2.
Proof.
  revert st. induction lookups as [|p lookups IH]; intros st Hfresh; [done|].
  rewrite mapM_cons_run. cbn [snd]. apply IH.
  intros k e. rewrite batchResolve_cache. destruct p.2; [apply Hfresh|].
  intros Hk. apply lookup_insert_Some in Hk as [[_ <-]|[_ Hk]].
  - intros i. cbn. apply Hsteady.
  - by apply (Hfresh k).
Qed.

Lemma batch_steady names st :
  PeFresh w st ->
  PeFresh w (batchPOST w (Some names) st).2 /\
  forall n, n ∈ take 10 names ->
    is_Some (peCache (batchPOST w (Some names) st).2 !! peKey n).
Proof.
  intros Hfresh. cbn [batchPOST]. unfold Js.slice0, BATCH_LIMIT.
  rewrite !bind_run. cbn [ret snd]. split.
  - apply resolves_steady. intros k e.
    destruct (lookups_steady (take 10 names) st Hfresh) as [_ ->]. apply Hfresh.
  - intros n Hn. apply resolves_bind. by apply lookups_cover.
Qed.

End SteadyBatch.

(** X6.  As long as nothing in the ratio cache expires, repeating a batch
    request makes no provider call at all: every name of the second request
    is answered from the cache, found or not. *)
Theorem repeated_batch_is_served_from_cache (w : World) (st : Server)
    (names : list string) :
  steadyClock w ->
  PeFresh w st ->
  let first := batchPOST w (Some names) st in
  let second := batchPOST w (Some names) first.2 in
  trace second.2 = trace first.2 /\
  exists rs1 rs2,
    first.1 = BatchResults rs1 /\ second.1 = BatchResults rs2 /\
    map r_name rs2 = map r_name rs1.
Proof.
  intros Hsteady Hfresh first second.
  destruct (batch_steady w Hsteady names st Hfresh) as [Hfresh1 Hbound].
  fold first in Hfresh1, Hbound.
  destruct (ratio_batch_names w st names) as (rs1 & Hr1 & Hn1).
  destruct (ratio_batch_names w first.2 names) as (rs2 & Hr2 & Hn2).
  fold first in Hr1. fold second in Hr2.
  split.
  - subst second. cbn [batchPOST]. unfold Js.slice0, BATCH_LIMIT.
    rewrite !bind_run. cbn [ret snd].
    destruct (mapM_batchLookup w (take 10 names) first.2) as (_ & Ht & _).
    destruct (mapM_batchResolve w
                (mapM (batchLookup w) (take 10 names) first.2).1
                (mapM (batchLookup w) (take 10 names) first.2).2) as (_ & Htr).
    rewrite Htr, Ht.
    destruct (lookups_steady w (take 10 names) first.2 Hfresh1) as [-> _].
    assert (List.concat
              (map (callsOf w)
                 (map (fun n => (n, peCache first.2 !! peKey n)) (take 10 names)))
            = []) as ->; [|by rewrite app_nil_r].
    assert (forall l, (forall n, n ∈ l -> is_Some (peCache first.2 !! peKey n)) ->
              List.concat
                (map (callsOf w)
                   (map (fun n => (n, peCache first.2 !! peKey n)) l)) = [])
      as Hnil.
    { induction l as [|n l IH]; intros Hl; [done|]. cbn [map List.concat].
      rewrite IH by (intros m Hm; apply Hl; by right).
      destruct (Hl n ltac:(by left)) as [e He]. unfold callsOf. cbn [snd].
      by rewrite He. }
    by apply Hnil.
  - exists rs1, rs2. split; [done|]. split; [done|]. by rewrite Hn1, Hn2.
Qed.

Lemma repeated_batch_is_served_from_cache_witness :
  trace (batchPOST lateWorld (Some ["Acme Ltd"; "7.26% GOI 2033"])
           (batchPOST lateWorld (Some ["Acme Ltd"; "7.26% GOI 2033"]) coldServer).2).2 =
  trace (batchPOST lateWorld (Some ["Acme Ltd"; "7.26% GOI 2033"]) coldServer).2.
Proof.
  refine (proj1 (repeated_batch_is_served_from_cache lateWorld coldServer
                   ["Acme Ltd"; "7.26% GOI 2033"] _ _)).
  - intros i j. vm_compute. discriminate.
  - intros k e Hk. vm_compute in Hk. discriminate.
Defined.

(** ** Ratio enricher *)

(** X7.  [fetchStockPE] asks about nothing but the name it is given, and
    the secondary provider comes second: it is asked only after the primary
    one, and only in a lookup whose answer carries no ratio.  An answer
    without a ratio carries at most a ticker: no ratio and no
    capitalization band. *)
Theorem stock_pe_fallback_discipline (w : World) (st : Server) (n : string) :
  let out := fetchStockPE w n st in
  exists new,
    trace out.2 = trace st ++ new /\
    (forall c, c ∈ new -> ratioCallFor n c) /\
    (forall pre post, new = pre ++ CallNSE n :: post ->
       CallScreener n ∈ pre /\ Js.truthy_num (pe_pe out.1) = false) /\
    (Js.truthy_num (pe_pe out.1) = false ->
       pe_pe out.1 = None /\ pe_marketCap out.1 = None).
Proof.
  intros out. subst out. rewrite fetchStockPE_run. cbn [fst snd logged trace].
  exists (peCalls w n). split; [done|].
  split; [intros c Hc; by apply (peCalls_for w)|].
  unfold lookupPE, peCalls. destruct (primaryFound w n) eqn:Hfound.
  - split.
    + intros pre post Heq. exfalso.
      destruct pre as [|c [|c' pre]]; [discriminate|discriminate|discriminate].
    + intros Hno. unfold primaryFound in Hfound.
      destruct (screener_reply w n) as [d|]; [|discriminate].
      cbn in Hno. congruence.
  - split.
    + intros pre post Heq.
      destruct pre as [|c [|c' pre]]; [discriminate| |].
      * injection Heq as <- _. split; [by left|].
        by destruct (Js.truthy_str (nse_reply w n)).
      * injection Heq as _ Heq. by destruct pre.
    + intros _. by destruct (Js.truthy_str (nse_reply w n)).
Qed.

(** X10.  Bulk enrichment returns one holding per input holding, in order,
    with name, weight, sector and value untouched; it never removes a
    ratio, ticker or capitalization band a holding already had, and a
    holding about which both providers know nothing comes back unchanged. *)
Theorem bulk_enrichment_preserves_rows (w : World) (st : Server)
    (hs : list FundHolding) :
  let out := enrichHoldingsWithPE w hs st in
  List.length out.1 = List.length hs /\
  forall i h, hs !! i = Some h ->
    exists h', out.1 !! i = Some h' /\
      h_name h' = h_name h /\ h_percentage h' = h_percentage h /\
      h_sector h' = h_sector h /\ h_value h' = h_value h /\
      (Js.truthy_num (h_pe h) = true -> Js.truthy_num (h_pe h') = true) /\
      (Js.truthy_str (h_symbol h) = true -> Js.truthy_str (h_symbol h') = true) /\
      (Js.truthy_str (h_marketCap h) = true ->
       Js.truthy_str (h_marketCap h') = true) /\
      (lookupPE w (h_name h) = emptyPE -> h' = h).
Proof.
  intros out. subst out. unfold enrichHoldingsWithPE.
  rewrite enrichLoop_run by done. cbn [fst app].
  split; [by rewrite length_map|].
  intros i h Hi. exists (enrichPure w h). split.
  { change (map (enrichPure w) hs) with (enrichPure w <$> hs).
    by rewrite list_lookup_fmap, Hi. }
  unfold enrichPure. destruct (isDebtInstrument (h_name h)); [by repeat split|].
  cbn [h_name h_percentage h_sector h_value h_pe h_symbol h_marketCap].
  repeat split.
  - unfold Js.or_num. intros Hpe.
    by destruct (Js.truthy_num (pe_pe (lookupPE w (h_name h)))) eqn:E.
  - unfold Js.or_str. intros Hs.
    by destruct (Js.truthy_str (pe_symbol (lookupPE w (h_name h)))) eqn:E.
  - unfold Js.or_str. intros Hs.
    by destruct (Js.truthy_str (pe_marketCap (lookupPE w (h_name h)))) eqn:E.
  - intros ->. by destruct h.
Qed.

Section SubstringFacts.

Lemma toLowerCase_app (a b : string) :
  Js.toLowerCase (a ++ b)%string = (Js.toLowerCase a ++ Js.toLowerCase b)%string.
Proof.
  induction a as [|c a IH]; [done|].
  simpl. by rewrite IH.
Qed.

Lemma prefix_app (k s b : string) :
  String.prefix k s = true -> String.prefix k (s ++ b)%string = true.
Proof.
  revert k. induction s as [|c' s IH]; intros k.
  - destruct k; [|discriminate]. intros _. by destruct b.
  - destruct k as [|c k]; [done|]. simpl.
    destruct (ascii_dec c c'); [apply IH|done].
Qed.

Lemma includes_app_r (s b kw : string) :
  Js.includes s kw = true -> Js.includes (s ++ b)%string kw = true.
Proof.
  induction s as [|c s IH].
  - destruct kw; [|discriminate]. intros _. by destruct b.
  - intros H. apply orb_true_iff in H as [H|H].
    + apply orb_true_iff. left. by apply (prefix_app _ (String c s)).
    + apply orb_true_iff. right. by apply IH.
Qed.

Lemma includes_app_l (a s kw : string) :
  Js.includes s kw = true -> Js.includes (a ++ s)%string kw = true.
Proof.
  intros H. induction a as [|c a IH]; [done|].
  simpl. apply orb_true_iff. by right.
Qed.

End SubstringFacts.

(** X11.  The fixed-income heuristic is a keyword search inside the name:
    if a name matches it, so does every name that contains it, whatever
    comes before or after. *)
Theorem debt_heuristic_is_substring_match (n a b : string) :
  isDebtInstrument n = true ->
  isDebtInstrument (a ++ n ++ b)%string = true.
Proof.
  unfold isDebtInstrument. rewrite !toLowerCase_app.
  intros H. apply existsb_exists in H as (kw & Hkw & Hinc).
  apply existsb_exists. exists kw. split; [done|].
  by apply includes_app_l, includes_app_r.
Qed.

Lemma debt_heuristic_is_substring_match_witness :
  isDebtInstrument ("91 Day " ++ "T-Bill" ++ " 2024")%string = true.
Proof.
  apply (debt_heuristic_is_substring_match "T-Bill" "91 Day " " 2024").
  reflexivity.
Defined.

(** ** Aggregation engine *)

Section AggregationMore.

Local Open Scope Q_scope.

Lemma sumQ_perm (l l' : list Q) : l ≡ₚ l' -> sumQ l == sumQ l'.
Proof.
  induction 1 as [|x l l' _ IH|x y l|l l' l'' _ IH1 _ IH2]; cbn [sumQ fold_right].
  - reflexivity.
  - fold (sumQ l) (sumQ l'). rewrite IH. reflexivity.
  - ring.
  - by rewrite IH1.
Qed.

Lemma insertByWeight_descending x l :
  descending l -> descending (insertByWeight x l).
Proof.
  induction l as [|y l IH]; cbn [insertByWeight descending].
  - intros _. split; [constructor|done].
  - intros [Hy Hl]. destruct (Qle_bool _ _) eqn:E; cbn [descending].
    + apply Qle_bool_iff in E. split; [|done]. constructor; [done|].
      eapply Forall_impl; [exact Hy|]. intros b Hb. cbn in Hb.
      by apply (Qle_trans _ (a_totalPercentage y)).
    + split; [|by apply IH].
      assert (a_totalPercentage x <= a_totalPercentage y) as Hxy.
      { destruct (Qlt_le_dec (a_totalPercentage x) (a_totalPercentage y)) as [H|H].
        - by apply Qlt_le_weak.
        - apply Qle_bool_iff in H. congruence. }
      rewrite (insertByWeight_perm x l). by constructor.
Qed.

Lemma sortByWeight_descending l : descending (sortByWeight l).
Proof.
  induction l as [|x l IH]; cbn [sortByWeight fold_right]; [done|].
  by apply insertByWeight_descending.
Qed.

Lemma descending_lookup l i j a b :
  descending l -> (i < j)%nat -> l !! i = Some a -> l !! j = Some b ->
  a_totalPercentage b <= a_totalPercentage a.
Proof.
  revert i j. induction l as [|x l IH]; intros i j Hd Hij Hi Hj; [done|].
  destruct Hd as [Hx Hl]. destruct j as [|j]; [lia|]. cbn in Hj.
  destruct i as [|i].
  - cbn in Hi. injection Hi as <-.
    rewrite Forall_forall in Hx. apply Hx. by eapply list_elem_of_lookup_2.
  - cbn in Hi. apply (IH i j); [done|lia|done|done].
Qed.

(** What merging one contribution adds to a total over the records. *)
Lemma values_update {V} k (f : V -> V) (m : OMap.t V) (g : V -> Q) a :
  OMap.get k m = Some a ->
  sumQ (map g (OMap.values (OMap.update k f m))) ==
    sumQ (map g (OMap.values m)) - g a + g (f a).
Proof.
  induction m as [|[k0 v0] m IH]; cbn [OMap.get OMap.update]; [done|].
  destruct (String.eqb_spec k k0) as [->|Hk].
  - intros [= ->]. cbn [OMap.values map snd sumQ fold_right]. ring.
  - intros Hget. cbn [OMap.values map snd sumQ fold_right].
    fold (OMap.values (OMap.update k f m)). fold (OMap.values m).
    fold (sumQ (map g (OMap.values (OMap.update k f m)))).
    fold (sumQ (map g (OMap.values m))).
    rewrite (IH Hget). ring.
Qed.

Lemma values_set_new {V} k (v : V) (m : OMap.t V) :
  OMap.get k m = None -> OMap.values (OMap.set k v m) = OMap.values m ++ [v].
Proof.
  induction m as [|[k0 v0] m IH]; cbn [OMap.get OMap.set]; [done|].
  destruct (String.eqb_spec k k0) as [->|Hk]; [done|].
  intros H. cbn [OMap.values map snd app]. f_equal. by apply IH.
Qed.

Lemma mergeContribution_totals m c :
  sumQ (map a_totalValue (OMap.values (mergeContribution m c))) ==
    sumQ (map a_totalValue (OMap.values m)) + ct_value c /\
  sumQ (map a_totalPercentage (OMap.values (mergeContribution m c))) ==
    sumQ (map a_totalPercentage (OMap.values m)) + ct_share c.
Proof.
  unfold mergeContribution, mergeHolding. fold (ct_key c). unfold OMap.has.
  fold (ct_value c) (ct_share c).
  destruct (OMap.get (ct_key c) m) as [a|] eqn:Hget.
  - split; rewrite (values_update _ _ _ _ a Hget); cbn; ring.
  - split; rewrite values_set_new by done; rewrite map_app; cbn [map];
      rewrite sumQ_snoc; reflexivity.
Qed.

Lemma fold_totals cs :
  sumQ (map a_totalValue (OMap.values (fold_left mergeContribution cs []))) ==
    sumQ (map ct_value cs) /\
  sumQ (map a_totalPercentage (OMap.values (fold_left mergeContribution cs []))) ==
    sumQ (map ct_share cs).
Proof.
  induction cs as [|c cs [IHv IHp]] using rev_ind.
  - split; reflexivity.
  - rewrite fold_left_app. cbn [fold_left].
    destruct (mergeContribution_totals (fold_left mergeContribution cs []) c)
      as [Hv Hp].
    rewrite !map_app. cbn [map]. rewrite !sumQ_snoc.
    split; [rewrite Hv, IHv|rewrite Hp, IHp]; reflexivity.
Qed.

(** A key of the map is the key of some contribution merged into it. *)
Lemma fold_keys_contributed cs k :
  k ∈ OMap.keys (fold_left mergeContribution cs []) <->
  exists c, c ∈ cs /\ ct_key c = k.
Proof.
  induction cs as [|c cs IH] using rev_ind.
  - split; [intros H; by apply not_elem_of_nil in H|].
    intros (c & Hc & _). by apply not_elem_of_nil in Hc.
  - rewrite fold_left_app. cbn [fold_left]. rewrite mergeContribution_keys.
    destruct (decide _) as [Hin|Hnin].
    + rewrite IH. split.
      * intros (c0 & Hc0 & Hk). exists c0. split; [|done].
        apply elem_of_app. by left.
      * intros (c0 & Hc0 & Hk). apply elem_of_app in Hc0 as [Hc0|Hc0].
        -- by exists c0.
        -- apply list_elem_of_singleton in Hc0 as ->. subst k. by apply IH.
    + rewrite elem_of_app, list_elem_of_singleton, IH. split.
      * intros [(c0 & Hc0 & Hk) | ->].
        -- exists c0. split; [|done]. apply elem_of_app. by left.
        -- exists c. split; [|done]. apply elem_of_app. right.
           by apply list_elem_of_singleton.
      * intros (c0 & Hc0 & Hk). apply elem_of_app in Hc0 as [Hc0|Hc0].
        -- left. by exists c0.
        -- apply list_elem_of_singleton in Hc0 as ->. by right.
Qed.

Lemma recKeys_of_values cs m :
  MapOk cs m -> map recKey (OMap.values m) = OMap.keys m.
Proof.
  intros (Hnd & Hrec & _).
  unfold OMap.values, OMap.keys. rewrite map_map. apply map_ext_in.
  intros [k0 a0] Hin. cbn [fst snd].
  apply (Hrec k0 a0). apply OMapFacts.get_Some_elem; [done|].
  by apply list_elem_of_In.
Qed.

End AggregationMore.

Section FirstWinsFacts.

Context {A : Type} (t : A -> bool).




End FirstWinsFacts.

Section AggregationMeta.


End AggregationMeta.

Section AggregationResponse.

Context (w : World).

(** The map behind the response of an authenticated request, and what is
    known about it. *)
Lemma topHoldings_response tok mfHoldings st :
  Js.truthy_str tok = true ->
  let total := (consolidate mfHoldings).2 in
  let cs := contributionsOf total
              (resolveAll w (OMap.values (consolidate mfHoldings).1) st).1 in
  let m := fold_left mergeContribution cs [] in
  exists body,
    (topHoldingsPOST w tok (Some mfHoldings) st).1 = TopOk body /\
    t_holdings body = sortByWeight (OMap.values m) /\
    t_totalHoldings body = List.length (t_holdings body) /\
    t_totalPortfolioValue body = total /\
    MapOk cs m.
Proof.
  intros Htok total cs m.
  rewrite (topHoldingsPOST_run w tok mfHoldings st Htok). cbn [fst].
  eexists. split; [reflexivity|]. cbn [t_holdings t_totalHoldings
    t_totalPortfolioValue].
  split; [done|]. split; [done|]. split; [done|]. apply mapOk_fold.
Qed.

Lemma contribution_weight total rs c :
  c ∈ contributionsOf total rs -> ct_weight c = fundWeightOf total (ct_fund c).
Proof.
  intros Hc. apply list_elem_of_In, in_flat_map in Hc as (r & _ & Hc).
  apply in_map_iff in Hc as (h & <- & _). done.
Qed.

Lemma sumQ_flat total (f : Contribution -> Q)
    (g : Consolidated * FundPortfolio -> Q) rs :
  (forall r, (sumQ (map f (contributionsOfFund total r)) == g r)%Q) ->
  (sumQ (map f (contributionsOf total rs)) == sumQ (map g rs))%Q.
Proof.
  intros Hfg. unfold contributionsOf.
  induction rs as [|r rs' IH]; cbn [flat_map map]; [reflexivity|].
  rewrite map_app, sumQ_app, Hfg, IH. cbn [sumQ fold_right]. reflexivity.
Qed.

End AggregationResponse.

(** X12.  The aggregated constituents come back ordered by portfolio-wide
    weight, largest first: no record has a larger weight than a record
    listed before it. *)
Theorem aggregation_output_is_descending (w : World) (st : Server)
    (tok : option string) (mfHoldings : list MFInput) :
  Js.truthy_str tok = true ->
  exists body,
    (topHoldingsPOST w tok (Some mfHoldings) st).1 = TopOk body /\
    forall i j a b, (i < j)%nat ->
      t_holdings body !! i = Some a -> t_holdings body !! j = Some b ->
      (a_totalPercentage b <= a_totalPercentage a)%Q.
Proof.
  intros Htok.
  destruct (topHoldings_response w tok mfHoldings st Htok)
    as (body & Hb & Hh & _).
  exists body. split; [done|]. intros i j a b Hij Hi Hj.
  apply (descending_lookup (t_holdings body) i j); try done.
  rewrite Hh. apply sortByWeight_descending.
Qed.

Lemma aggregation_output_is_descending_witness :
  exists body,
    (topHoldingsPOST acmeWorld (Some "token") (Some acmeRequest) coldServer).1 =
      TopOk body /\
    forall i j a b, (i < j)%nat ->
      t_holdings body !! i = Some a -> t_holdings body !! j = Some b ->
      (a_totalPercentage b <= a_totalPercentage a)%Q.
Proof.
  exact (aggregation_output_is_descending acmeWorld coldServer (Some "token")
           acmeRequest eq_refl).
Defined.

(** X13.  The response has one record per deduplication key that occurs
    among the constituents of the resolved compositions, no key twice and
    no record for a key that does not occur, and [totalHoldings] is the
    number of records. *)
Theorem aggregation_records_are_the_keys (w : World) (st : Server)
    (tok : option string) (mfHoldings : list MFInput) :
  Js.truthy_str tok = true ->
  let total := (consolidate mfHoldings).2 in
  let cs := contributionsOf total
              (resolveAll w (OMap.values (consolidate mfHoldings).1) st).1 in
  exists body,
    (topHoldingsPOST w tok (Some mfHoldings) st).1 = TopOk body /\
    NoDup (map recKey (t_holdings body)) /\
    (forall k, k ∈ map recKey (t_holdings body) <->
               exists c, c ∈ cs /\ ct_key c = k) /\
    t_totalHoldings body = List.length (t_holdings body).
Proof.
  intros Htok total cs.
  destruct (topHoldings_response w tok mfHoldings st Htok)
    as (body & Hb & Hh & Hn & _ & Hok).
  fold total cs in Hh, Hok.
  exists body. split; [done|].
  assert (map recKey (t_holdings body) ≡ₚ
          OMap.keys (fold_left mergeContribution cs [])) as Hperm.
  { rewrite Hh, <- (recKeys_of_values cs _ Hok).
    apply Permutation_map, sortByWeight_perm. }
  split; [rewrite Hperm; apply Hok|].
  split; [|done].
  intros k. rewrite Hperm. apply fold_keys_contributed.
Qed.

Lemma aggregation_records_are_the_keys_witness :
  exists body,
    (topHoldingsPOST acmeWorld (Some "token") (Some acmeRequest) coldServer).1 =
      TopOk body /\
    NoDup (map recKey (t_holdings body)) /\
    t_totalHoldings body = List.length (t_holdings body).
Proof.
  destruct (aggregation_records_are_the_keys acmeWorld coldServer (Some "token")
              acmeRequest eq_refl) as (body & Hb & Hnd & _ & Hn).
  by exists body.
Defined.

(** X14.  Merging loses nothing and counts nothing twice: the values of
    the returned records add up to the values of all constituents of all
    resolved compositions, and so do the portfolio-wide weights; fund by
    fund that is the fund's value (its weight) times the sum of its
    constituents' internal weights over 100.  A fund whose composition
    could not be resolved adds nothing, though its value stays in the total
    the weights are relative to. *)
Theorem aggregation_totals_are_conserved (w : World) (st : Server)
    (tok : option string) (mfHoldings : list MFInput) :
  Js.truthy_str tok = true ->
  let total := (consolidate mfHoldings).2 in
  let rs := (resolveAll w (OMap.values (consolidate mfHoldings).1) st).1 in
  exists body,
    (topHoldingsPOST w tok (Some mfHoldings) st).1 = TopOk body /\
    (sumQ (map a_totalValue (t_holdings body)) ==
       sumQ (map (fun r => c_totalValue r.1 *
                           (sumQ (map h_percentage (holdings r.2)) / 100)) rs))%Q /\
    (sumQ (map a_totalPercentage (t_holdings body)) ==
       sumQ (map (fun r => fundWeightOf total r.1 *
                           (sumQ (map h_percentage (holdings r.2)) / 100)) rs))%Q.
Proof.
  intros Htok total rs.
  destruct (topHoldings_response w tok mfHoldings st Htok)
    as (body & Hb & Hh & _).
  fold total rs in Hh.
  exists body. split; [done|]. rewrite Hh.
  destruct (fold_totals (contributionsOf total rs)) as [Hv Hp].
  pose proof (fun f g => sumQ_flat total f g rs) as Hflat.
  split.
  - rewrite (sumQ_perm _ (map a_totalValue (OMap.values
               (fold_left mergeContribution (contributionsOf total rs) []))))
      by apply Permutation_map, sortByWeight_perm.
    rewrite Hv. apply Hflat. intros r. unfold contributionsOfFund.
    rewrite map_map. unfold ct_value. cbn [ct_holding ct_fund].
    apply sumQ_shares.
  - rewrite (sumQ_perm _ (map a_totalPercentage (OMap.values
               (fold_left mergeContribution (contributionsOf total rs) []))))
      by apply Permutation_map, sortByWeight_perm.
    rewrite Hp. apply Hflat. intros r. unfold contributionsOfFund.
    rewrite map_map. unfold ct_share. cbn [ct_holding ct_weight].
    apply sumQ_shares.
Qed.

Lemma aggregation_totals_are_conserved_witness :
  exists body,
    (topHoldingsPOST acmeWorld (Some "token") (Some acmeRequest) coldServer).1 =
      TopOk body /\
    (sumQ (map a_totalValue (t_holdings body)) == 400000 # 1)%Q /\
    (sumQ (map a_totalPercentage (t_holdings body)) == 100 # 1)%Q.
Proof.
  destruct (aggregation_totals_are_conserved acmeWorld coldServer (Some "token")
              acmeRequest eq_refl) as (body & Hb & Hv & Hp).
  exists body. split; [exact Hb|].
  split; (etrans; [eassumption|]; vm_compute; reflexivity).
Defined.

(** X15.  When the total portfolio value is not positive the division is
    not attempted: every returned record has portfolio-wide weight 0. *)
Theorem aggregation_weights_are_zero_without_total (w : World) (st : Server)
    (tok : option string) (mfHoldings : list MFInput) :
  Js.truthy_str tok = true ->
  ((consolidate mfHoldings).2 <= 0)%Q ->
  exists body,
    (topHoldingsPOST w tok (Some mfHoldings) st).1 = TopOk body /\
    forall a, a ∈ t_holdings body -> (a_totalPercentage a == 0)%Q.
Proof.
  intros Htok Hle.
  destruct (topHoldings_response w tok mfHoldings st Htok)
    as (body & Hb & Hh & _ & _ & Hok).
  exists body. split; [done|]. intros a Ha. rewrite Hh in Ha.
  rewrite sortByWeight_perm in Ha.
  unfold OMap.values in Ha. apply list_elem_of_fmap in Ha as ([k a'] & -> & Hin).
  cbn [snd]. destruct Hok as (Hnd & Hrec & _).
  apply OMapFacts.get_Some_elem in Hin; [|done].
  destruct (Hrec _ _ Hin) as (_ & _ & Hp & _). rewrite Hp.
  assert (forall l : list Contribution,
            (forall c, c ∈ l -> (ct_share c == 0)%Q) ->
            (sumQ (map ct_share l) == 0)%Q) as Hzero.
  { induction l as [|c l IH]; intros Hl; cbn [map sumQ fold_right]; [reflexivity|].
    fold (sumQ (map ct_share l)).
    rewrite (Hl c) by (by left). rewrite IH; [reflexivity|].
    intros c' Hc'. apply Hl. by right. }
  apply Hzero. intros c Hc. apply list_elem_of_filter in Hc as [_ Hc].
  unfold ct_share. rewrite (contribution_weight _ _ _ Hc).
  unfold fundWeightOf. destruct (Qlt_le_dec 0 _) as [Hpos|_].
  - exfalso. by apply (Qlt_not_le _ _ Hpos).
  - ring.
Qed.

Lemma aggregation_weights_are_zero_without_total_witness :
  exists body,
    (topHoldingsPOST acmeWorld (Some "token") (Some worthlessRequest) coldServer).1 =
      TopOk body /\
    forall a, a ∈ t_holdings body -> (a_totalPercentage a == 0)%Q.
Proof.
  apply (aggregation_weights_are_zero_without_total acmeWorld coldServer
           (Some "token") worthlessRequest eq_refl).
  vm_compute. discriminate.
Defined.




(** ** Scheduler *)

Module SchedulerMore.

Import Scheduler SchedulerVocabulary SchedulerFacts.









End SchedulerMore.

Module SchedulerInvariants.

Import Scheduler SchedulerVocabulary SchedulerFacts SchedulerMore.

(** A settling event is about a call that is out. *)
Lemma step_settles id how s s' :
  step (Settles id how) s = Some s' ->
  exists r, r ∈ inflight s /\ req_id r = id /\ s' = settle r how s.
Proof.
  cbn [step]. intros Hstep.
  destruct (list_find _ (inflight s)) as [[n r]|] eqn:Hfind; [|discriminate].
  apply list_find_Some in Hfind as (Hr & Hid & _).
  apply list_elem_of_lookup_2 in Hr.
  exists r. split; [done|]. split; [done|].
  destruct how; try (by injection Hstep).
  destruct (req_aborted r); [by injection Hstep|discriminate].
Qed.

Lemma inflight_single s r :
  Inv s -> r ∈ inflight s -> inflight s = [r].
Proof.
  intros (Hlen & _) Hr.
  destruct (inflight s) as [|r0 [|r1 rs]]; cbn in Hlen.
  - by apply not_elem_of_nil in Hr.
  - by apply list_elem_of_singleton in Hr as ->.
  - lia.
Qed.

Lemma inflight_none s :
  Inv s -> mounted s = true -> isFetching s = false -> inflight s = [].
Proof.
  intros (_ & Hflag & _) Hm Hf.
  destruct (inflight s) as [|r0 rs] eqn:Hin; [done|].
  destruct (Hflag Hm) as [_ Hback]. rewrite Hback in Hf; [discriminate|done].
Qed.

(** With nothing pending [processBatch] returns at once. *)
Lemma processBatch_idle closure s :
  pendingIndices s = [] -> processBatch closure s = s.
Proof.
  intros Hp. unfold processBatch.
  destruct (snap_fundData closure) as [hs|]; [|done].
  destruct (isFetching s); [done|]. by rewrite Hp.
Qed.

Lemma tracked_init : Tracked init.
Proof. split; [done|]. by intros _. Qed.

Lemma tracked_processBatch closure s :
  Inv s -> Tracked s -> Tracked (processBatch closure s).
Proof.
  intros HI [Hl Ha]. unfold processBatch.
  destruct (snap_fundData closure) as [hs|]; [|by split].
  destruct (isFetching s) eqn:Hf; [by split|].
  destruct (take 10 _) as [|i0 more] eqn:Hind; [by split|].
  destruct (omap _ _) as [|n0 ns]; [split; [exact Hl|exact Ha]|].
  unfold Tracked, outstanding.
  cbn [loadingIndices inflight mounted abortController].
  split.
  - rewrite map_app, union_list_app_L. cbn [map union_list req_indices].
    rewrite Hl. unfold outstanding. set_solver.
  - intros Hm. by rewrite (inflight_none s HI Hm Hf).
Qed.

Lemma tracked_settle r how s :
  Inv s -> Tracked s -> r ∈ inflight s -> Tracked (settle r how s).
Proof.
  intros HI [Hl Ha] Hr. pose proof (inflight_single s r HI Hr) as Hone.
  unfold Tracked, outstanding in *.
  cbn [settle loadingIndices inflight mounted abortController].
  rewrite Hone in *. rewrite filter_cons_False by (by intros H).
  cbn [map union_list head fmap option_fmap option_map] in *.
  split; [|done]. rewrite Hl. set_solver.
Qed.

Lemma tracked_step e s s' :
  Inv s -> Tracked s -> step e s = Some s' -> Tracked s'.
Proof.
  intros HI HT Hstep.
  destruct e as [hs c| |i closure|id|id how|].
  - cbn [step] in Hstep. destruct (mounted s); [|discriminate].
    injection Hstep as <-. exact HT.
  - cbn [step] in Hstep. destruct (mounted s); [|discriminate].
    injection Hstep as <-. exact HT.
  - cbn [step] in Hstep. destruct (mounted s); [|discriminate].
    injection Hstep as <-. unfold handleHoldingVisible.
    destruct (negb _); [exact HT|]. destruct (bool_decide _); [exact HT|].
    destruct (Js.truthy_num _); exact HT.
  - cbn [step] in Hstep.
    destruct (list_find _ (timers s)) as [[? [? closure]]|]; [|discriminate].
    injection Hstep as <-. apply tracked_processBatch; [exact HI|exact HT].
  - apply step_settles in Hstep as (r & Hr & _ & ->). by apply tracked_settle.
  - cbn [step] in Hstep. destruct (mounted s); [|discriminate].
    injection Hstep as <-. destruct HT as [Hl _].
    split; [|discriminate]. cbn [unmount loadingIndices]. rewrite Hl.
    unfold outstanding. cbn [unmount inflight].
    destruct (abortController s) as [id|]; [|done].
    rewrite map_map. f_equal. apply map_ext. intros r. unfold abort.
    by destruct (decide _).
Qed.

Lemma tracked_run es s s' :
  Inv s -> Tracked s -> run es s = Some s' -> Tracked s'.
Proof.
  revert s. induction es as [|e es IH]; intros s HI HT; cbn [run].
  - by intros [= <-].
  - destruct (step e s) as [s1|] eqn:Hstep; [|discriminate].
    apply IH; [by eapply inv_step|by eapply tracked_step].
Qed.

(** Once the view is gone and nothing is pending, no turn of the event
    loop brings anything back. *)
Lemma silent_step e s s' :
  mounted s = false -> pendingIndices s = [] -> step e s = Some s' ->
  mounted s' = false /\ pendingIndices s' = [] /\
  forall r, r ∈ inflight s' -> r ∈ inflight s.
Proof.
  intros Hm Hp Hstep.
  destruct e as [hs c| |i closure|id|id how|];
    try (cbn [step] in Hstep; rewrite Hm in Hstep; discriminate).
  - cbn [step] in Hstep.
    destruct (list_find _ (timers s)) as [[? [? closure]]|]; [|discriminate].
    injection Hstep as <-. rewrite processBatch_idle by done. done.
  - apply step_settles in Hstep as (r & Hr & _ & ->).
    cbn [settle mounted pendingIndices inflight].
    split; [done|]. split; [done|].
    intros r' Hr'. by apply list_elem_of_filter in Hr' as [_ ?].
Qed.

Lemma silent_run es s s' :
  mounted s = false -> pendingIndices s = [] -> run es s = Some s' ->
  mounted s' = false /\ pendingIndices s' = [] /\
  forall r, r ∈ inflight s' -> r ∈ inflight s.
Proof.
  revert s. induction es as [|e es IH]; intros s Hm Hp; cbn [run].
  - by intros [= <-].
  - destruct (step e s) as [s1|] eqn:Hstep; [|discriminate].
    destruct (silent_step e s s1 Hm Hp Hstep) as (Hm1 & Hp1 & Hsub).
    intros Hrun. destruct (IH s1 Hm1 Hp1 Hrun) as (Hm' & Hp' & Hsub').
    auto.
Qed.

End SchedulerInvariants.

Module SchedulerProperties.

Import Scheduler SchedulerVocabulary SchedulerFacts SchedulerMore
  SchedulerInvariants.

Lemma reachable_inv s : reachable s -> Inv s /\ Tracked s.
Proof.
  intros [es Hrun]. split.
  - exact (inv_run es init s inv_init Hrun).
  - exact (tracked_run es init s inv_init tracked_init Hrun).
Qed.



(** X18.  While the modal is mounted, the rows shown as loading are
    exactly the rows of the outstanding call: a row starts loading when its
    call is issued, stops when that call settles, however it settles, and
    no row is left loading without a call that is out. *)
Theorem loading_rows_are_the_outstanding_call (s : Client) :
  reachable s -> mounted s = true ->
  forall i, i ∈ loadingIndices s <->
            exists r, r ∈ inflight s /\ i ∈ req_indices r.
Proof.
  intros Hreach _ i. destruct (reachable_inv s Hreach) as [_ [Hl _]].
  rewrite Hl. unfold outstanding. rewrite elem_of_union_list. split.
  - intros (X & HX & Hi).
    change (map ?f ?l) with (f <$> l) in HX.
    apply list_elem_of_fmap in HX as (r & -> & Hr).
    exists r. split; [done|]. by apply elem_of_list_to_set in Hi.
  - intros (r & Hr & Hi). exists (list_to_set (req_indices r)). split.
    + change (map ?f ?l) with (f <$> l). apply list_elem_of_fmap. by exists r.
    + by apply elem_of_list_to_set.
Qed.

Lemma loading_rows_are_the_outstanding_call_witness :
  mounted SchedulerSamples.afterSixth = true /\
  forall i, i ∈ loadingIndices SchedulerSamples.afterSixth <->
            exists r, r ∈ inflight SchedulerSamples.afterSixth /\
                      i ∈ req_indices r.
Proof.
  split; [vm_compute; reflexivity|].
  apply loading_rows_are_the_outstanding_call.
  - exists (SchedulerSamples.burst ++ SchedulerSamples.sixthRow).
    vm_compute. reflexivity.
  - vm_compute. reflexivity.
Defined.

(** X19.  Closing the modal cancels what is under way and nothing starts
    afterwards: the outstanding call is aborted, the debounce timer is
    disarmed, and whatever happens later (a timer that was still armed
    fires, the aborted call settles) the pending set stays empty and no
    call is issued. *)
Theorem unmount_cancels_and_silences (s s1 : Client) :
  reachable s -> step Unmount s = Some s1 ->
  (forall r, r ∈ inflight s1 -> req_aborted r = true) /\
  (forall id, batchTimeout s = Some id -> id ∉ map fst (timers s1)) /\
  forall es s', run es s1 = Some s' ->
    pendingIndices s' = [] /\ forall r, r ∈ inflight s' -> r ∈ inflight s1.
Proof.
  intros Hreach Hstep. destruct (reachable_inv s Hreach) as [HI [_ Ha]].
  cbn [step] in Hstep. destruct (mounted s) eqn:Hm; [|discriminate].
  injection Hstep as <-. specialize (Ha eq_refl).
  split; [|split].
  - cbn [unmount inflight]. intros r Hr.
    destruct (inflight s) as [|r0 rest] eqn:Hin.
    { rewrite Ha in Hr. cbn in Hr. by apply not_elem_of_nil in Hr. }
    assert (r0 ∈ inflight s) as Hr0 by (rewrite Hin; by left).
    pose proof (inflight_single s r0 HI Hr0) as Hone. rewrite Hin in Hone.
    injection Hone as ->. rewrite Ha in Hr. cbn in Hr.
    apply list_elem_of_singleton in Hr as ->. unfold abort.
    by rewrite decide_True.
  - intros id Hid. cbn [unmount timers]. rewrite Hid.
    intros Hin. change (map ?f ?l) with (f <$> l) in Hin.
    apply list_elem_of_fmap in Hin as ([id' c] & -> & Hin).
    apply list_elem_of_filter in Hin as [Hne _]. by apply Hne.
  - intros es s' Hrun.
    destruct (silent_run es (unmount s) s' eq_refl eq_refl Hrun) as (_ & Hp & Hsub).
    auto.
Qed.

Lemma unmount_cancels_and_silences_witness :
  step Unmount SchedulerSamples.afterSixth =
    Some (unmount SchedulerSamples.afterSixth) /\
  forall r, r ∈ inflight (unmount SchedulerSamples.afterSixth) ->
            req_aborted r = true.
Proof.
  split; [vm_compute; reflexivity|].
  refine (proj1 (unmount_cancels_and_silences SchedulerSamples.afterSixth
                   (unmount SchedulerSamples.afterSixth) _ _)).
  - exists (SchedulerSamples.burst ++ SchedulerSamples.sixthRow).
    vm_compute. reflexivity.
  - vm_compute. reflexivity.
Defined.

Lemma snoc_not_self {A} (l : list A) (x : A) : l ≠ l ++ [x].
Proof.
  intros H. apply (f_equal List.length) in H. rewrite length_app in H.
  simpl in H. lia.
Qed.

Lemma length_omap_le {A B} (f : A -> option B) (l : list A) :
  (List.length (omap f l) <= List.length l)%nat.
Proof.
  induction l as [|x l IH]; cbn; [lia|]. destruct (f x); cbn; lia.
Qed.

Lemma elem_of_foldr_delete j idx p :
  j ∈ foldr set_delete p idx <-> j ∈ p /\ j ∉ idx.
Proof.
  induction idx as [|i idx IH]; cbn [foldr].
  - split; [intros H; split; [done|apply not_elem_of_nil]|by intros [? _]].
  - unfold set_delete at 1. rewrite list_elem_of_filter, IH, not_elem_of_cons.
    tauto.
Qed.

(** X20.  A batch call carries the names of the chosen rows that lack a
    ratio and nothing else, at least one and at most ten.  The chosen rows
    were pending, had not been fetched and were not loading in the render
    the callback was made in; issuing the call marks every one of them
    fetched and loading and takes it out of the pending set, the rows that
    already had a ratio included, and leaves every other row where it
    was. *)
Theorem batch_call_contents (closure : Snapshot) (s : Client) (r : Request) :
  inflight (processBatch closure s) = inflight s ++ [r] ->
  let s' := processBatch closure s in
  exists hs, snap_fundData closure = Some hs /\
    isFetching s = false /\ isFetching s' = true /\
    req_stocks r ≠ [] /\
    (List.length (req_stocks r) <= List.length (req_indices r))%nat /\
    (List.length (req_indices r) <= 10)%nat /\
    (forall n, n ∈ req_stocks r <->
       exists i h, i ∈ req_indices r /\ hs !! i = Some h /\
                   Js.truthy_num (h_pe h) = false /\ h_name h = n) /\
    (forall i, i ∈ req_indices r ->
       i ∈ pendingIndices s /\ (i ∉ fetchedIndices s) /\
       (i ∉ snap_loading closure) /\
       i ∈ fetchedIndices s' /\ (i ∉ pendingIndices s') /\
       i ∈ loadingIndices s') /\
    (forall j, j ∉ req_indices r ->
       (j ∈ pendingIndices s' <-> j ∈ pendingIndices s) /\
       (j ∈ fetchedIndices s' <-> j ∈ fetchedIndices s) /\
       (j ∈ loadingIndices s' <-> j ∈ loadingIndices s)).
Proof.
  intros Hin s'. subst s'. revert Hin. unfold processBatch.
  destruct (snap_fundData closure) as [hs|];
    [|intros H; by apply snoc_not_self in H].
  destruct (isFetching s) eqn:Hf; [intros H; by apply snoc_not_self in H|].
  destruct (take 10 _) as [|i0 more] eqn:Hind;
    [intros H; by apply snoc_not_self in H|].
  destruct (omap _ _) as [|n0 ns] eqn:Hst;
    [intros H; by apply snoc_not_self in H|].
  cbn [inflight isFetching pendingIndices fetchedIndices loadingIndices].
  intros H. apply app_inv_head in H. injection H as <-.
  cbn [req_stocks req_indices].
  exists hs. split; [done|]. split; [done|]. split; [done|]. split; [done|].
  split; [rewrite <- Hst; apply length_omap_le|].
  split; [rewrite <- Hind, length_take; lia|].
  split; [|split].
  - intros n. rewrite <- Hst, list_elem_of_omap. split.
    + intros (i & Hi & Hn). unfold needsRatio in Hn.
      destruct (hs !! i) as [h|] eqn:Hh; [|discriminate].
      destruct (Js.truthy_num (h_pe h)) eqn:Hpe; [discriminate|].
      injection Hn as <-. by exists i, h.
    + intros (i & h & Hi & Hh & Hpe & <-). exists i. split; [done|].
      unfold needsRatio. by rewrite Hh, Hpe.
  - intros i Hi. pose proof Hi as Hi'. rewrite <- Hind in Hi'.
    apply subseteq_take, list_elem_of_filter in Hi' as [[Hnf Hnl] Hp].
    split; [done|]. split; [done|]. split; [done|].
    split; [apply elem_of_union; right; by apply elem_of_list_to_set|].
    split; [|apply elem_of_union; right; by apply elem_of_list_to_set].
    rewrite elem_of_foldr_delete. tauto.
  - intros j Hj. rewrite elem_of_foldr_delete, !elem_of_union,
      !elem_of_list_to_set. tauto.
Qed.

Lemma batch_call_contents_witness :
  exists hs, snap_fundData SchedulerSamples.rendered = Some hs /\
    isFetching SchedulerCases.queued = false /\
    isFetching (processBatch SchedulerSamples.rendered SchedulerCases.queued) =
      true.
Proof.
  destruct (batch_call_contents SchedulerSamples.rendered SchedulerCases.queued
              SchedulerCases.firstCall ltac:(vm_compute; reflexivity))
    as (hs & Hd & Hf & Hf' & _).
  exists hs. split; [exact Hd|]. split; [exact Hf|exact Hf'].
Defined.

Lemma fetched_step e s s' i :
  i ∈ fetchedIndices s -> keepsFetched e = true -> step e s = Some s' ->
  i ∈ fetchedIndices s' /\
  forall r, r ∈ inflight s' -> i ∈ req_indices r ->
    exists r0, r0 ∈ inflight s /\ req_id r0 = req_id r /\
               req_indices r0 = req_indices r /\ req_stocks r0 = req_stocks r.
Proof.
  intros Hi Hk Hstep.
  assert (forall t : Client, inflight t = inflight s ->
            forall r, r ∈ inflight t -> i ∈ req_indices r ->
              exists r0, r0 ∈ inflight s /\ req_id r0 = req_id r /\
                req_indices r0 = req_indices r /\ req_stocks r0 = req_stocks r)
    as Hsame.
  { intros t Ht r Hr _. rewrite Ht in Hr. by exists r. }
  destruct e as [hs c| |j closure|id|id how|]; try discriminate.
  - cbn [step] in Hstep. destruct (mounted s); [|discriminate].
    injection Hstep as <-. split; [done|]. by apply Hsame.
  - cbn [step] in Hstep. destruct (mounted s); [|discriminate].
    injection Hstep as <-. unfold handleHoldingVisible.
    destruct (negb _); [split; [done|by apply Hsame]|].
    destruct (bool_decide _); [split; [done|by apply Hsame]|].
    destruct (Js.truthy_num _); split; try done; by apply Hsame.
  - cbn [step] in Hstep.
    destruct (list_find _ (timers s)) as [[? [? closure]]|]; [|discriminate].
    injection Hstep as <-. unfold processBatch.
    destruct (snap_fundData closure) as [hs|]; [|split; [done|by apply Hsame]].
    cbn [isFetching pendingIndices fetchedIndices].
    destruct (isFetching s); [split; [done|by apply Hsame]|].
    destruct (take 10 _) as [|i0 more] eqn:Hind; [split; [done|by apply Hsame]|].
    destruct (omap _ _) as [|name0 names].
    + cbn [fetchedIndices inflight].
      split; [apply elem_of_union; by left|by apply Hsame].
    + cbn [fetchedIndices inflight].
      split; [apply elem_of_union; by left|].
      intros r Hr Hir. apply elem_of_app in Hr as [Hr|Hr]; [by exists r|].
      apply list_elem_of_singleton in Hr as ->. cbn [req_indices] in Hir.
      rewrite <- Hind in Hir.
      by apply subseteq_take, list_elem_of_filter in Hir as [[Hnf _] _].
  - apply step_settles in Hstep as (r & Hr & _ & ->).
    cbn [settle fetchedIndices inflight]. split.
    + by destruct how.
    + intros r' Hr' _. apply list_elem_of_filter in Hr' as [_ Hr'].
      by exists r'.
  - cbn [step] in Hstep. destruct (mounted s); [|discriminate].
    injection Hstep as <-. cbn [unmount fetchedIndices inflight].
    split; [done|]. intros r Hr _.
    destruct (abortController s) as [id|]; [|by exists r].
    change (map ?f ?l) with (f <$> l) in Hr.
    apply list_elem_of_fmap in Hr as (r0 & -> & Hr0).
    exists r0. split; [done|]. unfold abort. by destruct (decide _).
Qed.

(** X21.  A row marked as fetched is not asked about again: as long as
    enrichment is not re-enabled and no call fails on the network, the row
    stays marked, and any call that is out later and includes the row is a
    call that was out already.  A call answered with an error status, or
    with no ratio for the row, therefore leaves the row without a ratio and
    without a retry. *)
Theorem fetched_rows_are_not_requested_again (s s' : Client)
    (es : list Event) (i : nat) :
  i ∈ fetchedIndices s ->
  Forall (fun e => keepsFetched e = true) es ->
  run es s = Some s' ->
  i ∈ fetchedIndices s' /\
  forall r, r ∈ inflight s' -> i ∈ req_indices r ->
    exists r0, r0 ∈ inflight s /\ req_id r0 = req_id r /\
               req_indices r0 = req_indices r /\ req_stocks r0 = req_stocks r.
Proof.
  revert s. induction es as [|e es IH]; intros s Hi Hes; cbn [run].
  - intros [= <-]. split; [done|]. intros r Hr _. by exists r.
  - destruct (step e s) as [s1|] eqn:Hstep; [|discriminate].
    apply Forall_cons in Hes as [He Hes]. intros Hrun.
    destruct (fetched_step e s s1 i Hi He Hstep) as [Hi1 Hcalls1].
    destruct (IH s1 Hi1 Hes Hrun) as [Hi' Hcalls'].
    split; [done|]. intros r Hr Hir.
    destruct (Hcalls' r Hr Hir) as (r1 & Hr1 & Hid1 & Hidx1 & Hst1).
    rewrite <- Hidx1 in Hir.
    destruct (Hcalls1 r1 Hr1 Hir) as (r0 & Hr0 & Hid0 & Hidx0 & Hst0).
    exists r0. split; [done|]. split; [congruence|]. split; congruence.
Qed.

Lemma fetched_rows_are_not_requested_again_witness :
  exists s',
    run [Settles 5 ResponseNotOk; Visible 0 SchedulerSamples.rendered]
      SchedulerSamples.afterSixth = Some s' /\
    0%nat ∈ fetchedIndices s'.
Proof.
  destruct (run [Settles 5 ResponseNotOk; Visible 0 SchedulerSamples.rendered]
              SchedulerSamples.afterSixth) as [s'|] eqn:Hrun;
    [|vm_compute in Hrun; discriminate].
  exists s'. split; [reflexivity|].
  refine (proj1 (fetched_rows_are_not_requested_again
                   SchedulerSamples.afterSixth s'
                   [Settles 5 ResponseNotOk; Visible 0 SchedulerSamples.rendered]
                   0%nat _ _ Hrun)).
  - vm_compute. reflexivity.
  - repeat constructor.
Defined.

Lemma visible_cases i closure s :
  handleHoldingVisible i closure s = s \/
  (let s' := handleHoldingVisible i closure s in
   inflight s' = inflight s /\ fetchedIndices s' = fetchedIndices s /\
   pendingIndices s' = set_add i (pendingIndices s) /\
   batchTimeout s' = Some (nextId s) /\
   timers s' =
     match batchTimeout s with
     | Some id => clearTimeout id (timers s)
     | None => timers s
     end ++ [(nextId s, closure)]).
Proof.
  unfold handleHoldingVisible.
  destruct (negb _); [by left|]. destruct (bool_decide _); [by left|].
  destruct (Js.truthy_num _); [by left|]. right. done.
Qed.

Lemma set_add_keeps i j l : j ∈ l -> j ∈ set_add i l.
Proof.
  intros Hj. unfold set_add. destruct (decide _); [done|].
  apply elem_of_app. by left.
Qed.

Lemma debounce_step i closure s s' :
  step (Visible i closure) s = Some s' ->
  inflight s' = inflight s /\ fetchedIndices s' = fetchedIndices s /\
  (forall j, j ∈ pendingIndices s -> j ∈ pendingIndices s') /\
  (s' = s \/
   (DebounceArmed s' /\
    (List.length (timers s') <= S (List.length (timers s)))%nat /\
    (DebounceArmed s ->
     (List.length (timers s') <= List.length (timers s))%nat))).
Proof.
  cbn [step]. destruct (mounted s); [|discriminate]. intros [= <-].
  destruct (visible_cases i closure s) as [->|(Hin & Hf & Hp & Hb & Ht)];
    [by auto|].
  split; [done|]. split; [done|].
  split; [intros j Hj; rewrite Hp; by apply set_add_keeps|].
  right. split; [|split].
  - exists (nextId s). split; [done|]. rewrite Ht, map_app.
    apply elem_of_app. right. by left.
  - rewrite Ht, length_app. cbn [List.length].
    destruct (batchTimeout s) as [id|]; [|lia].
    pose proof (length_filter (fun t : nat * Snapshot => t.1 ≠ id) (timers s)).
    unfold clearTimeout. lia.
  - intros (id & Hid & Harmed). rewrite Ht, length_app, Hid. cbn [List.length].
    change (map ?f ?l) with (f <$> l) in Harmed.
    apply list_elem_of_fmap in Harmed as (t & -> & Htin).
    pose proof (length_filter_lt (fun t' : nat * Snapshot => t'.1 ≠ t.1)
                  (timers s) t Htin ltac:(by intros H)).
    unfold clearTimeout. lia.
Qed.

(** X22.  Rows that become visible in a burst are debounced into one
    timer: however many rows become visible in a row, without a timer
    firing or a call settling in between, at most one more timer is armed
    after the burst than before it, and none more if the debounce timer was
    armed already.  The burst issues no call and un-fetches nothing, every
    row that was pending stays pending, and if a row was queued a debounce
    timer is armed. *)
Theorem debounce_keeps_one_timer (s s' : Client) (es : list Event) :
  Forall (fun e => isVisible e = true) es ->
  run es s = Some s' ->
  (List.length (timers s') <= S (List.length (timers s)))%nat /\
  (DebounceArmed s ->
   (List.length (timers s') <= List.length (timers s))%nat) /\
  inflight s' = inflight s /\ fetchedIndices s' = fetchedIndices s /\
  (forall j, j ∈ pendingIndices s -> j ∈ pendingIndices s') /\
  (s' = s \/ DebounceArmed s').
Proof.
  revert s. induction es as [|e es IH]; intros s Hes; cbn [run].
  - intros [= <-]. repeat split; auto; lia.
  - destruct (step e s) as [s1|] eqn:Hstep; [|discriminate].
    apply Forall_cons in Hes as [He Hes]. intros Hrun.
    destruct e as [| |i closure| | |]; try discriminate.
    destruct (debounce_step i closure s s1 Hstep) as (Hin & Hf & Hp & Hcase).
    destruct (IH s1 Hes Hrun) as (Hlen & Harm & Hin' & Hf' & Hp' & Hend).
    destruct Hcase as [->|(Ha1 & Hl1 & Hl1')]; [done|].
    specialize (Harm Ha1).
    split; [lia|]. split; [intros Ha; specialize (Hl1' Ha); lia|].
    split; [congruence|]. split; [congruence|]. split; [by auto|].
    right. destruct Hend as [->|Hend]; done.
Qed.

Lemma debounce_keeps_one_timer_witness :
  (List.length (timers SchedulerCases.queued) <=
     S (List.length (timers SchedulerCases.enabled)))%nat.
Proof.
  refine (proj1 (debounce_keeps_one_timer SchedulerCases.enabled
                   SchedulerCases.queued SchedulerCases.fiveRows _ _)).
  - repeat constructor.
  - vm_compute. reflexivity.
Defined.

End SchedulerProperties.

(** ** Search queries *)

Section QueryFacts.

Import Query.

Lemma trimStart_suffix l : exists pre, l = pre ++ Js.trimStart_list l.
Proof.
  induction l as [|c l [pre IH]]; [by exists []|]. cbn [Js.trimStart_list].
  destruct (Js.is_space c); [|by exists []].
  exists (c :: pre). cbn. by rewrite <- IH.
Qed.

Lemma trimStart_length l :
  (List.length (Js.trimStart_list l) <= List.length l)%nat.
Proof.
  destruct (trimStart_suffix l) as [pre H]. rewrite H at 2.
  rewrite length_app. lia.
Qed.

Lemma trimStart_fixed l :
  List.length (Js.trimStart_list l) = List.length l -> Js.trimStart_list l = l.
Proof.
  destruct l as [|c l]; [done|]. cbn [Js.trimStart_list].
  destruct (Js.is_space c); [|done].
  pose proof (trimStart_length l). cbn. lia.
Qed.

Lemma trimStart_idem l :
  Js.trimStart_list (Js.trimStart_list l) = Js.trimStart_list l.
Proof.
  induction l as [|c l IH]; [done|]. cbn [Js.trimStart_list].
  destruct (Js.is_space c) eqn:Hc; [done|]. cbn [Js.trimStart_list].
  by rewrite Hc.
Qed.

Lemma trimStart_snoc l c :
  Js.is_space c = false -> exists m, Js.trimStart_list (l ++ [c]) = m ++ [c].
Proof.
  intros Hc. induction l as [|d l [m IH]]; cbn [app Js.trimStart_list].
  - rewrite Hc. by exists [].
  - destruct (Js.is_space d); [by exists m|]. by exists (d :: l).
Qed.

(** Trimming both ends of a list of characters. *)
Lemma trim_list s :
  list_ascii_of_string (Js.trim s) =
    rev (Js.trimStart_list (rev (Js.trimStart_list (list_ascii_of_string s)))).
Proof. unfold Js.trim. by rewrite list_ascii_of_string_of_list_ascii. Qed.

Lemma trimmed_front l :
  let t := rev (Js.trimStart_list (rev (Js.trimStart_list l))) in
  Js.trimStart_list t = t.
Proof.
  intros t. subst t. destruct (Js.trimStart_list l) as [|c l1] eqn:Hl; [done|].
  assert (Js.is_space c = false) as Hc.
  { destruct (Js.is_space c) eqn:Hc; [|done]. exfalso.
    pose proof (trimStart_idem l) as Hi. rewrite Hl in Hi.
    cbn [Js.trimStart_list] in Hi. rewrite Hc in Hi.
    pose proof (trimStart_length l1) as Hlen. rewrite Hi in Hlen.
    cbn in Hlen. lia. }
  cbn [rev]. destruct (trimStart_snoc (rev l1) c Hc) as [m ->].
  rewrite rev_app_distr. cbn [rev app Js.trimStart_list]. by rewrite Hc.
Qed.

Lemma trim_idem s : Js.trim (Js.trim s) = Js.trim s.
Proof.
  unfold Js.trim at 1.
  rewrite trim_list, (trimmed_front (list_ascii_of_string s)), rev_involutive.
  by rewrite trimStart_idem.
Qed.

Lemma list_ascii_length s :
  List.length (list_ascii_of_string s) = String.length s.
Proof. induction s as [|c s IH]; cbn; [done|]. by rewrite IH. Qed.

Lemma trim_length s : (String.length (Js.trim s) <= String.length s)%nat.
Proof.
  rewrite <- !list_ascii_length, trim_list, length_rev.
  etrans; [apply trimStart_length|]. rewrite length_rev. apply trimStart_length.
Qed.

(** A trimmed string does not end in white space. *)
Lemma trim_fixed_back s :
  Js.trim s = s -> Js.trimStart_list (backwards s) = backwards s.
Proof.
  intros Hs. apply (f_equal list_ascii_of_string) in Hs.
  rewrite trim_list in Hs. unfold backwards.
  set (l := list_ascii_of_string s) in *.
  pose proof (trimStart_length l) as H1.
  pose proof (trimStart_length (rev (Js.trimStart_list l))) as H2.
  pose proof (f_equal List.length Hs) as Hlen.
  rewrite !length_rev in *.
  assert (Js.trimStart_list l = l) as Hl by (apply trimStart_fixed; lia).
  rewrite Hl in *. apply trimStart_fixed. rewrite length_rev. lia.
Qed.

Lemma list_ascii_app a b :
  list_ascii_of_string (a ++ b)%string =
    list_ascii_of_string a ++ list_ascii_of_string b.
Proof. induction a as [|c a IH]; simpl; [done|]. by rewrite IH. Qed.

Lemma string_of_list_app l1 l2 :
  string_of_list_ascii (l1 ++ l2) =
    (string_of_list_ascii l1 ++ string_of_list_ascii l2)%string.
Proof. induction l1 as [|c l1 IH]; simpl; [done|]. by rewrite IH. Qed.

Lemma dropWord_suffix word l l' :
  dropWord word l = Some l' ->
  exists cut, l = cut ++ l' /\ List.length cut = List.length word.
Proof.
  revert l. induction word as [|w word IH]; intros l; cbn [dropWord].
  - intros [= <-]. by exists [].
  - destruct l as [|c l]; [discriminate|].
    destruct (Ascii.eqb _ _); [|discriminate]. intros H.
    destruct (IH l H) as (cut & -> & Hlen). exists (c :: cut). cbn.
    by rewrite Hlen.
Qed.

(** What is cut is a tail of the string (a head of the reversed one), and
    at least the white space goes. *)
Lemma cutTail_suffix word l l' :
  cutTail word l = Some l' ->
  exists cut, l = cut ++ l' /\ cut ≠ [].
Proof.
  unfold cutTail. destruct (dropWord _ l) as [[|c rest]|] eqn:Hd; try discriminate.
  destruct (Js.is_space c); [|discriminate]. intros [= <-].
  apply dropWord_suffix in Hd as (cut & -> & _).
  destruct (trimStart_suffix rest) as [pre Hpre].
  exists (cut ++ c :: pre). split.
  - rewrite <- app_assoc. cbn. by rewrite <- Hpre.
  - by destruct cut.
Qed.

Lemma replaceTail_cases words l :
  (replaceTail words l = l /\ Forall (fun word => cutTail word l = None) words) \/
  exists cut, l = cut ++ replaceTail words l /\ cut ≠ [].
Proof.
  induction words as [|word more IH]; cbn [replaceTail].
  - left. split; [done|]. apply Forall_nil_2.
  - destruct (cutTail word l) as [l'|] eqn:Hc.
    + right. by apply cutTail_suffix in Hc.
    + destruct IH as [[-> Hall]|IH]; [|by right].
      left. split; [done|]. by apply Forall_cons.
Qed.

Lemma replaceTail_suffix words l :
  exists cut, l = cut ++ replaceTail words l.
Proof.
  destruct (replaceTail_cases words l) as [[-> _]|(cut & H & _)];
    [by exists []|by exists cut].
Qed.

Lemma forwards_backwards s : forwards (backwards s) = s.
Proof.
  unfold forwards, backwards. rewrite rev_involutive.
  apply string_of_list_ascii_of_string.
Qed.

Lemma forwards_length l : String.length (forwards l) = List.length l.
Proof.
  unfold forwards. rewrite <- list_ascii_length,
    list_ascii_of_string_of_list_ascii. apply length_rev.
Qed.

End QueryFacts.

Section QueryStages.

Import Query.

Lemma lower_idem c : Js.lower_ascii (Js.lower_ascii c) = Js.lower_ascii c.
Proof. destruct c as [[] [] [] [] [] [] [] []]; reflexivity. Qed.

Lemma backwards_app a b : backwards (a ++ b)%string = backwards b ++ backwards a.
Proof. unfold backwards. by rewrite list_ascii_app, rev_app_distr. Qed.

Lemma backwards_lower s :
  map Js.lower_ascii (backwards s) = backwards (Js.toLowerCase s).
Proof.
  unfold backwards. rewrite map_rev. f_equal.
  induction s as [|c s IH]; cbn; [done|]. by rewrite IH.
Qed.

Lemma dropWord_lower word l :
  dropWord word (map Js.lower_ascii l) = None -> dropWord word l = None.
Proof.
  revert l. induction word as [|w word IH]; intros l; cbn [dropWord];
    [discriminate|].
  destruct l as [|c l]; [done|]. cbn [map]. rewrite lower_idem.
  destruct (Ascii.eqb _ _); [apply IH|done].
Qed.

Lemma dropWord_exact x word rest :
  map Js.lower_ascii x = word -> dropWord word (x ++ rest) = Some rest.
Proof.
  revert word. induction x as [|c x IH]; intros word <-; cbn; [done|].
  rewrite Ascii.eqb_refl. by apply IH.
Qed.

Lemma replaceTail_none words l :
  Forall (fun word => cutTail word l = None) words -> replaceTail words l = l.
Proof.
  induction 1 as [|word more Hw _ IH]; cbn [replaceTail]; [done|].
  by rewrite Hw.
Qed.

(** A stage none of whose alternatives ends the string leaves it alone. *)
Lemma stage_miss words l :
  Forall (fun word => dropWord (backwards word) (map Js.lower_ascii l) = None)
    words ->
  replaceTail words l = l.
Proof.
  intros Hall. apply replaceTail_none. eapply Forall_impl; [exact Hall|].
  intros word Hw. cbn beta in Hw. apply dropWord_lower in Hw.
  unfold cutTail. by rewrite Hw.
Qed.

(** A stage one of whose alternatives ends the string cuts the word and the
    white space before it. *)
Lemma stage_hit before word after x rest :
  Forall (fun word' =>
            dropWord (backwards word')
              (map Js.lower_ascii (x ++ " "%char :: rest)) = None) before ->
  map Js.lower_ascii x = backwards word ->
  Js.trimStart_list rest = rest ->
  replaceTail (before ++ word :: after) (x ++ " "%char :: rest) = rest.
Proof.
  intros Hall Hx Hrest. induction Hall as [|word' more Hw _ IH]; cbn [app replaceTail].
  - unfold cutTail. rewrite (dropWord_exact x (backwards word)) by done.
    cbn. by rewrite Hrest.
  - apply dropWord_lower in Hw. unfold cutTail at 1. by rewrite Hw.
Qed.

(** A name [cleanCompanyName] returns as it is has no leading or trailing
    white space and none of the endings. *)
Lemma clean_fixed base :
  cleanCompanyName base = base ->
  Js.trim base = base /\
  Forall (fun word => cutTail word (backwards base) = None) companySuffixes.
Proof.
  unfold cleanCompanyName. set (r0 := backwards base).
  set (r1 := replaceTail ["ltd."; "ltd"] r0).
  set (r2 := replaceTail ["limited"] r1).
  set (r3 := replaceTail ["private"] r2).
  set (r4 := replaceTail ["pvt."; "pvt"] r3).
  intros Hfix.
  pose proof (f_equal String.length Hfix) as Hlen.
  pose proof (trim_length (forwards r4)) as Ht.
  rewrite forwards_length in Ht.
  assert (String.length base = List.length r0) as Hb.
  { unfold r0, backwards. by rewrite length_rev, list_ascii_length. }
  assert (forall words l, (List.length (replaceTail words l) <= List.length l)%nat)
    as Hle.
  { intros words l. destruct (replaceTail_suffix words l) as [cut Hc].
    rewrite Hc at 2. rewrite length_app. lia. }
  assert (forall words l,
            List.length (replaceTail words l) = List.length l ->
            replaceTail words l = l /\
            Forall (fun word => cutTail word l = None) words) as Hsame.
  { intros words l Hl.
    destruct (replaceTail_cases words l) as [H|(cut & Hc & Hne)]; [done|].
    exfalso. apply (f_equal List.length) in Hc. rewrite length_app in Hc.
    destruct cut; [done|]. cbn in Hc. lia. }
  pose proof (Hle ["ltd."; "ltd"] r0) as H1. fold r1 in H1.
  pose proof (Hle ["limited"] r1) as H2. fold r2 in H2.
  pose proof (Hle ["private"] r2) as H3. fold r3 in H3.
  pose proof (Hle ["pvt."; "pvt"] r3) as H4. fold r4 in H4.
  destruct (Hsame ["ltd."; "ltd"] r0 ltac:(fold r1; lia)) as [E1 F1].
  fold r1 in E1.
  destruct (Hsame ["limited"] r1 ltac:(fold r2; lia)) as [E2 F2].
  fold r2 in E2.
  destruct (Hsame ["private"] r2 ltac:(fold r3; lia)) as [E3 F3].
  fold r3 in E3.
  destruct (Hsame ["pvt."; "pvt"] r3 ltac:(fold r4; lia)) as [E4 F4].
  fold r4 in E4.
  rewrite E3, E2, E1 in F4. rewrite E2, E1 in F3. rewrite E1 in F2.
  split.
  - rewrite E4, E3, E2, E1 in Hfix. unfold r0 in Hfix.
    by rewrite forwards_backwards in Hfix.
  - unfold companySuffixes.
    apply Forall_cons in F1 as [F1a F1]. apply Forall_cons in F1 as [F1b _].
    apply Forall_cons in F2 as [F2 _]. apply Forall_cons in F3 as [F3 _].
    apply Forall_cons in F4 as [F4a F4]. apply Forall_cons in F4 as [F4b _].
    repeat (apply Forall_cons; split; [done|]). apply Forall_nil_2.
Qed.

End QueryStages.

(** X23.  The search query is the name with a tail cut off and the white
    space at both ends removed: nothing is inserted and nothing is taken
    from the middle, the query itself has no white space at either end, and
    it is never longer than the name. *)
Theorem search_query_is_a_trimmed_prefix (name : string) :
  exists kept cut : string,
    name = (kept ++ cut)%string /\
    cleanCompanyName name = Js.trim kept /\
    Js.trim (cleanCompanyName name) = cleanCompanyName name /\
    (String.length (cleanCompanyName name) <= String.length name)%nat.
Proof.
  unfold cleanCompanyName.
  set (r0 := Query.backwards name).
  destruct (replaceTail_suffix ["ltd."; "ltd"] r0) as [c1 H1].
  set (r1 := Query.replaceTail ["ltd."; "ltd"] r0) in *.
  destruct (replaceTail_suffix ["limited"] r1) as [c2 H2].
  set (r2 := Query.replaceTail ["limited"] r1) in *.
  destruct (replaceTail_suffix ["private"] r2) as [c3 H3].
  set (r3 := Query.replaceTail ["private"] r2) in *.
  destruct (replaceTail_suffix ["pvt."; "pvt"] r3) as [c4 H4].
  set (r4 := Query.replaceTail ["pvt."; "pvt"] r3) in *.
  assert (r0 = (c1 ++ c2 ++ c3 ++ c4) ++ r4) as Hcut.
  { rewrite H1, H2, H3, H4 at 1. by rewrite <- !app_assoc. }
  assert (name = (Query.forwards r4 ++ Query.forwards (c1 ++ c2 ++ c3 ++ c4))%string)
    as Hname.
  { rewrite <- (forwards_backwards name). fold r0. rewrite Hcut.
    unfold Query.forwards. by rewrite rev_app_distr, string_of_list_app. }
  exists (Query.forwards r4), (Query.forwards (c1 ++ c2 ++ c3 ++ c4)).
  split; [exact Hname|]. split; [done|]. split; [apply trim_idem|].
  etrans; [apply trim_length|].
  apply (f_equal String.length) in Hname.
  rewrite <- !list_ascii_length, list_ascii_app, length_app in Hname.
  rewrite <- !list_ascii_length. lia.
Qed.

(** X24.  A name that [cleanCompanyName] leaves as it is comes back from
    every spelling of that name with a company ending: appending a space
    and "Ltd", "Ltd.", "Limited", "Private", "Pvt" or "Pvt.", in any mix of
    upper and lower case, gives the same query as the name alone. *)
Theorem company_suffix_is_dropped (base suffix : string) :
  cleanCompanyName base = base ->
  Js.toLowerCase suffix ∈ companySuffixes ->
  cleanCompanyName (base ++ " " ++ suffix) = base.
Proof.
  intros Hfix Hsuf. destruct (clean_fixed base Hfix) as [Htrim Hnone].
  pose proof (trim_fixed_back base Htrim) as Hback.
  unfold companySuffixes in Hnone.
  apply Forall_cons in Hnone as [N1 Hnone]. apply Forall_cons in Hnone as [N2 Hnone].
  apply Forall_cons in Hnone as [N3 Hnone]. apply Forall_cons in Hnone as [N4 Hnone].
  apply Forall_cons in Hnone as [N5 Hnone]. apply Forall_cons in Hnone as [N6 _].
  unfold cleanCompanyName.
  assert (Query.backwards (base ++ " " ++ suffix) =
          Query.backwards suffix ++ " "%char :: Query.backwards base) as ->.
  { rewrite !backwards_app, <- app_assoc. done. }
  pose proof (backwards_lower suffix) as Hx.
  set (x := Query.backwards suffix) in *. set (rb := Query.backwards base) in *.
  assert (forall words,
            Forall (fun word => Query.cutTail word rb = None) words ->
            Query.replaceTail words rb = rb) as Hrest
    by (intros words; apply replaceTail_none).
  assert (Js.trim (Query.forwards rb) = base) as Hdone.
  { unfold rb. by rewrite forwards_backwards. }
  unfold companySuffixes in Hsuf.
  assert (forall words : list string,
            Forall (fun word =>
                      Query.dropWord (Query.backwards word)
                        (map Js.lower_ascii (x ++ " "%char :: rb)) = None) words ->
            Query.replaceTail words (x ++ " "%char :: rb) = x ++ " "%char :: rb)
    as Hmiss by (intros words; apply stage_miss).
  pose proof (fun before word after =>
                stage_hit before word after x rb) as Hhit.
  repeat (apply elem_of_cons in Hsuf as [Hsuf|Hsuf]);
    [| | | | | |by apply not_elem_of_nil in Hsuf]; rewrite Hsuf in Hx.
  - pose proof (Hhit ["ltd."] "ltd" []) as Hs; cbn [app] in Hs; rewrite Hs;
      [|rewrite map_app, Hx; by repeat constructor|done|done].
    rewrite !Hrest; [done|by repeat constructor..].
  - pose proof (Hhit [] "ltd." ["ltd"]) as Hs; cbn [app] in Hs; rewrite Hs; [|by constructor|done|done].
    rewrite !Hrest; [done|by repeat constructor..].
  - rewrite (Hmiss ["ltd."; "ltd"]);
      [|rewrite map_app, Hx; by repeat constructor].
    pose proof (Hhit [] "limited" []) as Hs; cbn [app] in Hs; rewrite Hs; [|by constructor|done|done].
    rewrite !Hrest; [done|by repeat constructor..].
  - rewrite (Hmiss ["ltd."; "ltd"]);
      [|rewrite map_app, Hx; by repeat constructor].
    rewrite (Hmiss ["limited"]); [|rewrite map_app, Hx; by repeat constructor].
    pose proof (Hhit [] "private" []) as Hs; cbn [app] in Hs; rewrite Hs; [|by constructor|done|done].
    rewrite !Hrest; [done|by repeat constructor..].
  - rewrite (Hmiss ["ltd."; "ltd"]);
      [|rewrite map_app, Hx; by repeat constructor].
    rewrite (Hmiss ["limited"]); [|rewrite map_app, Hx; by repeat constructor].
    rewrite (Hmiss ["private"]); [|rewrite map_app, Hx; by repeat constructor].
    pose proof (Hhit ["pvt."] "pvt" []) as Hs; cbn [app] in Hs; rewrite Hs;
      [|rewrite map_app, Hx; by repeat constructor|done|done].
    done.
  - rewrite (Hmiss ["ltd."; "ltd"]);
      [|rewrite map_app, Hx; by repeat constructor].
    rewrite (Hmiss ["limited"]); [|rewrite map_app, Hx; by repeat constructor].
    rewrite (Hmiss ["private"]); [|rewrite map_app, Hx; by repeat constructor].
    pose proof (Hhit [] "pvt." ["pvt"]) as Hs; cbn [app] in Hs; rewrite Hs; [|by constructor|done|done].
    done.
Qed.

Lemma company_suffix_is_dropped_witness :
  cleanCompanyName ("Acme" ++ " " ++ "LTD") = "Acme".
Proof.
  apply (company_suffix_is_dropped "Acme" "LTD").
  - vm_compute. reflexivity.
  - unfold companySuffixes. left.
Defined.

(** Endings are cut one pattern after the other, each at most once, and
    only after white space. *)
Example cleanCompanyName_examples :
  cleanCompanyName "Acme Pvt. Ltd." = "Acme" /\
  cleanCompanyName "Acme Private Limited" = "Acme" /\
  cleanCompanyName "  Acme   LTD" = "Acme" /\
  cleanCompanyName "Acme Ltd Pvt" = "Acme Ltd" /\
  cleanCompanyName "Acme Limited Limited" = "Acme Limited" /\
  cleanCompanyName "AcmeLtd" = "AcmeLtd".
Proof. vm_compute. repeat split. Qed.

(** ** Fund classification *)

Lemma words_found_in_longer (words : list string) (n a b : string) :
  existsb (fun word => Js.includes (Js.toLowerCase n) word) words = true ->
  existsb (fun word => Js.includes (Js.toLowerCase (a ++ n ++ b)) word) words =
    true.
Proof.
  rewrite !toLowerCase_app. intros H.
  apply existsb_exists in H as (kw & Hkw & Hinc).
  apply existsb_exists. exists kw. split; [done|].
  by apply includes_app_l, includes_app_r.
Qed.

(** X25.  The classification of a fund by its name only looks for key
    words, debt words first: a name classified as debt stays debt inside
    any longer name, a name classified as hybrid is never equity inside a
    longer name (it stays hybrid or becomes debt), and so every part of a
    name classified as equity is classified as equity. *)
Theorem fund_type_is_keyword_monotone (n a b : string) :
  (getFundType n = Debt -> getFundType (a ++ n ++ b) = Debt) /\
  (getFundType n = Hybrid -> getFundType (a ++ n ++ b) ≠ Equity) /\
  (getFundType (a ++ n ++ b) = Equity -> getFundType n = Equity).
Proof.
  pose proof (words_found_in_longer debtFundWords n a b) as Hd.
  pose proof (words_found_in_longer hybridFundWords n a b) as Hh.
  unfold getFundType. cbv zeta.
  destruct (existsb (fun word => Js.includes (Js.toLowerCase n) word)
              debtFundWords) eqn:E1.
  - rewrite (Hd eq_refl). split; [done|]. split; done.
  - destruct (existsb (fun word => Js.includes (Js.toLowerCase n) word)
                hybridFundWords) eqn:E2.
    + rewrite (Hh eq_refl).
      destruct (existsb
                  (fun word => Js.includes (Js.toLowerCase (a ++ n ++ b)) word)
                  debtFundWords); (split; [done|]); split; done.
    + split; [done|]. split; done.
Qed.

Example getFundType_examples :
  getFundType "Axis Liquid Fund" = Debt /\
  getFundType "HDFC Balanced Advantage Fund" = Hybrid /\
  getFundType "ICICI Hybrid Bond Fund" = Debt /\
  getFundType "Parag Parikh Flexi Cap" = Equity.
Proof. vm_compute. repeat split. Qed.
